(** * aliasly: alias resolution and execution engine

    A shallow embedding of the Go packages [internal/config] and
    [internal/alias] of aliasly, and the properties of parameter binding,
    template expansion, placeholder scanning, process execution and the
    alias store that the specification states about them.

    Go strings are byte strings: they are modelled as [string] (a list of
    [ascii] bytes).  The Go map [provided] is a [gmap string string].
    Package-level variables, the file system, the environment and child
    processes are gathered in a [World] that the effectful functions
    thread through a small state-and-panic monad. *)

From Stdlib Require Import ZArith Ascii.
From stdpp Require Import gmap strings list pretty.

(* ===================================================================== *)
(** * Go library functions used by the packages *)
(* ===================================================================== *)

Module GoStrings.

(** [strings.HasPrefix(s, prefix)] together with [s[len(prefix):]]:
    the remainder of [s] after [prefix], when [s] starts with it. *)
Fixpoint CutPrefix (prefix s : string) : option string :=
  match prefix with
  | EmptyString => Some s
  | String p prefix' =>
      match s with
      | EmptyString => None
      | String c s' =>
          if decide (p = c) then CutPrefix prefix' s' else None
      end
  end.

(** The loop of [strings.Replace] for a non-empty [old]: find the next
    instance of [old], copy what precedes it, write [new], and go on
    after the instance.  [fuel] bounds the number of bytes looked at. *)
Fixpoint replaceLoop (fuel : nat) (s old new : string) : string :=
  match fuel with
  | O => s
  | S fuel' =>
      match CutPrefix old s with
      | Some rest => new +:+ replaceLoop fuel' rest old new
      | None =>
          match s with
          | EmptyString => EmptyString
          | String c s' => String c (replaceLoop fuel' s' old new)
          end
      end
  end.

(** For an empty [old], [strings.Replace] inserts [new] before every
    character and at the end.  (Go does so at every UTF-8 sequence; the
    byte-wise version below agrees on ASCII text.  The callers in
    package [alias] never pass an empty [old].) *)
Fixpoint intersperse (s new : string) : string :=
  match s with
  | EmptyString => new
  | String c s' => new +:+ String c (intersperse s' new)
  end.

(** [strings.ReplaceAll(s, old, new)]: a copy of [s] with all
    non-overlapping instances of [old] replaced by [new]. *)
Definition ReplaceAll (s old new : string) : string :=
  match old with
  | EmptyString => intersperse s new
  | String _ _ => replaceLoop (String.length s) s old new
  end.

End GoStrings.

(* ===================================================================== *)
(** * Package config: the data model *)
(* ===================================================================== *)

Module Param.
(** [config.Param] *)
Record t : Type := mk {
  Name : string;
  Description : string;
  Required : bool;
  Default : string
}.
End Param.

Module Alias.
(** [config.Alias] *)
Record t : Type := mk {
  Name : string;
  Command : string;
  Description : string;
  Params : list Param.t
}.
End Alias.

Module Settings.
(** [config.Settings] *)
Record t : Type := mk {
  Shell : string;
  Verbose : bool
}.
End Settings.

Module Config.
(** [config.Config] *)
Record t : Type := mk {
  Version : Z;
  Settings : Settings.t;
  Aliases : list Alias.t
}.
End Config.

(* ===================================================================== *)
(** * Package alias: parser.go *)
(* ===================================================================== *)

Module parser.

(** [alias.ParseError] *)
Record ParseError : Type := mkParseError {
  Message : string;
  ParamName : string
}.

(** [fmt.Sprintf("{{%s}}", param.Name)] *)
Definition placeholder (name : string) : string :=
  "{{" +:+ name +:+ "}}".

(** [_, hasValue := provided[name]] *)
Definition hasKey (provided : gmap string string) (name : string) : bool :=
  match provided !! name with
  | Some _ => true
  | None => false
  end.

(** First loop of [ParseCommand]:
    [for i, param := range a.Params { if i < len(args) { provided[param.Name] = args[i] } }],
    started at index [i] with the map built so far. *)
Fixpoint bindArgs (i : nat) (params : list Param.t) (args : list string)
    (provided : gmap string string) : gmap string string :=
  match params with
  | [] => provided
  | param :: rest =>
      bindArgs (S i) rest args
        (match args !! i with
         | Some v => <[Param.Name param := v]> provided
         | None => provided
         end)
  end.

(** Second loop of [ParseCommand]: the first parameter, in declaration
    order, that is required and has no entry in [provided]. *)
Fixpoint checkRequired (params : list Param.t)
    (provided : gmap string string) : option ParseError :=
  match params with
  | [] => None
  | param :: rest =>
      let hasValue := hasKey provided (Param.Name param) in
      if Param.Required param && negb hasValue
      then Some {| Message := "missing required parameter: " +:+ Param.Name param;
                   ParamName := Param.Name param |}
      else checkRequired rest provided
  end.

(** [value, hasValue := provided[param.Name]; if !hasValue { value = param.Default }] *)
Definition boundValue (provided : gmap string string) (param : Param.t) : string :=
  match provided !! Param.Name param with
  | Some value => value
  | None => Param.Default param
  end.

(** Third loop of [ParseCommand]: one [strings.ReplaceAll] per declared
    parameter, each acting on the result of the previous one. *)
Fixpoint substitute (params : list Param.t) (provided : gmap string string)
    (command : string) : string :=
  match params with
  | [] => command
  | param :: rest =>
      substitute rest provided
        (GoStrings.ReplaceAll command (placeholder (Param.Name param))
           (boundValue provided param))
  end.

(** [func ParseCommand(a Alias, args []string) (string, error)] *)
Definition ParseCommand (a : Alias.t) (args : list string)
    : string * option ParseError :=
  let provided := bindArgs 0 (Alias.Params a) args ∅ in
  match checkRequired (Alias.Params a) provided with
  | Some err => (EmptyString, Some err)
  | None => (substitute (Alias.Params a) provided (Alias.Command a), None)
  end.

(** ** The placeholder pattern [\{\{(\w+)\}\}]

    Go's [regexp] gives the leftmost match and, for that start, the
    match a backtracking engine finds first.  For this pattern a match
    starting at a position is [{{], then the longest run of word
    characters (the greedy [\w+]), then [}}]. *)

(** [\w]: ASCII letters, digits and underscore. *)
Definition isWordChar (c : ascii) : bool :=
  let n := nat_of_ascii c in
  ((48 <=? n) && (n <=? 57)) || ((65 <=? n) && (n <=? 90))
  || ((97 <=? n) && (n <=? 122)) || (n =? 95).

(** The greedy [\w+]: the longest run of word characters at the start
    of [s], and what follows it. *)
Fixpoint spanWord (s : string) : string * string :=
  match s with
  | EmptyString => (EmptyString, EmptyString)
  | String c s' =>
      if isWordChar c
      then let '(w, rest) := spanWord s' in (String c w, rest)
      else (EmptyString, s)
  end.

(** A match of [paramPattern] anchored at the start of [s]: the
    captured identifier and the text after the match. *)
Definition matchHere (s : string) : option (string * string) :=
  match GoStrings.CutPrefix "{{" s with
  | None => None
  | Some s1 =>
      match spanWord s1 with
      | (EmptyString, _) => None
      | (w, s2) =>
          match GoStrings.CutPrefix "}}" s2 with
          | None => None
          | Some rest => Some (w, rest)
          end
      end
  end.

(** [paramPattern.FindAllStringSubmatch(s, -1)] : successive
    non-overlapping matches, each as [[full match; capture]].  [fuel]
    bounds the number of bytes looked at. *)
Fixpoint findAllLoop (fuel : nat) (s : string) : list (list string) :=
  match fuel with
  | O => []
  | S fuel' =>
      match matchHere s with
      | Some (w, rest) => [placeholder w; w] :: findAllLoop fuel' rest
      | None =>
          match s with
          | EmptyString => []
          | String _ s' => findAllLoop fuel' s'
          end
      end
  end.

Definition FindAllStringSubmatch (s : string) : list (list string) :=
  findAllLoop (String.length s) s.

(** The loop of [ExtractPlaceholders]:
    [if len(match) >= 2 { names = append(names, match[1]) }] *)
Fixpoint collectNames (matches : list (list string)) (names : list string)
    : list string :=
  match matches with
  | [] => names
  | match_ :: rest =>
      collectNames rest
        (if decide (2 ≤ length match_)
         then match match_ !! 1 with
              | Some name => names ++ [name]
              | None => names
              end
         else names)
  end.

(** [func ExtractPlaceholders(command string) []string] *)
Definition ExtractPlaceholders (command : string) : list string :=
  let matches := FindAllStringSubmatch command in
  collectNames matches [].

(** First loop of [ValidatePlaceholders]:
    [for _, param := range a.Params { defined[param.Name] = true }] *)
Fixpoint defineNames (params : list Param.t) (defined : gmap string bool)
    : gmap string bool :=
  match params with
  | [] => defined
  | param :: rest => defineNames rest (<[Param.Name param := true]> defined)
  end.

(** [defined[placeholder]]: a key the map does not hold reads as [false]. *)
Definition isDefined (defined : gmap string bool) (name : string) : bool :=
  match defined !! name with
  | Some b => b
  | None => false
  end.

(** Second loop of [ValidatePlaceholders]:
    [if !defined[placeholder] { undefined = append(undefined, placeholder) }] *)
Fixpoint collectUndefined (placeholders : list string)
    (defined : gmap string bool) (undefined : list string) : list string :=
  match placeholders with
  | [] => undefined
  | placeholder_ :: rest =>
      collectUndefined rest defined
        (if negb (isDefined defined placeholder_)
         then undefined ++ [placeholder_]
         else undefined)
  end.

(** [func ValidatePlaceholders(a Alias) []string] *)
Definition ValidatePlaceholders (a : Alias.t) : list string :=
  let placeholders := ExtractPlaceholders (Alias.Command a) in
  let defined := defineNames (Alias.Params a) ∅ in
  collectUndefined placeholders defined [].

(** The example value [FormatExample] shows for a parameter: its default
    when it has one, else its name in angle brackets. *)
Definition exampleValue (param : Param.t) : string :=
  if negb (String.eqb (Param.Default param) EmptyString)
  then Param.Default param
  else "<" +:+ Param.Name param +:+ ">".

(** The loop of [FormatExample]. *)
Fixpoint formatLoop (params : list Param.t) (command : string) : string :=
  match params with
  | [] => command
  | param :: rest =>
      formatLoop rest
        (GoStrings.ReplaceAll command (placeholder (Param.Name param))
           (exampleValue param))
  end.

(** [func FormatExample(a Alias) string] *)
Definition FormatExample (a : Alias.t) : string :=
  formatLoop (Alias.Params a) (Alias.Command a).

End parser.

(* ===================================================================== *)
(** * The world the program runs in *)
(* ===================================================================== *)

Module os.

(** What becomes of a child process created by [cmd.Run()]. *)
Inductive ProcOutcome : Type :=
| Exited (status : Z)          (* ran and terminated normally *)
| Killed                       (* ran and was ended by a signal *)
| NotStarted (cause : string). (* could not be started at all *)

(** The value of [err] after [err := cmd.Run()]. *)
Inductive RunErr : Type :=
| NoErr                        (* nil: exit status 0 *)
| ExitError (code : Z)         (* *exec.ExitError, with its ExitCode() *)
| OtherError (msg : string).   (* any other error *)

(** [cmd.Run] returns nil when the command exits with status 0, an
    [*exec.ExitError] when it starts but does not complete successfully
    ([ExitCode()] is the exit status, or -1 when a signal ended it), and
    an error of another type when it cannot be started.  (The errors of
    copying to and from the child do not arise: [Execute] hands the
    child the standard streams of the parent themselves.) *)
Definition errOf (o : ProcOutcome) : RunErr :=
  match o with
  | Exited status => if decide (status = 0%Z) then NoErr else ExitError status
  | Killed => ExitError (-1)
  | NotStarted cause => OtherError cause
  end.

(** The state of the configuration directory and file on disk. *)
Inductive FileState : Type :=
| NoDirectory                  (* the directory does not exist *)
| Missing                      (* the directory exists, the file does not *)
| Unreadable (err : string)    (* the file exists and cannot be read *)
| Contents (data : string).


(** The disk after [os.MkdirAll(configDir, 0755)] returned nil. *)
Definition made (f : FileState) : FileState :=
  match f with
  | NoDirectory => Missing
  | _ => f
  end.

(** What becomes of [os.WriteFile(configPath, data, 0644)], which opens
    the file with [O_WRONLY|O_CREATE|O_TRUNC], writes the data and
    closes the file.  When the file cannot be opened it is left as it
    was.  When writing or closing fails the file has been created or
    emptied already and holds the bytes written so far: the first
    [written] bytes of the data. *)
Inductive WriteOutcome : Type :=
| Written
| OpenFailed (err : string)
| WriteFailed (err : string) (written : nat).

(** [data[:n]], and all of [data] when it is shorter. *)
Fixpoint firstBytes (n : nat) (data : string) : string :=
  match n, data with
  | S n', String c rest => String c (firstBytes n' rest)
  | _, _ => EmptyString
  end.

Record World : Type := mkWorld {
  (** package-level variables of package config *)
  globalConfig : option Config.t;   (* [nil] is [None] *)
  loaded : bool;
  (** the environment *)
  GOOS : string;
  getenv : string → string;
  (** the configuration directory and file *)
  mkdirAll : option string;         (* error of os.MkdirAll(configDir) *)
  configFile : FileState;
  writeFile : WriteOutcome;         (* of os.WriteFile(configPath, ...) *)
  viperRead : string → option string;
  viperUnmarshal : string → Config.t * option string;
  yamlMarshal : Config.t → string + string;
  (** what a child process does, given the configuration file it finds
      on disk and its command line *)
  spawn : FileState → string → list string → ProcOutcome;
  (** observable effects, oldest first: the text written to standard
      output, and the child processes asked for, each with its command
      line and what became of it *)
  stdout : list string;
  procs : list (string * list string * ProcOutcome)
}.

Definition set_config (g : option Config.t) (l : bool) (w : World) : World :=
  mkWorld g l (GOOS w) (getenv w) (mkdirAll w) (configFile w) (writeFile w)
    (viperRead w) (viperUnmarshal w) (yamlMarshal w) (spawn w) (stdout w) (procs w).

Definition set_configFile (f : FileState) (w : World) : World :=
  mkWorld (globalConfig w) (loaded w) (GOOS w) (getenv w) (mkdirAll w) f
    (writeFile w) (viperRead w) (viperUnmarshal w) (yamlMarshal w) (spawn w)
    (stdout w) (procs w).

Definition add_stdout (line : string) (w : World) : World :=
  mkWorld (globalConfig w) (loaded w) (GOOS w) (getenv w) (mkdirAll w)
    (configFile w) (writeFile w) (viperRead w) (viperUnmarshal w)
    (yamlMarshal w) (spawn w) (stdout w ++ [line]) (procs w).

Definition add_proc (p : string * list string * ProcOutcome) (w : World) : World :=
  mkWorld (globalConfig w) (loaded w) (GOOS w) (getenv w) (mkdirAll w)
    (configFile w) (writeFile w) (viperRead w) (viperUnmarshal w)
    (yamlMarshal w) (spawn w) (stdout w) (procs w ++ [p]).

(** A computation returns a value or panics (a nil pointer is
    dereferenced), and leaves a world behind. *)
Inductive Result (A : Type) : Type :=
| Ok (a : A)
| Panic.
Arguments Ok {A} a.
Arguments Panic {A}.

Definition M (A : Type) : Type := World → Result A * World.

Definition ret {A} (a : A) : M A := λ w, (Ok a, w).

Definition bind {A B} (m : M A) (k : A → M B) : M B :=
  λ w, match m w with
       | (Ok a, w') => k a w'
       | (Panic, w') => (Panic, w')
       end.

Definition panic {A} : M A := λ w, (Panic, w).
Definition get : M World := λ w, (Ok w, w).
Definition modify (f : World → World) : M unit := λ w, (Ok tt, f w).

(** [fmt.Printf] *)
Definition Printf (text : string) : M unit := modify (add_stdout text).

(** [exec.Command(name, args...)] followed by [cmd.Run()], with the
    standard streams and the environment of the parent.  The child runs
    on the disk as it is when it is started. *)
Definition cmdRun (name : string) (args : list string) : M RunErr :=
  λ w, let o := spawn w (configFile w) name args in
       (Ok (errOf o), add_proc (name, args, o) w).

End os.

(** Notations for [bind]: [do x <- m; k] names the result of [m],
    [do '(x, y) <- m; k] takes a pair apart, [m >> k] drops it. *)
Notation "'do' x <- m ; k" := (os.bind m (λ x, k))
  (at level 10, x name, m at level 100, k at level 200, only parsing).
Notation "'do' ' p <- m ; k" := (os.bind m (λ x, match x with p => k end))
  (at level 10, p pattern, m at level 100, k at level 200, only parsing).
Notation "m >> k" := (os.bind m (λ _, k))
  (at level 100, k at level 200, right associativity, only parsing).

(* ===================================================================== *)
(** * Package config: paths.go and config.go *)
(* ===================================================================== *)

Module config.
Import os.

(** [func GetDefaultShell() string] *)
Definition GetDefaultShell : M string :=
  do w <- get;
  let shell := getenv w "SHELL" in
  if negb (String.eqb shell EmptyString) then ret shell
  else if String.eqb (GOOS w) "windows" then ret "cmd"
  else ret "/bin/sh".

(** [func EnsureConfigDir() error] *)
Definition EnsureConfigDir : M (option string) :=
  do w <- get;
  match mkdirAll w with
  | Some e => ret (Some e)
  | None => modify (set_configFile (made (configFile w))) >> ret None
  end.

(** [func createDefaultConfig() *Config] *)
Definition createDefaultConfig : M Config.t :=
  do shell <- GetDefaultShell;
  ret {|
    Config.Version := 1;
    Config.Settings := {| Settings.Shell := shell; Settings.Verbose := false |};
    Config.Aliases := [
      {| Alias.Name := "gs"; Alias.Command := "git status";
         Alias.Description := "Show git status"; Alias.Params := [] |};
      {| Alias.Name := "gc";
         Alias.Command :=
           "git commit -am " +:+ String (ascii_of_nat 34)
             ("{{message}}" +:+ String (ascii_of_nat 34) EmptyString);
         Alias.Description := "Git commit with message";
         Alias.Params := [
           {| Param.Name := "message"; Param.Description := "Commit message";
              Param.Required := true; Param.Default := EmptyString |} ] |};
      {| Alias.Name := "gp"; Alias.Command := "git push origin {{branch}}";
         Alias.Description := "Push to remote branch";
         Alias.Params := [
           {| Param.Name := "branch"; Param.Description := "Branch name";
              Param.Required := false; Param.Default := "main" |} ] |} ]
  |}.

(** [func saveInternal() error] *)
Definition saveInternal : M (option string) :=
  do w <- get;
  match globalConfig w with
  | None => ret (Some "no configuration loaded")
  | Some cfg =>
      do err <- EnsureConfigDir;
      match err with
      | Some e => ret (Some ("failed to create config directory: " +:+ e))
      | None =>
          match yamlMarshal w cfg with
          | inr e => ret (Some ("failed to marshal config: " +:+ e))
          | inl data =>
              match writeFile w with
              | OpenFailed e =>
                  ret (Some ("failed to write config file: " +:+ e))
              | WriteFailed e written =>
                  modify (set_configFile (Contents (firstBytes written data))) >>
                  ret (Some ("failed to write config file: " +:+ e))
              | Written => modify (set_configFile (Contents data)) >> ret None
              end
          end
      end
  end.

(** [func loadInternal() error] *)
Definition loadInternal : M (option string) :=
  do err <- EnsureConfigDir;
  match err with
  | Some e => ret (Some ("failed to create config directory: " +:+ e))
  | None =>
      do w <- get;
      match configFile w with
      | NoDirectory | Missing =>
          do cfg <- createDefaultConfig;
          modify (set_config (Some cfg) true) >>
          saveInternal
      | Unreadable e => ret (Some ("failed to read config file: " +:+ e))
      | Contents data =>
          match viperRead w data with
          | Some e => ret (Some ("failed to read config file: " +:+ e))
          | None =>
              let '(cfg, uerr) := viperUnmarshal w data in
              modify (set_config (Some cfg) (loaded w)) >>
              match uerr with
              | Some e => ret (Some ("failed to parse config file: " +:+ e))
              | None => modify (set_config (Some cfg) true) >> ret None
              end
          end
      end
  end.

(** [func ensureLoaded() error] *)
Definition ensureLoaded : M (option string) :=
  do w <- get;
  if negb (loaded w) then loadInternal else ret None.

(** [func Get()], returning a [*Config] and an [error]; the mutex is not modelled, the
    program being sequential. *)
Definition Get : M (option Config.t * option string) :=
  do err <- ensureLoaded;
  match err with
  | Some e => ret (None, Some e)
  | None => do w <- get; ret (globalConfig w, None)
  end.

(** The search loop shared by [FindAlias] and [AddAlias]:
    [for _, a := range aliases { if a.Name == name { ... } }] *)
Fixpoint findByName (aliases : list Alias.t) (name : string) : option Alias.t :=
  match aliases with
  | [] => None
  | a :: rest =>
      if String.eqb (Alias.Name a) name then Some a else findByName rest name
  end.

(** [func FindAlias(name string) (Alias, bool)] *)
Definition FindAlias (name : string) : M (Alias.t * bool) :=
  let empty := Alias.mk EmptyString EmptyString EmptyString [] in
  do err <- ensureLoaded;
  match err with
  | Some _ => ret (empty, false)
  | None =>
      do w <- get;
      match globalConfig w with
      | None => panic
      | Some cfg =>
          match findByName (Config.Aliases cfg) name with
          | Some a => ret (a, true)
          | None => ret (empty, false)
          end
      end
  end.

(** [func AddAlias(alias Alias) error] *)
Definition AddAlias (alias : Alias.t) : M (option string) :=
  do err <- ensureLoaded;
  match err with
  | Some e => ret (Some e)
  | None =>
      do w <- get;
      match globalConfig w with
      | None => panic
      | Some cfg =>
          match findByName (Config.Aliases cfg) (Alias.Name alias) with
          | Some _ =>
              ret (Some ("alias '" +:+ Alias.Name alias +:+ "' already exists"))
          | None =>
              modify (set_config
                (Some {| Config.Version := Config.Version cfg;
                         Config.Settings := Config.Settings cfg;
                         Config.Aliases := Config.Aliases cfg ++ [alias] |})
                (loaded w)) >>
              saveInternal
          end
      end
  end.

(** [func Load() error] and [func Save() error]: the internal functions
    under the mutex. *)
Definition Load : M (option string) := loadInternal.
Definition Save : M (option string) := saveInternal.

(** The loop of [RemoveAlias]: the aliases of another name are appended
    to [newAliases]; [found] records that the name was met. *)
Fixpoint removeLoop (aliases : list Alias.t) (name : string) (found : bool)
    (newAliases : list Alias.t) : bool * list Alias.t :=
  match aliases with
  | [] => (found, newAliases)
  | alias :: rest =>
      if String.eqb (Alias.Name alias) name
      then removeLoop rest name true newAliases
      else removeLoop rest name found (newAliases ++ [alias])
  end.

(** [config] with its [Aliases] field set to [aliases]. *)
Definition withAliases (cfg : Config.t) (aliases : list Alias.t) : Config.t :=
  {| Config.Version := Config.Version cfg;
     Config.Settings := Config.Settings cfg;
     Config.Aliases := aliases |}.

(** [func RemoveAlias(name string) error] *)
Definition RemoveAlias (name : string) : M (option string) :=
  do err <- ensureLoaded;
  match err with
  | Some e => ret (Some e)
  | None =>
      do w <- get;
      match globalConfig w with
      | None => panic
      | Some cfg =>
          let '(found, newAliases) := removeLoop (Config.Aliases cfg) name false [] in
          if negb found
          then ret (Some ("alias '" +:+ name +:+ "' not found"))
          else
            modify (set_config (Some (withAliases cfg newAliases)) (loaded w)) >>
            saveInternal
      end
  end.

(** The loop of [UpdateAlias]: the first alias of the name is overwritten
    in place, at its index [i], and the loop stops. *)
Fixpoint updateLoop (i : nat) (remaining aliases : list Alias.t)
    (alias : Alias.t) : bool * list Alias.t :=
  match remaining with
  | [] => (false, aliases)
  | a :: rest =>
      if String.eqb (Alias.Name a) (Alias.Name alias)
      then (true, <[i := alias]> aliases)
      else updateLoop (S i) rest aliases alias
  end.

(** [func UpdateAlias(alias Alias) error] *)
Definition UpdateAlias (alias : Alias.t) : M (option string) :=
  do err <- ensureLoaded;
  match err with
  | Some e => ret (Some e)
  | None =>
      do w <- get;
      match globalConfig w with
      | None => panic
      | Some cfg =>
          let '(found, aliases) :=
            updateLoop 0 (Config.Aliases cfg) (Config.Aliases cfg) alias in
          if negb found
          then ret (Some ("alias '" +:+ Alias.Name alias +:+ "' not found"))
          else
            modify (set_config (Some (withAliases cfg aliases)) (loaded w)) >>
            saveInternal
      end
  end.

(** [func GetAllAliases() ([]Alias, error)]: a copy of the stored list,
    or nil and the error. *)
Definition GetAllAliases : M (list Alias.t * option string) :=
  do err <- ensureLoaded;
  match err with
  | Some e => ret ([], Some e)
  | None =>
      do w <- get;
      match globalConfig w with
      | None => panic
      | Some cfg => ret (Config.Aliases cfg, None)
      end
  end.

End config.

(* ===================================================================== *)
(** * Package alias: alias.go *)
(* ===================================================================== *)

Module aliases.
Import os.

(** [func Find(name string) (Alias, bool)] *)
Definition Find (name : string) : M (Alias.t * bool) := config.FindAlias name.

(** [func GetAll() ([]Alias, error)] *)
Definition GetAll : M (list Alias.t * option string) := config.GetAllAliases.

(** [func Add(alias Alias) error] *)
Definition Add (alias : Alias.t) : M (option string) := config.AddAlias alias.

(** [func Remove(name string) error] *)
Definition Remove (name : string) : M (option string) := config.RemoveAlias name.

(** [func Update(alias Alias) error] *)
Definition Update (alias : Alias.t) : M (option string) := config.UpdateAlias alias.

(** The loop of [GetParamNames]: [names[i] = p.Name]. *)
Fixpoint setNames (i : nat) (params : list Param.t) (names : list string)
    : list string :=
  match params with
  | [] => names
  | p :: rest => setNames (S i) rest (<[i := Param.Name p]> names)
  end.

(** [func GetParamNames(a Alias) []string]; [make([]string, n)] is [n]
    empty strings. *)
Definition GetParamNames (a : Alias.t) : list string :=
  let names := replicate (length (Alias.Params a)) EmptyString in
  setNames 0 (Alias.Params a) names.

(** The loop of [GetRequiredParams]. *)
Fixpoint appendRequired (params required : list Param.t) : list Param.t :=
  match params with
  | [] => required
  | p :: rest =>
      appendRequired rest
        (if Param.Required p then required ++ [p] else required)
  end.

(** [func GetRequiredParams(a Alias) []Param] *)
Definition GetRequiredParams (a : Alias.t) : list Param.t :=
  appendRequired (Alias.Params a) [].

(** The loop of [GetOptionalParams]. *)
Fixpoint appendOptional (params optional : list Param.t) : list Param.t :=
  match params with
  | [] => optional
  | p :: rest =>
      appendOptional rest
        (if negb (Param.Required p) then optional ++ [p] else optional)
  end.

(** [func GetOptionalParams(a Alias) []Param] *)
Definition GetOptionalParams (a : Alias.t) : list Param.t :=
  appendOptional (Alias.Params a) [].

(** The loop of [BuildUsageString]. *)
Fixpoint appendUsage (params : list Param.t) (usage : string) : string :=
  match params with
  | [] => usage
  | p :: rest =>
      appendUsage rest
        (if Param.Required p
         then usage +:+ " <" +:+ Param.Name p +:+ ">"
         else usage +:+ " [" +:+ Param.Name p +:+ "]")
  end.

(** [func BuildUsageString(a Alias) string] *)
Definition BuildUsageString (a : Alias.t) : string :=
  appendUsage (Alias.Params a) (Alias.Name a).

End aliases.

(* ===================================================================== *)
(** * Package alias: the executor *)
(* ===================================================================== *)

Module executor.
Import os.

(** A Go [error] returned by package alias: a [*ParseError], or an
    error made by [fmt.Errorf]. *)
Inductive error : Type :=
| ErrParse (e : parser.ParseError)
| Errorf (msg : string).

(** [alias.ExecuteOptions] *)
Record ExecuteOptions : Type := mkOptions {
  Shell : string;
  Verbose : bool;
  DryRun : bool
}.

(** The zero value [ExecuteOptions{}]. *)
Definition zeroOptions : ExecuteOptions :=
  {| Shell := EmptyString; Verbose := false; DryRun := false |}.

(** [cfg.Settings], for a [cfg] that may be nil. *)
Definition deref (cfg : option Config.t) : M Config.t :=
  match cfg with
  | Some c => ret c
  | None => panic
  end.

(** [Execute], first block ("Determine which shell to use"):
    [shell := opts.Shell; if shell == "" { ... }] *)
Definition determineShell (optsShell : string) : M string :=
  if String.eqb optsShell EmptyString then
    do '(cfg, err) <- config.Get;
    match err with
    | None =>
        do c <- deref cfg;
        if negb (String.eqb (Settings.Shell (Config.Settings c)) EmptyString)
        then ret (Settings.Shell (Config.Settings c))
        else config.GetDefaultShell
    | Some _ => config.GetDefaultShell
    end
  else ret optsShell.

(** [Execute], second block ("Check verbose setting from config if not
    explicitly set"): [verbose := opts.Verbose; if !verbose { ... }] *)
Definition checkVerbose (optsVerbose : bool) : M bool :=
  if negb optsVerbose then
    do '(cfg, err) <- config.Get;
    match err with
    | None => do c <- deref cfg; ret (Settings.Verbose (Config.Settings c))
    | Some _ => ret optsVerbose
    end
  else ret optsVerbose.

(** [Execute], the rest: print when verbose, stop there in a dry run,
    otherwise create the child process, wait for it and read its exit
    code. *)
Definition launch (command : string) (dryRun : bool) (shell : string)
    (verbose : bool) : M (Z * option error) :=
  (if verbose
   then Printf ("$ " +:+ command +:+ String (ascii_of_nat 10) EmptyString)
   else ret tt) >>
  if dryRun then
    Printf ("[dry-run] Would execute: " +:+ command
            +:+ String (ascii_of_nat 10) EmptyString) >>
    ret (0%Z, None)
  else
    do w <- get;
    do err <-
      (if String.eqb (GOOS w) "windows"
       then cmdRun "cmd" ["/C"; command]
       else cmdRun shell ["-c"; command]);
    match err with
    | NoErr => ret (0%Z, None)
    | ExitError code => ret (code, None)
    | OtherError msg =>
        ret ((-1)%Z, Some (Errorf ("failed to execute command: " +:+ msg)))
    end.

(** [func Execute(command string, opts ExecuteOptions) (int, error)] *)
Definition Execute (command : string) (opts : ExecuteOptions)
    : M (Z * option error) :=
  do shell <- determineShell (Shell opts);
  do verbose <- checkVerbose (Verbose opts);
  launch command (DryRun opts) shell verbose.

(** [func Run(a Alias, args []string) (int, error)] *)
Definition Run (a : Alias.t) (args : list string) : M (Z * option error) :=
  match parser.ParseCommand a args with
  | (_, Some err) => ret ((-1)%Z, Some (ErrParse err))
  | (command, None) => Execute command zeroOptions
  end.

(** [func RunWithOptions(a Alias, args []string, opts ExecuteOptions) (int, error)] *)
Definition RunWithOptions (a : Alias.t) (args : list string)
    (opts : ExecuteOptions) : M (Z * option error) :=
  match parser.ParseCommand a args with
  | (_, Some err) => ret ((-1)%Z, Some (ErrParse err))
  | (command, None) => Execute command opts
  end.

End executor.


(* ===================================================================== *)
(** * The vocabulary of the specification *)
(* ===================================================================== *)

Module spec.
Import os.

(** [old] occurs in [s]: [s] is some text, then [old], then some text. *)
Definition occurs (old s : string) : Prop :=
  ∃ pre post, s = pre +:+ old +:+ post.

(** [r] is [s] with every instance of [old] replaced by [new], the
    instances being taken from left to right and not overlapping: where
    [old] begins it is replaced and the text after it is dealt with;
    elsewhere one character is kept. *)
Inductive Replaced (old new : string) : string → string → Prop :=
| Replaced_end : Replaced old new EmptyString EmptyString
| Replaced_hit (s rest r : string) :
    s = old +:+ rest → Replaced old new rest r →
    Replaced old new s (new +:+ r)
| Replaced_skip (c : ascii) (s r : string) :
    (∀ rest, String c s ≠ old +:+ rest) → Replaced old new s r →
    Replaced old new (String c s) (String c r).

(** [strings.Contains(s, old)], which decides [occurs]. *)
Fixpoint Contains (s old : string) : bool :=
  match GoStrings.CutPrefix old s with
  | Some _ => true
  | None =>
      match s with
      | EmptyString => false
      | String _ s' => Contains s' old
      end
  end.

(** The declared parameter names of an alias, in declaration order. *)
Definition paramNames (a : Alias.t) : list string :=
  Param.Name <$> Alias.Params a.

(** The required-parameter precondition: every parameter with
    [required = true] receives a positional argument. *)
Definition requiredMet (a : Alias.t) (args : list string) : Prop :=
  ∀ i p, Alias.Params a !! i = Some p → Param.Required p = true →
         i < length args.

(** The parameter at index [i] is required and receives no positional
    argument. *)
Definition unmet (a : Alias.t) (args : list string) (i : nat) (p : Param.t)
    : Prop :=
  Alias.Params a !! i = Some p ∧ Param.Required p = true ∧ length args ≤ i.

(** [MissingRequiredParameter(name)] *)
Definition MissingRequiredParameter (name : string) : parser.ParseError :=
  {| parser.Message := "missing required parameter: " +:+ name;
     parser.ParamName := name |}.

(** The first parameter from index [i] on that is required and has no
    positional argument. *)
Fixpoint firstUnmet (i : nat) (params : list Param.t) (args : list string)
    : option (nat * Param.t) :=
  match params with
  | [] => None
  | p :: rest =>
      if Param.Required p && bool_decide (length args ≤ i)
      then Some (i, p)
      else firstUnmet (S i) rest args
  end.

(** Positional binding: the [i]-th parameter is bound to the [i]-th
    argument, and to its default when there is no such argument. *)
Definition positionalValue (args : list string) (i : nat) (p : Param.t)
    : string :=
  match args !! i with
  | Some v => v
  | None => Param.Default p
  end.

(** Expansion as the specification words it: for each parameter in
    declaration order, every [{{name}}] of the template as it stands is
    replaced by the value bound to the parameter by position. *)
Fixpoint expandPositional (i : nat) (params : list Param.t)
    (args : list string) (template : string) : string :=
  match params with
  | [] => template
  | p :: rest =>
      expandPositional (S i) rest args
        (GoStrings.ReplaceAll template (parser.placeholder (Param.Name p))
           (positionalValue args i p))
  end.

(** One or more word characters. *)
Fixpoint wordChars (w : string) : Prop :=
  match w with
  | EmptyString => True
  | String c w' => parser.isWordChar c = true ∧ wordChars w'
  end.

(** [s] begins with a match of the pattern: [{{], the identifier [w],
    [}}]; [rest] is what follows the match. *)
Definition MatchAt (s w rest : string) : Prop :=
  w ≠ EmptyString ∧ wordChars w ∧ s = "{{" +:+ w +:+ "}}" +:+ rest.

(** The identifiers of the non-overlapping matches of the pattern in a
    text, found from left to right: where a match begins it is taken
    and the scan goes on after it; elsewhere one character is passed
    over. *)
Inductive Scan : string → list string → Prop :=
| Scan_end : Scan EmptyString []
| Scan_match (s w rest : string) (names : list string) :
    MatchAt s w rest → Scan rest names → Scan s (w :: names)
| Scan_skip (c : ascii) (s : string) (names : list string) :
    (∀ w rest, ¬ MatchAt (String c s) w rest) →
    Scan s names → Scan (String c s) names.

(** The invariant of package config's variables: once [loaded] is set,
    [globalConfig] is not nil. *)
Definition wf (w : World) : Prop :=
  loaded w = true → is_Some (globalConfig w).

(** [w'] differs from [w] in the configuration only: the variables of
    package config and the configuration file. *)
Definition configOnly (w w' : World) : Prop :=
  GOOS w' = GOOS w ∧ getenv w' = getenv w ∧ spawn w' = spawn w
  ∧ stdout w' = stdout w ∧ procs w' = procs w.

(** The command line [Execute] gives the child process. *)
Definition commandLine (w : World) (shell command : string)
    : string * list string :=
  if String.eqb (GOOS w) "windows" then ("cmd", ["/C"; command])
  else (shell, ["-c"; command]).

(** What [Execute] returns for an outcome of the child process. *)
Definition resultOf (o : ProcOutcome) : Z * option executor.error :=
  match o with
  | Exited status => (status, None)
  | Killed => ((-1)%Z, None)
  | NotStarted cause =>
      ((-1)%Z,
       Some (executor.Errorf ("failed to execute command: " +:+ cause)))
  end.

(** The outcome of the child process [Execute] creates when it starts
    it in [w]. *)
Definition outcomeOf (w : World) (shell command : string) : ProcOutcome :=
  spawn w (configFile w)
    (commandLine w shell command).1 (commandLine w shell command).2.

(** The text [fmt.Printf] writes in verbose mode. *)
Definition verboseLine (command : string) : string :=
  "$ " +:+ command +:+ String (ascii_of_nat 10) EmptyString.


(** The text [fmt.Printf] writes in dry-run mode. *)
Definition dryRunLine (command : string) : string :=
  "[dry-run] Would execute: " +:+ command +:+ String (ascii_of_nat 10) EmptyString.

(** [opts] with its [Verbose] field set to [b]. *)
Definition withVerbose (b : bool) (opts : executor.ExecuteOptions)
    : executor.ExecuteOptions :=
  {| executor.Shell := executor.Shell opts;
     executor.Verbose := b;
     executor.DryRun := executor.DryRun opts |}.

(** Some stored alias has the name [name]. *)
Definition nameTaken (cfg : Config.t) (name : string) : Prop :=
  ∃ b, b ∈ Config.Aliases cfg ∧ Alias.Name b = name.

End spec.

(* ===================================================================== *)
(** * Sample aliases and worlds *)
(* ===================================================================== *)

Module sample.

(** The double quote character. *)
Definition dq : string := String (ascii_of_nat 34) EmptyString.

(** The [gc] alias of the default configuration (scenarios A and D). *)
Definition message : Param.t :=
  {| Param.Name := "message"; Param.Description := "Commit message";
     Param.Required := true; Param.Default := EmptyString |}.
Definition gc : Alias.t :=
  {| Alias.Name := "gc";
     Alias.Command := "git commit -am " +:+ dq +:+ "{{message}}" +:+ dq;
     Alias.Description := "Git commit with message";
     Alias.Params := [message] |}.

(** The [gp] alias of the default configuration (scenarios B and C). *)
Definition branch : Param.t :=
  {| Param.Name := "branch"; Param.Description := "Branch name";
     Param.Required := false; Param.Default := "main" |}.
Definition gp : Alias.t :=
  {| Alias.Name := "gp"; Alias.Command := "git push origin {{branch}}";
     Alias.Description := "Push to remote branch";
     Alias.Params := [branch] |}.

(** An alias whose template names none of its parameters. *)
Definition gs : Alias.t :=
  {| Alias.Name := "gs"; Alias.Command := "git status";
     Alias.Description := "Show git status";
     Alias.Params := [branch] |}.

(** An alias that declares the name [x] twice. *)
Definition x_optional : Param.t :=
  {| Param.Name := "x"; Param.Description := "first";
     Param.Required := false; Param.Default := "d" |}.
Definition x_required : Param.t :=
  {| Param.Name := "x"; Param.Description := "second";
     Param.Required := true; Param.Default := EmptyString |}.
Definition dup : Alias.t :=
  {| Alias.Name := "dup"; Alias.Command := "echo {{x}}";
     Alias.Description := "One name, two parameters";
     Alias.Params := [x_optional; x_required] |}.

(** An alias that declares [x] twice, both times optional, and whose
    template shows a new [{{x}}] once the inner one is taken out. *)
Definition x_other : Param.t :=
  {| Param.Name := "x"; Param.Description := "second";
     Param.Required := false; Param.Default := "e" |}.
Definition nested : Alias.t :=
  {| Alias.Name := "nested"; Alias.Command := "{{{{x}}x}}";
     Alias.Description := "One name, two optional parameters";
     Alias.Params := [x_optional; x_other] |}.

(** A configuration holding [gc] and [gp]. *)
Definition cfg : Config.t :=
  {| Config.Version := 1;
     Config.Settings := {| Settings.Shell := "/bin/zsh"; Settings.Verbose := true |};
     Config.Aliases := [gc; gp] |}.

(** A Linux machine on which [/bin/sh] and [/bin/zsh] run every command
    to exit status 2 and no other shell can be started. *)
Definition shells (name : string) (args : list string) : os.ProcOutcome :=
  if String.eqb name "/bin/sh" || String.eqb name "/bin/zsh"
  then os.Exited 2
  else os.NotStarted "no such file or directory".

(** Before the configuration is loaded; the file does not exist. *)
Definition fresh : os.World :=
  {| os.globalConfig := None; os.loaded := false;
     os.GOOS := "linux"; os.getenv := λ _, EmptyString;
     os.mkdirAll := None; os.configFile := os.Missing;
     os.writeFile := os.Written;
     os.viperRead := λ _, None;
     os.viperUnmarshal := λ _, (cfg, None);
     os.yamlMarshal := λ _, inl "version: 1";
     os.spawn := λ _, shells;
     os.stdout := []; os.procs := [] |}.

(** After [cfg] has been loaded. *)
Definition ready : os.World := os.set_config (Some cfg) true fresh.



(** [ready] on a machine where a signal ends every child. *)
Definition signalled : os.World :=
  {| os.globalConfig := Some cfg; os.loaded := true;
     os.GOOS := "linux"; os.getenv := λ _, EmptyString;
     os.mkdirAll := None; os.configFile := os.Contents "version: 1";
     os.writeFile := os.Written;
     os.viperRead := λ _, None;
     os.viperUnmarshal := λ _, (cfg, None);
     os.yamlMarshal := λ _, inl "version: 1";
     os.spawn := λ _ _ _, os.Killed;
     os.stdout := []; os.procs := [] |}.

(** [fresh] on a disk that fills up: the file is made and the write
    fails after nine bytes. *)
Definition full : os.World :=
  {| os.globalConfig := None; os.loaded := false;
     os.GOOS := "linux"; os.getenv := λ _, EmptyString;
     os.mkdirAll := None; os.configFile := os.Missing;
     os.writeFile := os.WriteFailed "no space left on device" 9;
     os.viperRead := λ _, None;
     os.viperUnmarshal := λ _, (cfg, None);
     os.yamlMarshal := λ _, inl "version: 1";
     os.spawn := λ _, shells;
     os.stdout := []; os.procs := [] |}.

End sample.

(* ===================================================================== *)
(** * Further vocabulary *)
(* ===================================================================== *)

Module vocab.
Import os.

(** The configuration is loaded and the stored alias list is [aliases]. *)
Definition stored (w : World) (aliases : list Alias.t) : Prop :=
  loaded w = true
  ∧ ∃ cfg, globalConfig w = Some cfg ∧ Config.Aliases cfg = aliases.

(** The names of a list of aliases, in order. *)
Definition aliasNames (aliases : list Alias.t) : list string :=
  Alias.Name <$> aliases.

(** [sample.ready] on a disk that refuses every write. *)
Definition readonly : World :=
  {| globalConfig := globalConfig sample.ready; loaded := loaded sample.ready;
     GOOS := GOOS sample.ready; getenv := getenv sample.ready;
     mkdirAll := None; configFile := Contents "version: 0";
     writeFile := OpenFailed "read-only file system";
     viperRead := viperRead sample.ready;
     viperUnmarshal := viperUnmarshal sample.ready;
     yamlMarshal := yamlMarshal sample.ready;
     spawn := spawn sample.ready;
     stdout := []; procs := [] |}.

(** The first string of a list that is not empty, and the empty string
    when there is none. *)
Fixpoint firstNonEmpty (candidates : list string) : string :=
  match candidates with
  | [] => EmptyString
  | c :: rest => if String.eqb c EmptyString then firstNonEmpty rest else c
  end.

(** The code [runRootCmd] gives to [os.Exit] for an outcome of the
    child: the [exitCode] that [alias.Run] returned, or 1 after an
    error. *)
Definition exitOf (o : ProcOutcome) : Z :=
  match o with
  | Exited status => status
  | Killed => (-1)%Z
  | NotStarted _ => 1%Z
  end.

(** The exit status a Unix system reports for a process that ended with
    [os.Exit(code)]: the low eight bits of the code, so 255 for -1. *)
Definition exitStatus (code : Z) : Z := (code mod 256)%Z.


(** The world after some lines more were written to standard output. *)
Definition printLines (lines : list string) (w : World) : World :=
  foldl (λ w' line, add_stdout line w') w lines.

(** The zero value [Alias{}]. *)
Definition zeroAlias : Alias.t :=
  {| Alias.Name := EmptyString; Alias.Command := EmptyString;
     Alias.Description := EmptyString; Alias.Params := [] |}.

End vocab.

(* ===================================================================== *)
(** * The terminal: what package cmd prints, asks and exits with *)
(* ===================================================================== *)

Module tty.
Import os.

(** The colour attributes of [github.com/fatih/color] the commands use. *)
Inductive Attr : Type := FgRed | FgGreen | FgCyan | Bold | Faint.

(** The errors of a [promptui] prompt. *)
Inductive PromptError : Type :=
| ErrInterrupt                 (* the user pressed Ctrl+C *)
| ErrEOF                       (* the input ended *)
| ErrOther (msg : string).

(** A Go [error] in package cmd: made by [fmt.Errorf], or the error of a
    prompt. *)
Inductive error : Type :=
| ErrString (msg : string)
| ErrPrompt (e : PromptError).

Record Session : Type := mkSession {
  world : World;
  (** what was written to standard error, oldest first *)
  stderr : list string;
  (** the labels of the prompts shown, oldest first *)
  asked : list string;
  (** what the user answers to the selections and to the text prompts
      still to come *)
  selects : list (nat + PromptError);
  inputs : list (string + PromptError);
  (** the colour library: a text as written with given attributes *)
  render : list Attr → string → string;
  (** what cobra prints for [cmd.Help()] *)
  helpText : string
}.

Definition set_world (w : World) (s : Session) : Session :=
  mkSession w (stderr s) (asked s) (selects s) (inputs s) (render s) (helpText s).

(** A command returns, or ends the process with [os.Exit(code)], or
    panics. *)
Inductive Outcome (A : Type) : Type :=
| Return (a : A)
| Exit (code : Z)
| Crash.
Arguments Return {A} a.
Arguments Exit {A} code.
Arguments Crash {A}.

Definition C (A : Type) : Type := Session → Outcome A * Session.

Definition ret {A} (a : A) : C A := λ s, (Return a, s).

Definition bind {A B} (m : C A) (k : A → C B) : C B :=
  λ s, match m s with
       | (Return a, s') => k a s'
       | (Exit code, s') => (Exit code, s')
       | (Crash, s') => (Crash, s')
       end.

(** A computation of the packages below, run in the world of the
    session. *)
Definition lift {A} (m : M A) : C A :=
  λ s, match m (world s) with
       | (Ok a, w') => (Return a, set_world w' s)
       | (Panic, w') => (Crash, set_world w' s)
       end.

(** [os.Exit(code)] *)
Definition exit {A} (code : Z) : C A := λ s, (Exit code, s).

(** An index out of range. *)
Definition crash {A} : C A := λ s, (Crash, s).

Definition newline : string := String (ascii_of_nat 10) EmptyString.

(** [fmt.Print(text)], [fmt.Println(text)] and [fmt.Println()] *)
Definition Print (text : string) : C unit := lift (Printf text).
Definition Println (text : string) : C unit := lift (Printf (text +:+ newline)).

(** [color.New(attrs...).Printf] and [.Fprintf(os.Stderr, ...)], the
    text being formatted already. *)
Definition colorPrint (attrs : list Attr) (text : string) : C unit :=
  λ s, Print (render s attrs text) s.

Definition colorEprint (attrs : list Attr) (text : string) : C unit :=
  λ s, (Return tt,
        mkSession (world s) (stderr s ++ [render s attrs text]) (asked s)
          (selects s) (inputs s) (render s) (helpText s)).

(** [promptui.Select{Label: label, ...}.Run()]: the index chosen, or an
    error; when no answer is left the input has ended. *)
Definition selectRun (label : string) : C (nat + PromptError) :=
  λ s, match selects s with
       | [] =>
           (Return (inr ErrEOF),
            mkSession (world s) (stderr s) (asked s ++ [label]) [] (inputs s)
              (render s) (helpText s))
       | answer :: rest =>
           (Return answer,
            mkSession (world s) (stderr s) (asked s ++ [label]) rest (inputs s)
              (render s) (helpText s))
       end.

(** [promptui.Prompt{Label: label, ...}.Run()] *)
Definition promptRun (label : string) : C (string + PromptError) :=
  λ s, match inputs s with
       | [] =>
           (Return (inr ErrEOF),
            mkSession (world s) (stderr s) (asked s ++ [label]) (selects s) []
              (render s) (helpText s))
       | answer :: rest =>
           (Return answer,
            mkSession (world s) (stderr s) (asked s ++ [label]) (selects s) rest
              (render s) (helpText s))
       end.

(** [err.Error()] *)
Definition promptErrorString (e : PromptError) : string :=
  match e with
  | ErrInterrupt => "^C"
  | ErrEOF => "^D"
  | ErrOther msg => msg
  end.

Definition errorString (e : error) : string :=
  match e with
  | ErrString msg => msg
  | ErrPrompt e => promptErrorString e
  end.

(** [utf8.RuneCountInString] on well-formed UTF-8: the bytes that do not
    continue a character. *)
Fixpoint runeCount (s : string) : nat :=
  match s with
  | EmptyString => 0
  | String c s' =>
      let n := nat_of_ascii c in
      (if (128 <=? n) && (n <? 192) then 0 else 1) + runeCount s'
  end.

Fixpoint spaces (n : nat) : string :=
  match n with
  | O => EmptyString
  | S n' => String (ascii_of_nat 32) (spaces n')
  end.

(** The verb [%-12s]: the text, then spaces up to twelve characters. *)
Definition padRight12 (s : string) : string :=
  s +:+ spaces (12 - runeCount s).

(** [strings.Join(elems, sep)] *)
Fixpoint Join (elems : list string) (sep : string) : string :=
  match elems with
  | [] => EmptyString
  | [e] => e
  | e :: rest => e +:+ sep +:+ Join rest sep
  end.

(** The verb [%v] on a slice of strings. *)
Definition formatSlice (elems : list string) : string :=
  "[" +:+ Join elems " " +:+ "]".

(** The verb [%d] on a length or a counter. *)
Definition formatInt (n : nat) : string := pretty n.

End tty.

(** Notations for [tty.bind]: [exec x <- m; k], [exec '(x, y) <- m; k]
    and [m >>> k]. *)
Notation "'exec' x <- m ; k" := (tty.bind m (λ x, k))
  (at level 10, x name, m at level 100, k at level 200, only parsing).
Notation "'exec' ' p <- m ; k" := (tty.bind m (λ x, match x with p => k end))
  (at level 10, p pattern, m at level 100, k at level 200, only parsing).
Notation "m >>> k" := (tty.bind m (λ _, k))
  (at level 100, k at level 200, right associativity, only parsing).

(* ===================================================================== *)
(** * Package cmd *)
(* ===================================================================== *)

Module cmd.
Import os tty.

(** [func printError(message string)] *)
Definition printError (message : string) : C unit :=
  colorEprint [FgRed; Bold] ("Error: " +:+ message +:+ newline).

(** The line [printAliasUsage] prints for a parameter. *)
Definition paramLine (p : Param.t) : string :=
  let requiredStr :=
    if Param.Required p then " (required)"
    else if negb (String.eqb (Param.Default p) EmptyString)
         then " (default: " +:+ Param.Default p +:+ ")"
         else EmptyString in
  "  " +:+ padRight12 (Param.Name p) +:+ " " +:+ Param.Description p
       +:+ requiredStr +:+ newline.

Fixpoint printParamLines (params : list Param.t) : C unit :=
  match params with
  | [] => ret tt
  | p :: rest => Print (paramLine p) >>> printParamLines rest
  end.

(** [func printAliasUsage(a alias.Alias)] *)
Definition printAliasUsage (a : Alias.t) : C unit :=
  Print ("Usage: al " +:+ aliases.BuildUsageString a +:+ newline) >>>
  (if negb (String.eqb (Alias.Description a) EmptyString)
   then Print ("       " +:+ Alias.Description a +:+ newline)
   else ret tt) >>>
  if 0 <? length (Alias.Params a) then
    Println EmptyString >>>
    Println "Parameters:" >>>
    printParamLines (Alias.Params a)
  else ret tt.

(** [err.Error()] for an error of package alias. *)
Definition aliasErrorString (e : executor.error) : string :=
  match e with
  | executor.ErrParse pe => parser.Message pe
  | executor.Errorf msg => msg
  end.

(** [func runRootCmd(cmd *cobra.Command, args []string)] *)
Definition runRootCmd (args : list string) : C unit :=
  match args with
  | [] => (λ s, Print (helpText s) s) >>> ret tt
  | aliasName :: params =>
      exec '(a, found) <- lift (aliases.Find aliasName);
      (if negb found then
         printError ("Alias '" +:+ aliasName +:+ "' not found") >>>
         Println EmptyString >>>
         Println "Run 'al list' to see available aliases" >>>
         Println "Run 'al add' to create a new alias" >>>
         exit 1
       else ret tt) >>>
      exec '(exitCode, err) <- lift (executor.Run a params);
      match err with
      | Some e =>
          printError (aliasErrorString e) >>>
          (match e with
           | executor.ErrParse _ => Println EmptyString >>> printAliasUsage a
           | executor.Errorf _ => ret tt
           end) >>>
          exit 1
      | None => exit exitCode
      end
  end.

(** [func handlePromptError(err error)] *)
Definition handlePromptError (err : PromptError) : C unit :=
  match err with
  | ErrInterrupt => Println (newline +:+ "Cancelled.")
  | ErrEOF => Println (newline +:+ "Cancelled.")
  | ErrOther _ =>
      printError ("Prompt failed: " +:+ promptErrorString err) >>> exit 1
  end.

(** [func confirmDelete(aliasName string) (bool, error)] *)
Definition confirmDelete (aliasName : string) : C (bool * option PromptError) :=
  exec answer <- selectRun ("Are you sure you want to remove '" +:+ aliasName +:+ "'?");
  match answer with
  | inr err => ret (false, Some err)
  | inl idx => ret (idx =? 1, None)
  end.

(** [func runRemoveCmd(cmd *cobra.Command, args []string)] *)
Definition runRemoveCmd (args : list string) : C unit :=
  match args with
  | [] => crash
  | aliasName :: _ =>
      exec '(a, exists_) <- lift (aliases.Find aliasName);
      (if negb exists_ then
         printError ("Alias '" +:+ aliasName +:+ "' not found") >>>
         Println EmptyString >>>
         Println "Run 'al list' to see all available aliases" >>>
         exit 1
       else ret tt) >>>
      Print ("Alias: " +:+ Alias.Name a +:+ newline) >>>
      Print ("Command: " +:+ Alias.Command a +:+ newline) >>>
      (if negb (String.eqb (Alias.Description a) EmptyString)
       then Print ("Description: " +:+ Alias.Description a +:+ newline)
       else ret tt) >>>
      Println EmptyString >>>
      exec '(confirmed, err) <- confirmDelete aliasName;
      match err with
      | Some e => handlePromptError e
      | None =>
          if negb confirmed then Println "Cancelled. Alias was not removed."
          else
            exec rerr <- lift (aliases.Remove aliasName);
            match rerr with
            | Some e =>
                printError ("Failed to remove alias: " +:+ e) >>> exit 1
            | None =>
                colorPrint [FgGreen; Bold]
                  ("Alias '" +:+ aliasName +:+ "' removed successfully!" +:+ newline)
            end
      end
  end.

(** [mergeConfig], first loop: [existing[a.Name] = true]. *)
Fixpoint markExisting (currentAliases : list Alias.t)
    (existing : gmap string bool) : gmap string bool :=
  match currentAliases with
  | [] => existing
  | a :: rest => markExisting rest (<[Alias.Name a := true]> existing)
  end.

(** [mergeConfig], second loop: the aliases to add are counted, the
    names that exist already are collected. *)
Fixpoint countNew (imported : list Alias.t) (existing : gmap string bool)
    (newCount : nat) (duplicates : list string) : nat * list string :=
  match imported with
  | [] => (newCount, duplicates)
  | a :: rest =>
      if parser.isDefined existing (Alias.Name a)
      then countNew rest existing newCount (duplicates ++ [Alias.Name a])
      else countNew rest existing (S newCount) duplicates
  end.

(** [mergeConfig], third loop: every alias whose name did not exist is
    given to [config.AddAlias]; a failure is a warning. *)
Fixpoint addNew (imported : list Alias.t) (existing : gmap string bool)
    (added : nat) : C nat :=
  match imported with
  | [] => ret added
  | a :: rest =>
      if negb (parser.isDefined existing (Alias.Name a)) then
        exec err <- lift (config.AddAlias a);
        match err with
        | Some e =>
            Print ("Warning: Failed to add '" +:+ Alias.Name a +:+ "': " +:+ e
                   +:+ newline) >>>
            addNew rest existing added
        | None => addNew rest existing (S added)
        end
      else addNew rest existing added
  end.

(** [func mergeConfig(newConfig *config.Config) error] *)
Definition mergeConfig (newConfig : Config.t) : C (option error) :=
  exec '(currentAliases, err) <- lift config.GetAllAliases;
  match err with
  | Some e => ret (Some (ErrString ("failed to load current config: " +:+ e)))
  | None =>
      let existing := markExisting currentAliases ∅ in
      let '(newCount, duplicates) :=
        countNew (Config.Aliases newConfig) existing 0 [] in
      Print ("New aliases to add: " +:+ formatInt newCount +:+ newline) >>>
      (if 0 <? length duplicates
       then Print ("Already exist (will skip): " +:+ formatSlice duplicates
                   +:+ newline)
       else ret tt) >>>
      Println EmptyString >>>
      if newCount =? 0 then
        Println "No new aliases to import. All aliases already exist." >>>
        ret None
      else
        exec answer <- selectRun ("Add " +:+ formatInt newCount +:+ " new alias(es)?");
        match answer with
        | inr ErrInterrupt => Println "Cancelled." >>> ret None
        | inr e => ret (Some (ErrPrompt e))
        | inl confirmIdx =>
            if confirmIdx =? 0 then Println "Cancelled." >>> ret None
            else
              exec added <- addNew (Config.Aliases newConfig) existing 0;
              colorPrint [FgGreen; Bold]
                ("Added " +:+ formatInt added +:+ " new alias(es)!" +:+ newline) >>>
              ret None
        end
  end.

(** [func promptParamDetails(name string) (config.Param, error)] *)
Definition promptParamDetails (name : string)
    : C (Param.t * option PromptError) :=
  let zero := Param.mk EmptyString EmptyString false EmptyString in
  exec description <- promptRun "Description";
  match description with
  | inr err => ret (zero, Some err)
  | inl description =>
      exec requiredIdx <- selectRun "Is this parameter required?";
      match requiredIdx with
      | inr err => ret (zero, Some err)
      | inl requiredIdx =>
          let required := requiredIdx =? 0 in
          if negb required then
            exec defaultVal <- promptRun "Default value (leave empty for none)";
            match defaultVal with
            | inr err => ret (zero, Some err)
            | inl defaultVal =>
                ret (Param.mk name description required defaultVal, None)
            end
          else ret (Param.mk name description required EmptyString, None)
      end
  end.

(** The loop of [promptParams]. *)
Fixpoint promptEach (placeholders : list string) (params : list Param.t)
    : C (list Param.t * option PromptError) :=
  match placeholders with
  | [] => ret (params, None)
  | name :: rest =>
      Print (newline +:+ "Parameter: {{" +:+ name +:+ "}}" +:+ newline) >>>
      exec '(param, err) <- promptParamDetails name;
      match err with
      | Some e => ret ([], Some e)
      | None => promptEach rest (params ++ [param])
      end
  end.

(** [func promptParams(command string) ([]config.Param, error)] *)
Definition promptParams (command : string)
    : C (list Param.t * option PromptError) :=
  let placeholders := parser.ExtractPlaceholders command in
  if length placeholders =? 0 then ret ([], None)
  else
    Println EmptyString >>>
    Print ("Found " +:+ formatInt (length placeholders)
           +:+ " parameter(s) in your command:" +:+ newline) >>>
    promptEach placeholders [].

End cmd.

Module frame.
Import os.

(** [s'] is [s] after some lines were written to standard output and
    nothing else happened. *)
Definition onlyPrints (s s' : tty.Session) (lines : list string) : Prop :=
  s' = tty.set_world (vocab.printLines lines (tty.world s)) s.

End frame.

(* ===================================================================== *)
(** * Byte strings *)
(* ===================================================================== *)

Section Strings.
Import GoStrings spec.

Lemma append_cons (c : ascii) (s t : string) :
  String c s +:+ t = String c (s +:+ t).
Proof. reflexivity. Qed.

Lemma append_nil_l (s : string) : EmptyString +:+ s = s.
Proof. reflexivity. Qed.

Lemma append_nil_r (s : string) : s +:+ EmptyString = s.
Proof.
  induction s as [|c s IH]; [done |]. by rewrite append_cons, IH.
Qed.

Lemma append_assoc (s1 s2 s3 : string) :
  (s1 +:+ s2) +:+ s3 = s1 +:+ (s2 +:+ s3).
Proof.
  induction s1 as [|c s1 IH]; [done |]. by rewrite !append_cons, IH.
Qed.

Lemma length_append (s1 s2 : string) :
  String.length (s1 +:+ s2) = String.length s1 + String.length s2.
Proof.
  induction s1 as [|c s1 IH]; [done |]. rewrite append_cons. simpl. by rewrite IH.
Qed.

Lemma append_inv_head (s t1 t2 : string) : s +:+ t1 = s +:+ t2 → t1 = t2.
Proof.
  induction s as [|c s IH]; [done |]. rewrite !append_cons. intros [= H]. auto.
Qed.

(** [CutPrefix] finds the prefix exactly when it is there. *)
Lemma CutPrefix_Some (prefix s rest : string) :
  CutPrefix prefix s = Some rest ↔ s = prefix +:+ rest.
Proof.
  revert s. induction prefix as [|p prefix IH]; intros s; simpl.
  - rewrite append_nil_l. split; [by intros [= ->] | by intros ->].
  - rewrite append_cons.
    destruct s as [|c s]; [split; [done | discriminate] |].
    case_decide as Hpc.
    + subst c. rewrite IH. split; [by intros -> | by intros [= ->]].
    + split; [done | intros [= -> _]; done].
Qed.

Lemma CutPrefix_length (prefix s rest : string) :
  CutPrefix prefix s = Some rest →
  String.length s = String.length prefix + String.length rest.
Proof. intros ->%CutPrefix_Some. apply length_append. Qed.

Lemma occurs_tail (old s : string) (c : ascii) :
  occurs old s → occurs old (String c s).
Proof. intros (pre & post & ->). by exists (String c pre), post. Qed.

(** Without an instance of [old] in [s] there is nothing to replace. *)
Lemma replaceLoop_absent (fuel : nat) (s old new : string) :
  ¬ occurs old s → replaceLoop fuel s old new = s.
Proof.
  revert s. induction fuel as [|fuel IH]; intros s Hno; simpl; [done |].
  destruct (CutPrefix old s) as [rest|] eqn:Hcut.
  - exfalso. apply Hno. apply CutPrefix_Some in Hcut.
    by exists EmptyString, rest.
  - destruct s as [|c s]; [done |]. f_equal. apply IH.
    intros Hocc. apply Hno. by apply occurs_tail.
Qed.

Lemma Contains_occurs (s old : string) :
  Contains s old = true ↔ occurs old s.
Proof.
  induction s as [|c s IH]; simpl.
  - destruct (CutPrefix old EmptyString) as [rest|] eqn:Hcut.
    + split; [intros _ | done]. apply CutPrefix_Some in Hcut.
      by exists EmptyString, rest.
    + split; [done |]. intros (pre & post & Heq).
      destruct pre; [| done]. rewrite append_nil_l in Heq.
      apply CutPrefix_Some in Heq. congruence.
  - destruct (CutPrefix old (String c s)) as [rest|] eqn:Hcut.
    + split; [intros _ | done]. apply CutPrefix_Some in Hcut.
      by exists EmptyString, rest.
    + rewrite IH. split; [apply occurs_tail |].
      intros (pre & post & Heq). destruct pre as [|c' pre].
      * rewrite append_nil_l in Heq.
        apply CutPrefix_Some in Heq. congruence.
      * rewrite append_cons in Heq. injection Heq as _ ->.
        by exists pre, post.
Qed.

Lemma ReplaceAll_absent (s old new : string) :
  old ≠ EmptyString → ¬ occurs old s → ReplaceAll s old new = s.
Proof.
  intros Hne Hno. unfold ReplaceAll. destruct old; [done |].
  by apply replaceLoop_absent.
Qed.

(** With a non-empty [old] and enough fuel, the loop replaces every
    instance. *)
Lemma Replaced_replaceLoop (old new s r : string) :
  old ≠ EmptyString →
  Replaced old new s r →
  ∀ fuel, String.length s ≤ fuel → replaceLoop fuel s old new = r.
Proof.
  intros Hne. induction 1 as [|s rest r Hs _ IH|c s r Hno _ IH];
    intros fuel Hfuel.
  - destruct fuel; [done |]. simpl.
    destruct (CutPrefix old EmptyString) as [rest|] eqn:Hcut; [| done].
    apply CutPrefix_Some in Hcut. by destruct old.
  - assert (String.length rest < String.length s) as Hlt.
    { subst s. rewrite length_append. destruct old; [done |]. simpl. lia. }
    destruct fuel as [|fuel]; [lia |]. simpl.
    apply CutPrefix_Some in Hs as ->. rewrite IH by lia. done.
  - destruct fuel as [|fuel]; [simpl in Hfuel; lia |]. simpl.
    destruct (CutPrefix old (String c s)) as [rest|] eqn:Hcut.
    + apply CutPrefix_Some in Hcut. by destruct (Hno rest).
    + rewrite IH; [done |]. simpl in Hfuel. lia.
Qed.

Lemma replaceLoop_Replaced (old new : string) (fuel : nat) (s : string) :
  old ≠ EmptyString →
  String.length s ≤ fuel → Replaced old new s (replaceLoop fuel s old new).
Proof.
  intros Hne. revert s. induction fuel as [|fuel IH]; intros s Hfuel.
  - destruct s; [apply Replaced_end | simpl in Hfuel; lia].
  - simpl. destruct (CutPrefix old s) as [rest|] eqn:Hcut.
    + apply CutPrefix_Some in Hcut.
      apply Replaced_hit with rest; [done |]. apply IH.
      subst s. rewrite length_append in Hfuel.
      destruct old; [done |]. simpl in Hfuel. lia.
    + destruct s as [|c s]; [apply Replaced_end |].
      apply Replaced_skip.
      * intros rest Heq. apply CutPrefix_Some in Heq. congruence.
      * apply IH. simpl in Hfuel. lia.
Qed.

(** [ReplaceAll] replaces every instance of a non-empty [old]. *)
Lemma ReplaceAll_Replaced (s old new r : string) :
  old ≠ EmptyString →
  Replaced old new s r ↔ ReplaceAll s old new = r.
Proof.
  intros Hne. unfold ReplaceAll. destruct old as [|c old'] eqn:Hold; [done |].
  rewrite <- Hold in *. clear Hold. split.
  - intros Hrep. by apply (Replaced_replaceLoop _ _ _ _ Hne Hrep).
  - intros <-. by apply replaceLoop_Replaced.
Qed.

End Strings.

(* ===================================================================== *)
(** * Parameter binding *)
(* ===================================================================== *)

Section Binding.
Import parser spec.

Implicit Types (params : list Param.t) (args : list string)
  (provided : gmap string string) (i j : nat).

Lemma placeholder_nonempty (name : string) : placeholder name ≠ EmptyString.
Proof. unfold placeholder. rewrite append_cons. discriminate. Qed.

(** A name no parameter with an argument carries keeps its entry. *)
Lemma bindArgs_lookup_other params args i provided (k : string) :
  (∀ j q, params !! j = Some q → is_Some (args !! (i + j)) →
          Param.Name q ≠ k) →
  bindArgs i params args provided !! k = provided !! k.
Proof.
  revert i provided.
  induction params as [|p rest IH]; intros i provided Hother; simpl; [done |].
  rewrite IH.
  - destruct (args !! i) as [v|] eqn:Hv; [| done].
    apply lookup_insert_ne. apply (Hother 0 p); [done |].
    rewrite Nat.add_0_r, Hv. eauto.
  - intros j q Hq Hj. apply (Hother (S j) q); [done |].
    by rewrite Nat.add_succ_r.
Qed.

(** The entry of a name is the argument of the last parameter that
    carries the name and has an argument. *)
Lemma bindArgs_lookup_last params args i provided j (p : Param.t) (v : string) :
  params !! j = Some p →
  args !! (i + j) = Some v →
  (∀ j' q, j < j' → params !! j' = Some q → is_Some (args !! (i + j')) →
           Param.Name q ≠ Param.Name p) →
  bindArgs i params args provided !! Param.Name p = Some v.
Proof.
  revert i j provided.
  induction params as [|p0 rest IH]; intros i j provided Hp Hv Hlater;
    [done |].
  destruct j as [|j]; simpl in *.
  - injection Hp as ->. rewrite Nat.add_0_r in Hv. rewrite Hv.
    rewrite bindArgs_lookup_other; [apply lookup_insert_eq |].
    intros j q Hq Hj. apply (Hlater (S j) q); [lia | done |].
    by rewrite Nat.add_succ_r.
  - apply (IH (S i) j); [done | by rewrite Nat.add_succ_r in Hv |].
    intros j' q Hlt Hq Hj'. apply (Hlater (S j') q); [lia | done |].
    by rewrite Nat.add_succ_r.
Qed.

(** Binding never removes an entry. *)
Lemma bindArgs_keeps params args i provided (k : string) :
  is_Some (provided !! k) →
  is_Some (bindArgs i params args provided !! k).
Proof.
  revert i provided.
  induction params as [|p rest IH]; intros i provided Hk; simpl; [done |].
  apply IH. destruct (args !! i) as [v|]; [| done].
  destruct (decide (Param.Name p = k)) as [->|Hne].
  - rewrite lookup_insert_eq. eauto.
  - by rewrite lookup_insert_ne.
Qed.

(** A parameter with a positional argument has an entry. *)
Lemma bindArgs_has params args i provided j (p : Param.t) :
  params !! j = Some p → is_Some (args !! (i + j)) →
  is_Some (bindArgs i params args provided !! Param.Name p).
Proof.
  revert i j provided.
  induction params as [|p0 rest IH]; intros i j provided Hp Hj; [done |].
  destruct j as [|j]; simpl in *.
  - injection Hp as ->. rewrite Nat.add_0_r in Hj.
    destruct Hj as [v Hv]. rewrite Hv. apply bindArgs_keeps.
    rewrite lookup_insert_eq. eauto.
  - apply (IH (S i) j); [done | by rewrite Nat.add_succ_r in Hj].
Qed.

(** Only the arguments that face a parameter are looked at. *)
Lemma bindArgs_take params args i provided :
  bindArgs i params (take (i + length params) args) provided
  = bindArgs i params args provided.
Proof.
  revert i provided.
  induction params as [|p rest IH]; intros i provided; simpl; [done |].
  rewrite lookup_take_lt by lia.
  replace (i + S (length rest)) with (S i + length rest) by lia.
  apply IH.
Qed.

Lemma checkRequired_None params provided :
  (∀ q, q ∈ params → Param.Required q = true →
        is_Some (provided !! Param.Name q)) →
  checkRequired params provided = None.
Proof.
  induction params as [|p rest IH]; intros Hkeys; simpl; [done |].
  destruct (Param.Required p) eqn:Hreq; simpl.
  - unfold hasKey. destruct (Hkeys p) as [v ->]; [left | done |]. simpl.
    apply IH. intros q Hq. apply Hkeys. by right.
  - apply IH. intros q Hq. apply Hkeys. by right.
Qed.

(** What [firstUnmet] finds is unmet, and nothing before it is. *)
Lemma firstUnmet_Some params args i k (p : Param.t) :
  firstUnmet i params args = Some (k, p) →
  ∃ j, k = i + j ∧ params !! j = Some p ∧ Param.Required p = true
       ∧ length args ≤ k
       ∧ ∀ j' q, j' < j → params !! j' = Some q → Param.Required q = true →
                 i + j' < length args.
Proof.
  revert i.
  induction params as [|p0 rest IH]; intros i; simpl; [done |].
  destruct (Param.Required p0 && bool_decide (length args ≤ i)) eqn:Hc.
  - intros [= <- <-]. apply andb_true_iff in Hc as [Hreq Hle].
    apply bool_decide_eq_true in Hle.
    exists 0. rewrite Nat.add_0_r. repeat split; try done. intros; lia.
  - intros Hf. destruct (IH _ Hf) as (j & -> & Hj & Hreq & Hle & Hbefore).
    exists (S j). rewrite Nat.add_succ_r. repeat split; try done.
    intros [|j'] q Hlt Hq Hr; simpl in Hq.
    + injection Hq as ->. rewrite Hr in Hc. simpl in Hc.
      apply bool_decide_eq_false in Hc. lia.
    + rewrite Nat.add_succ_r. apply (Hbefore j' q); [lia | done | done].
Qed.

Lemma firstUnmet_None params args i :
  firstUnmet i params args = None →
  ∀ j q, params !! j = Some q → Param.Required q = true →
         i + j < length args.
Proof.
  revert i.
  induction params as [|p0 rest IH]; intros i; simpl; [done |].
  destruct (Param.Required p0 && bool_decide (length args ≤ i)) eqn:Hc;
    [done |].
  intros Hf [|j] q Hq Hr; simpl in Hq.
  - injection Hq as ->. rewrite Hr in Hc. simpl in Hc.
    apply bool_decide_eq_false in Hc. lia.
  - rewrite Nat.add_succ_r. by apply (IH (S i) Hf j q).
Qed.

End Binding.

(* ===================================================================== *)
(** * ParseCommand *)
(* ===================================================================== *)

Section ParseCommand.
Import parser spec.

Implicit Types (a : Alias.t) (args : list string) (i j : nat).

(** A parameter with a positional argument has an entry. *)
Lemma hasKey_bound a args j (q : Param.t) :
  Alias.Params a !! j = Some q → j < length args →
  hasKey (bindArgs 0 (Alias.Params a) args ∅) (Param.Name q) = true.
Proof.
  intros Hq Hlt. unfold hasKey.
  destruct (bindArgs_has (Alias.Params a) args 0 ∅ j q Hq) as [v ->];
    [| done].
  by apply lookup_lt_is_Some_2.
Qed.

(** A name that no parameter with a positional argument carries has no
    entry. *)
Lemma lookup_unbound a args (name : string) :
  (∀ j q, j < length args → Alias.Params a !! j = Some q →
          Param.Name q ≠ name) →
  bindArgs 0 (Alias.Params a) args ∅ !! name = None.
Proof.
  intros Hfree. rewrite bindArgs_lookup_other; [by rewrite lookup_empty |].
  intros j q Hq Hj. simpl in Hj. apply lookup_lt_is_Some_1 in Hj.
  by apply (Hfree j q).
Qed.

(** The second loop stops at a required parameter without an entry
    when the required parameters before it have one. *)
Lemma checkRequired_first (params : list Param.t)
    (provided : gmap string string) i (p : Param.t) :
  params !! i = Some p → Param.Required p = true →
  hasKey provided (Param.Name p) = false →
  (∀ j q, j < i → params !! j = Some q → Param.Required q = true →
          hasKey provided (Param.Name q) = true) →
  checkRequired params provided
  = Some (MissingRequiredParameter (Param.Name p)).
Proof.
  revert i.
  induction params as [|p0 rest IH]; intros i Hp Hreq Hno Hbefore; [done |].
  destruct i as [|i]; simpl in *.
  - injection Hp as ->. by rewrite Hreq, Hno.
  - destruct (Param.Required p0) eqn:Hreq0; simpl.
    + rewrite (Hbefore 0 p0); [| lia | done | done]. simpl.
      apply (IH i); try done.
      intros j q Hlt Hq. apply (Hbefore (S j) q); [lia | done].
    + apply (IH i); try done.
      intros j q Hlt Hq. apply (Hbefore (S j) q); [lia | done].
Qed.

(** The parameter the second loop reports has no entry. *)
Lemma checkRequired_Some (params : list Param.t)
    (provided : gmap string string) (e : ParseError) :
  checkRequired params provided = Some e →
  hasKey provided (ParamName e) = false.
Proof.
  induction params as [|p rest IH]; simpl; [done |].
  destruct (Param.Required p && negb (hasKey provided (Param.Name p))) eqn:Hc;
    [| done].
  intros [= <-]. simpl. apply andb_true_iff in Hc as [_ Hc].
  by apply negb_true_iff in Hc.
Qed.

(** The value bound to a parameter is the positional one when no other
    parameter that has a positional argument carries its name. *)
Lemma boundValue_positional a args j (q : Param.t) :
  Alias.Params a !! j = Some q →
  (∀ k r, k < length args → k ≠ j → Alias.Params a !! k = Some r →
          Param.Name r ≠ Param.Name q) →
  boundValue (bindArgs 0 (Alias.Params a) args ∅) q
  = positionalValue args j q.
Proof.
  intros Hq Hother. unfold boundValue, positionalValue.
  destruct (args !! j) as [v|] eqn:Hv.
  - rewrite (bindArgs_lookup_last _ args 0 ∅ j q v Hq Hv); [done |].
    intros j' q' Hlt Hq' Hj'. simpl in Hj'.
    apply lookup_lt_is_Some_1 in Hj'. apply (Hother j' q'); [done | lia | done].
  - rewrite lookup_unbound; [done |].
    intros j' q' Hlt Hq'. apply lookup_ge_None_1 in Hv.
    apply (Hother j' q'); [done | lia | done].
Qed.

(** The third loop is the positional expansion when every parameter is
    bound to its positional value. *)
Lemma substitute_positional (params : list Param.t) args i
    (provided : gmap string string) (command : string) :
  (∀ j q, params !! j = Some q →
          boundValue provided q = positionalValue args (i + j) q) →
  substitute params provided command = expandPositional i params args command.
Proof.
  revert i command.
  induction params as [|p rest IH]; intros i command Hval; simpl; [done |].
  rewrite (Hval 0 p eq_refl), Nat.add_0_r. apply IH.
  intros j q Hq. rewrite (Hval (S j) q Hq). by rewrite Nat.add_succ_r.
Qed.

(** The third loop leaves alone a command none of its placeholders
    occurs in. *)
Lemma substitute_absent (params : list Param.t)
    (provided : gmap string string) (command : string) :
  (∀ p, p ∈ params → ¬ occurs (placeholder (Param.Name p)) command) →
  substitute params provided command = command.
Proof.
  induction params as [|p rest IH]; intros Hno; cbn [substitute]; [done |].
  rewrite ReplaceAll_absent.
  - apply IH. intros q Hq. apply Hno. by right.
  - apply placeholder_nonempty.
  - apply Hno. by left.
Qed.

(** When every required parameter has a positional argument, the check
    of the second loop passes. *)
Lemma requiredMet_check a args :
  requiredMet a args →
  checkRequired (Alias.Params a) (bindArgs 0 (Alias.Params a) args ∅) = None.
Proof.
  intros Hmet. apply checkRequired_None. intros q Hq Hreq.
  apply list_elem_of_lookup in Hq as [j Hj].
  apply (bindArgs_has _ args 0 ∅ j q Hj). simpl.
  apply lookup_lt_is_Some_2. by apply (Hmet j q).
Qed.

End ParseCommand.

(* ===================================================================== *)
(** * Binding and expansion: the specification's statements *)
(* ===================================================================== *)

Section ParseCommandClaims.
Import parser spec.

Implicit Types (a : Alias.t) (args : list string) (i j : nat).

(** C1, as the claim words it, fails: the alias [dup] declares [x]
    twice; with arguments [a] and [b] the value bound to its first
    parameter is [b], the argument of the second, and not [a]. *)
Lemma C1_shared_name_counterexample :
  Alias.Params sample.dup !! 0 = Some sample.x_optional
  ∧ ["a"; "b"] !! 0 = Some "a"
  ∧ boundValue (bindArgs 0 (Alias.Params sample.dup) ["a"; "b"] ∅)
      sample.x_optional ≠ "a".
Proof. repeat split. vm_compute. discriminate. Qed.

(** C1 (amended): binding is positional through the parameter's name.
    For every alias and argument list and every index [i < len(args)],
    the value bound to the [i]-th declared parameter is [args[i]],
    provided no later declared parameter that also receives an argument
    carries the same name. *)
Theorem C1_positional_binding a args i (p : Param.t) (v : string) :
  Alias.Params a !! i = Some p →
  args !! i = Some v →
  (∀ j q, i < j → j < length args → Alias.Params a !! j = Some q →
          Param.Name q ≠ Param.Name p) →
  boundValue (bindArgs 0 (Alias.Params a) args ∅) p = v.
Proof.
  intros Hp Hv Hlater. unfold boundValue.
  rewrite (bindArgs_lookup_last (Alias.Params a) args 0 ∅ i p v); try done.
  intros j q Hlt Hq Hj. simpl in Hj. apply lookup_lt_is_Some_1 in Hj.
  by apply (Hlater j q).
Qed.

Lemma C1_positional_binding_witness :
  Alias.Params sample.gp !! 0 = Some sample.branch
  ∧ ["feature-x"] !! 0 = Some "feature-x"
  ∧ boundValue (bindArgs 0 (Alias.Params sample.gp) ["feature-x"] ∅)
      sample.branch = "feature-x".
Proof.
  split; [reflexivity |]. split; [reflexivity |].
  apply (C1_positional_binding sample.gp ["feature-x"] 0 sample.branch);
    [reflexivity | reflexivity |].
  intros j q Hlt Hj. simpl in Hj. lia.
Defined.

(** C2, as the claim words it, fails: the second parameter of [dup] is
    required and, with the single argument [a], receives no positional
    argument; yet [ParseCommand] succeeds, the name [x] having been
    given a value by the first parameter. *)
Lemma C2_shared_name_counterexample :
  unmet sample.dup ["a"] 1 sample.x_required
  ∧ ParseCommand sample.dup ["a"] = ("echo a", None).
Proof. split; [repeat split; simpl; lia | reflexivity]. Qed.

(** C2 (amended): for every alias and argument list in which some
    required parameter receives no positional argument, let [p] be the
    first such parameter in declaration order.  [ParseCommand] fails
    with [MissingRequiredParameter] naming [p] exactly when no parameter
    that receives a positional argument has the name of [p].  It then
    returns the empty string, no substitution having been made, and
    [Run] returns -1 and that error in an unchanged world: nothing is
    printed and no process is created. *)
Theorem C2_missing_required a args :
  (∃ i p, unmet a args i p) →
  ∃ i p,
    unmet a args i p
    ∧ (∀ j q, j < i → ¬ unmet a args j q)
    ∧ ((∀ j q, j < length args → Alias.Params a !! j = Some q →
               Param.Name q ≠ Param.Name p)
       ↔ ParseCommand a args
         = (EmptyString, Some (MissingRequiredParameter (Param.Name p))))
    ∧ ((∀ j q, j < length args → Alias.Params a !! j = Some q →
               Param.Name q ≠ Param.Name p) →
       ∀ w, executor.Run a args w
            = (os.Ok ((-1)%Z,
                      Some (executor.ErrParse
                              (MissingRequiredParameter (Param.Name p)))), w)).
Proof.
  intros (i0 & p0 & Hp0 & Hreq0 & Hle0).
  destruct (firstUnmet 0 (Alias.Params a) args) as [[k p]|] eqn:Hfirst.
  - destruct (firstUnmet_Some _ _ _ _ _ Hfirst)
      as (j & -> & Hj & Hreq & Hle & Hbefore).
    simpl in Hle, Hbefore.
    assert ((∀ j' q, j' < length args → Alias.Params a !! j' = Some q →
                     Param.Name q ≠ Param.Name p) →
            ParseCommand a args
            = (EmptyString, Some (MissingRequiredParameter (Param.Name p))))
      as Hparse.
    { intros Hfree. unfold ParseCommand.
      rewrite (checkRequired_first _ _ j p); try done.
      - unfold hasKey. by rewrite lookup_unbound.
      - intros j' q Hlt Hq Hr. apply (hasKey_bound a args j' q Hq).
        by apply (Hbefore j' q). }
    exists j, p. split; [done |]. split; [| split].
    + intros j' q Hlt (Hq & Hr & Hge).
      pose proof (Hbefore j' q Hlt Hq Hr). lia.
    + split; [exact Hparse |].
      unfold ParseCommand.
      destruct (checkRequired _ _) as [e|] eqn:Hcheck; [| done].
      intros [= ->] j' q Hlt Hq Heq.
      apply checkRequired_Some in Hcheck. simpl in Hcheck.
      rewrite <- Heq, (hasKey_bound a args j' q Hq Hlt) in Hcheck. done.
    + intros Hfree w. unfold executor.Run. by rewrite (Hparse Hfree).
  - pose proof (firstUnmet_None _ _ _ Hfirst i0 p0 Hp0 Hreq0). simpl in *. lia.
Qed.

(** Scenario D, and the alias [dup] without arguments: its second
    parameter is the first without an argument, and no parameter
    receives one. *)
Lemma C2_missing_required_witness :
  (∃ i p,
     unmet sample.gc [] i p
     ∧ (∀ j q, j < i → ¬ unmet sample.gc [] j q)
     ∧ ((∀ j q, j < length (@nil string) →
                Alias.Params sample.gc !! j = Some q →
                Param.Name q ≠ Param.Name p)
        ↔ ParseCommand sample.gc []
          = (EmptyString, Some (MissingRequiredParameter (Param.Name p))))
     ∧ ((∀ j q, j < length (@nil string) →
                Alias.Params sample.gc !! j = Some q →
                Param.Name q ≠ Param.Name p) →
        ∀ w, executor.Run sample.gc [] w
             = (os.Ok ((-1)%Z,
                       Some (executor.ErrParse
                               (MissingRequiredParameter (Param.Name p)))), w)))
  ∧ (∃ i p,
       unmet sample.dup [] i p
       ∧ (∀ j q, j < i → ¬ unmet sample.dup [] j q)
       ∧ ((∀ j q, j < length (@nil string) →
                  Alias.Params sample.dup !! j = Some q →
                  Param.Name q ≠ Param.Name p)
          ↔ ParseCommand sample.dup []
            = (EmptyString, Some (MissingRequiredParameter (Param.Name p))))
       ∧ ((∀ j q, j < length (@nil string) →
                  Alias.Params sample.dup !! j = Some q →
                  Param.Name q ≠ Param.Name p) →
          ∀ w, executor.Run sample.dup [] w
               = (os.Ok ((-1)%Z,
                         Some (executor.ErrParse
                                 (MissingRequiredParameter (Param.Name p)))),
                  w))).
Proof.
  split.
  - apply (C2_missing_required sample.gc []).
    exists 0, sample.message. vm_compute. repeat split. lia.
  - apply (C2_missing_required sample.dup []).
    exists 1, sample.x_required. vm_compute. repeat split. lia.
Defined.

(** The alias [dup] without arguments fails naming [x], the name its
    two parameters share. *)
Example shared_name_no_arguments :
  ParseCommand sample.dup []
  = (EmptyString, Some (MissingRequiredParameter "x")).
Proof. reflexivity. Qed.

(** Scenario D: the error names [message]. *)
Example scenarioD :
  ParseCommand sample.gc []
  = (EmptyString, Some (MissingRequiredParameter "message")).
Proof. reflexivity. Qed.

(** C4, as the claim words it, fails.  With arguments [a] and [b] both
    parameters of [dup] have a positional argument, and the positional
    expansion of [echo {{x}}] is [echo a]; [ParseCommand] returns
    [echo b].  And with the single argument the empty string, the
    second parameter of [nested], optional and without a positional
    argument, is not expanded with its default [e]: the first pass turns
    [{{{{x}}x}}] into [{{x}}], which the second pass replaces by the
    empty string again. *)
Lemma C4_shared_name_counterexample :
  (requiredMet sample.dup ["a"; "b"]
   ∧ ParseCommand sample.dup ["a"; "b"] = ("echo b", None)
   ∧ ParseCommand sample.dup ["a"; "b"]
     ≠ (expandPositional 0 (Alias.Params sample.dup) ["a"; "b"]
          (Alias.Command sample.dup), None))
  ∧ (requiredMet sample.nested [EmptyString]
     ∧ ParseCommand sample.nested [EmptyString] = (EmptyString, None)
     ∧ ParseCommand sample.nested [EmptyString]
       ≠ (expandPositional 0 (Alias.Params sample.nested) [EmptyString]
            (Alias.Command sample.nested), None)).
Proof.
  split; (split; [| by vm_compute]).
  - intros [|[|i]] p Hp _; simpl in *; [lia | lia | done].
  - intros [|[|i]] p Hp Hreq; simpl in *; [lia | | done].
    injection Hp as <-. discriminate Hreq.
Qed.

(** C4 (amended): for every alias in which no parameter shares its name
    with another parameter that receives a positional argument, and
    every argument list that gives each required parameter a positional
    argument, [ParseCommand] succeeds with the template in which, for
    each declared parameter in declaration order, every [{{name}}] of
    the template as it then stands has been replaced by the parameter's
    positional argument, or by its default when it has none. *)
Theorem C4_expansion a args :
  (∀ j q k r, Alias.Params a !! j = Some q → Alias.Params a !! k = Some r →
              k < length args → k ≠ j → Param.Name r ≠ Param.Name q) →
  requiredMet a args →
  ParseCommand a args
  = (expandPositional 0 (Alias.Params a) args (Alias.Command a), None).
Proof.
  intros Hother Hmet. unfold ParseCommand.
  rewrite requiredMet_check by done. f_equal.
  apply substitute_positional. intros j q Hq. simpl.
  apply boundValue_positional; [done |].
  intros k r Hlt Hne Hr. by apply (Hother j q k r).
Qed.

(** Scenario B: [git push origin {{branch}}] with the default [main]
    and no argument.  And the alias [nested], whose two parameters
    share a name, without arguments: each is replaced by its own
    default. *)
Lemma C4_expansion_witness :
  (requiredMet sample.gp []
   ∧ ParseCommand sample.gp [] = ("git push origin main", None))
  ∧ (requiredMet sample.nested []
     ∧ ParseCommand sample.nested [] = ("{{dx}}", None)).
Proof.
  assert (requiredMet sample.gp []) as Hgp.
  { intros [|i] p Hp Hreq; simpl in *; [| done].
    injection Hp as <-. discriminate Hreq. }
  assert (requiredMet sample.nested []) as Hnested.
  { intros [|[|i]] p Hp Hreq; simpl in *; [| | done];
      injection Hp as <-; discriminate Hreq. }
  split; (split; [done |]).
  - rewrite (C4_expansion sample.gp []); [reflexivity | | done].
    intros j q k r _ _ Hlt. simpl in Hlt. lia.
  - rewrite (C4_expansion sample.nested []); [reflexivity | | done].
    intros j q k r _ _ Hlt. simpl in Hlt. lia.
Defined.

(** Scenarios A and C. *)
Example scenarioA :
  ParseCommand sample.gc ["fix bug"]
  = ("git commit -am " +:+ sample.dq +:+ "fix bug" +:+ sample.dq, None).
Proof. reflexivity. Qed.

Example scenarioC :
  ParseCommand sample.gp ["feature-x"] = ("git push origin feature-x", None).
Proof. reflexivity. Qed.

(** C6: for every alias and argument list, [ParseCommand] returns what
    it returns on the argument list cut down to the number of declared
    parameters: the same error, or the same expanded command. *)
Theorem C6_extra_arguments_ignored a args :
  ParseCommand a args
  = ParseCommand a (take (length (Alias.Params a)) args).
Proof.
  unfold ParseCommand.
  by rewrite <- (bindArgs_take (Alias.Params a) args 0 ∅).
Qed.

(** C7: for every alias whose template contains no [{{p.Name}}] for a
    declared parameter [p], and every argument list that gives each
    required parameter a positional argument, [ParseCommand] returns
    the template unchanged. *)
Theorem C7_no_placeholder_unchanged a args :
  (∀ p, p ∈ Alias.Params a →
        ¬ occurs (placeholder (Param.Name p)) (Alias.Command a)) →
  requiredMet a args →
  ParseCommand a args = (Alias.Command a, None).
Proof.
  intros Hno Hmet. unfold ParseCommand.
  rewrite requiredMet_check by done. f_equal.
  by apply substitute_absent.
Qed.

Lemma C7_no_placeholder_unchanged_witness :
  (∀ p, p ∈ Alias.Params sample.gs →
        ¬ occurs (placeholder (Param.Name p)) (Alias.Command sample.gs))
  ∧ requiredMet sample.gs ["develop"]
  ∧ ParseCommand sample.gs ["develop"] = ("git status", None).
Proof.
  assert (∀ p, p ∈ Alias.Params sample.gs →
            ¬ occurs (placeholder (Param.Name p)) (Alias.Command sample.gs))
    as Hno.
  { intros p Hp%list_elem_of_singleton Hocc. subst p.
    apply Contains_occurs in Hocc. vm_compute in Hocc. discriminate Hocc. }
  assert (requiredMet sample.gs ["develop"]) as Hmet.
  { intros [|i] p Hp Hreq; simpl in *; [lia | done]. }
  split; [exact Hno |]. split; [exact Hmet |].
  exact (C7_no_placeholder_unchanged sample.gs ["develop"] Hno Hmet).
Defined.

End ParseCommandClaims.

(* ===================================================================== *)
(** * The placeholder scanner *)
(* ===================================================================== *)

Section Scanner.
Import GoStrings parser spec.

Implicit Types (s w rest : string) (names : list string).

Lemma spanWord_split s w rest :
  spanWord s = (w, rest) → s = w +:+ rest ∧ wordChars w.
Proof.
  revert w rest. induction s as [|c s IH]; intros w rest; simpl.
  - by intros [= <- <-].
  - destruct (isWordChar c) eqn:Hc.
    + destruct (spanWord s) as [w' rest'] eqn:Hspan.
      intros [= <- <-]. destruct (IH w' rest' eq_refl) as [-> Hw].
      by rewrite append_cons.
    + by intros [= <- <-].
Qed.

(** A run of word characters ends where [}}] begins. *)
Lemma spanWord_closing w rest :
  wordChars w → spanWord (w +:+ "}}" +:+ rest) = (w, "}}" +:+ rest).
Proof.
  induction w as [|c w IH]; intros Hw.
  - reflexivity.
  - destruct Hw as [Hc Hw]. rewrite append_cons. simpl.
    by rewrite Hc, (IH Hw).
Qed.

(** The anchored matcher finds exactly the matches of the pattern. *)
Lemma matchHere_MatchAt s w rest :
  matchHere s = Some (w, rest) ↔ MatchAt s w rest.
Proof.
  unfold matchHere, MatchAt. split.
  - destruct (CutPrefix "{{" s) as [s1|] eqn:H1; [| done].
    apply CutPrefix_Some in H1 as ->.
    destruct (spanWord s1) as [w' s2] eqn:Hspan.
    apply spanWord_split in Hspan as [-> Hw].
    destruct w' as [|c w']; [done |].
    destruct (CutPrefix "}}" s2) as [rest'|] eqn:H2; [| done].
    apply CutPrefix_Some in H2 as ->.
    by intros [= <- <-].
  - intros (Hne & Hw & ->).
    assert (CutPrefix "{{" ("{{" +:+ w +:+ "}}" +:+ rest)
            = Some (w +:+ "}}" +:+ rest)) as -> by by apply CutPrefix_Some.
    rewrite spanWord_closing by done.
    destruct w as [|c w]; [done |].
    by assert (CutPrefix "}}" ("}}" +:+ rest) = Some rest) as ->
      by by apply CutPrefix_Some.
Qed.

Lemma matchHere_consumes s w rest :
  matchHere s = Some (w, rest) → String.length rest < String.length s.
Proof.
  intros (_ & _ & ->)%matchHere_MatchAt.
  rewrite !length_append. simpl. lia.
Qed.

(** The names one match adds to the result. *)
Lemma collectNames_app (matches : list (list string)) names :
  collectNames matches names = names ++ collectNames matches [].
Proof.
  revert names. induction matches as [|m matches IH]; intros names; simpl.
  - by rewrite app_nil_r.
  - rewrite IH. rewrite (IH (if decide _ then _ else _)).
    rewrite app_assoc. f_equal.
    case_decide; [| by rewrite app_nil_r].
    destruct (m !! 1); [done | by rewrite app_nil_r].
Qed.

Lemma collectNames_match (full w : string) (matches : list (list string)) :
  collectNames ([full; w] :: matches) [] = w :: collectNames matches [].
Proof. simpl. by rewrite collectNames_app. Qed.

(** With enough fuel the scanner returns the names of the scan. *)
Lemma Scan_findAllLoop s names :
  Scan s names →
  ∀ fuel, String.length s ≤ fuel →
          collectNames (findAllLoop fuel s) [] = names.
Proof.
  induction 1 as [|s w rest names Hm _ IH|c s names Hno _ IH];
    intros fuel Hfuel.
  - by destruct fuel.
  - pose proof Hm as Hhere%matchHere_MatchAt.
    pose proof (matchHere_consumes _ _ _ Hhere).
    destruct fuel as [|fuel]; [lia |]. simpl. rewrite Hhere.
    rewrite collectNames_match, IH by lia. done.
  - destruct fuel as [|fuel]; [simpl in Hfuel; lia |]. simpl.
    destruct (matchHere (String c s)) as [[w rest]|] eqn:Hhere.
    + exfalso. by apply (Hno w rest), matchHere_MatchAt.
    + apply IH. simpl in Hfuel. lia.
Qed.

(** The scanner scans: what it returns is a scan of the text. *)
Lemma findAllLoop_Scan fuel s :
  String.length s ≤ fuel → Scan s (collectNames (findAllLoop fuel s) []).
Proof.
  revert s. induction fuel as [|fuel IH]; intros s Hfuel.
  - destruct s; [apply Scan_end | simpl in Hfuel; lia].
  - simpl. destruct (matchHere s) as [[w rest]|] eqn:Hhere.
    + rewrite collectNames_match.
      apply Scan_match with rest; [by apply matchHere_MatchAt |].
      apply IH. pose proof (matchHere_consumes _ _ _ Hhere). lia.
    + destruct s as [|c s]; [apply Scan_end |].
      apply Scan_skip.
      * intros w rest Hm%matchHere_MatchAt. congruence.
      * apply IH. simpl in Hfuel. lia.
Qed.

(** C5: for every template, [ExtractPlaceholders] returns exactly the
    identifiers captured by the non-overlapping left-to-right matches
    of [{{], one or more word characters, [}}], in the order in which
    they occur, duplicates included. *)
Theorem C5_extract_placeholders (T : string) names :
  Scan T names ↔ ExtractPlaceholders T = names.
Proof.
  unfold ExtractPlaceholders, FindAllStringSubmatch. split.
  - intros Hscan. by apply Scan_findAllLoop.
  - intros <-. by apply findAllLoop_Scan.
Qed.

Example extract_duplicates :
  ExtractPlaceholders "cp {{src}} {{dst}} && ls {{{src}} {{}} {{a b}}"
  = ["src"; "dst"; "src"].
Proof. reflexivity. Qed.

End Scanner.

(* ===================================================================== *)
(** * Loading the configuration *)
(* ===================================================================== *)

Section ConfigState.
Import os config spec.

Lemma bind_Ok {A B} (m : M A) (k : A → M B) (w w' : World) (a : A) :
  m w = (Ok a, w') → bind m k w = k a w'.
Proof. intros H. unfold bind. by rewrite H. Qed.

Lemma configOnly_refl (w : World) : configOnly w w.
Proof. by repeat split. Qed.

Lemma configOnly_trans (w1 w2 w3 : World) :
  configOnly w1 w2 → configOnly w2 w3 → configOnly w1 w3.
Proof.
  intros (? & ? & ? & ? & ?) (? & ? & ? & ? & ?).
  repeat split; congruence.
Qed.

(** [GetDefaultShell] reads the environment and changes nothing. *)
Lemma GetDefaultShell_pure (w : World) :
  ∃ shell, GetDefaultShell w = (Ok shell, w).
Proof.
  unfold GetDefaultShell, bind, get, ret.
  destruct (negb _); [eauto |]. destruct (String.eqb _ _); eauto.
Qed.

(** [EnsureConfigDir] makes the directory, or reports that it cannot. *)
Lemma EnsureConfigDir_run (w : World) :
  EnsureConfigDir w
  = match mkdirAll w with
    | Some e => (Ok (Some e), w)
    | None => (Ok None, set_configFile (made (configFile w)) w)
    end.
Proof.
  unfold EnsureConfigDir, bind, get, ret, modify. by destruct (mkdirAll w).
Qed.

(** [saveInternal] returns and touches the configuration file only. *)
Lemma saveInternal_spec (w : World) :
  ∃ err w', saveInternal w = (Ok err, w')
            ∧ globalConfig w' = globalConfig w ∧ loaded w' = loaded w
            ∧ configOnly w w'.
Proof.
  unfold saveInternal. unfold bind at 1. unfold get at 1.
  destruct (globalConfig w) as [cfg|] eqn:Hcfg;
    [| by eauto 10 using configOnly_refl].
  unfold bind at 1. rewrite EnsureConfigDir_run.
  destruct (mkdirAll w); [by eauto 10 using configOnly_refl |].
  unfold bind, ret, modify.
  destruct (yamlMarshal w cfg);
    [| eexists _, _; split; [reflexivity |]; by repeat split].
  destruct (writeFile w);
    (eexists _, _; split; [reflexivity |]; by repeat split).
Qed.


(** [loadInternal] returns; when it reports no error the configuration
    is loaded. *)
Lemma loadInternal_spec (w : World) :
  loaded w = false →
  ∃ err w', loadInternal w = (Ok err, w')
            ∧ wf w' ∧ configOnly w w'
            ∧ (err = None → loaded w' = true).
Proof.
  intros Hl.
  unfold loadInternal. unfold bind at 1. rewrite EnsureConfigDir_run.
  destruct (mkdirAll w) eqn:Hmk.
  { eexists _, _. split; [reflexivity |].
    split; [by intros ?; congruence |]. by split; [apply configOnly_refl |]. }
  set (w0 := set_configFile (made (configFile w)) w).
  assert (configOnly w w0) as Hco0 by (by repeat split).
  assert (loaded w0 = false) as Hl0 by done.
  unfold bind at 1. unfold get at 1.
  destruct (configFile w0) eqn:Hfile.
  1, 2: unfold createDefaultConfig;
    destruct (GetDefaultShell_pure w0) as [shell Hshell];
    unfold bind at 1; unfold bind at 1; rewrite Hshell; unfold ret at 1;
    unfold bind at 1; unfold modify at 1;
    match goal with |- context [saveInternal ?w1] =>
      destruct (saveInternal_spec w1) as (err & w' & -> & Hg & Hld & Hco)
    end;
    exists err, w'; (split; [done |]); simpl in Hg, Hld;
    (split; [intros _; rewrite Hg; eauto |]);
    (split; [| by intros _]);
    (eapply configOnly_trans; [| exact Hco]); by repeat split.
  - eexists _, _. split; [reflexivity |].
    split; [by intros ?; congruence |]. done.
  - destruct (viperRead w0 data) eqn:Hread.
    { eexists _, _. split; [reflexivity |].
      split; [by intros ?; congruence |]. done. }
    destruct (viperUnmarshal w0 data) as [cfg uerr] eqn:Hun.
    unfold bind, modify, ret. destruct uerr.
    + eexists _, _. split; [reflexivity |].
      split; [intros _; simpl; eauto |]. by repeat split.
    + eexists _, _. split; [reflexivity |].
      split; [intros _; simpl; eauto |]. by repeat split.
Qed.

(** [ensureLoaded] returns; it touches the configuration only, keeps the
    invariant, and leaves the configuration loaded when it reports no
    error. *)
Lemma ensureLoaded_spec (w : World) :
  wf w →
  ∃ err w', ensureLoaded w = (Ok err, w')
            ∧ wf w' ∧ configOnly w w'
            ∧ (err = None → loaded w' = true).
Proof.
  intros Hwf. unfold ensureLoaded, bind, get.
  destruct (loaded w) eqn:Hl; simpl.
  - unfold ret. eexists _, _. split; [reflexivity |].
    split; [done |]. by split; [apply configOnly_refl |].
  - by apply loadInternal_spec.
Qed.

(** [Get] returns; it touches the configuration only, keeps the
    invariant, and hands out a configuration when it reports no error. *)
Lemma Get_spec (w : World) :
  wf w →
  ∃ cfg err w', Get w = (Ok (cfg, err), w')
                ∧ wf w' ∧ configOnly w w'
                ∧ (err = None → is_Some cfg).
Proof.
  intros Hwf. unfold Get.
  destruct (ensureLoaded_spec w Hwf) as (err & w' & HE & Hwf' & Hco & Hok).
  rewrite (bind_Ok _ _ _ _ _ HE).
  destruct err as [e|].
  - eexists _, _, _. split; [reflexivity |].
    split; [done |]. split; [done |]. intros [=].
  - unfold bind, get, ret. eexists _, _, _. split; [reflexivity |].
    split; [done |]. split; [done |]. intros _. by apply Hwf', Hok.
Qed.

(** [FindAlias] returns and keeps the invariant. *)
Lemma FindAlias_spec (name : string) (w : World) :
  wf w →
  ∃ a found w', FindAlias name w = (Ok (a, found), w')
                ∧ wf w' ∧ configOnly w w'.
Proof.
  intros Hwf. unfold FindAlias.
  destruct (ensureLoaded_spec w Hwf) as (err & w' & HE & Hwf' & Hco & Hok).
  rewrite (bind_Ok _ _ _ _ _ HE).
  destruct err as [e|].
  - unfold ret. eauto 10.
  - unfold bind, get. destruct (Hwf' (Hok eq_refl)) as [cfg ->].
    destruct (findByName _ _); unfold ret; eauto 10.
Qed.

(** [AddAlias] returns and keeps the invariant. *)
Lemma AddAlias_spec (alias : Alias.t) (w : World) :
  wf w →
  ∃ err w', AddAlias alias w = (Ok err, w') ∧ wf w' ∧ configOnly w w'.
Proof.
  intros Hwf. unfold AddAlias.
  destruct (ensureLoaded_spec w Hwf) as (err & w1 & HE & Hwf1 & Hco1 & Hok).
  rewrite (bind_Ok _ _ _ _ _ HE).
  destruct err as [e|].
  - unfold ret. eauto 10.
  - unfold bind at 1. unfold get at 1.
    destruct (Hwf1 (Hok eq_refl)) as [cfg ->].
    destruct (findByName _ _); [unfold ret; eauto 10 |].
    unfold bind, modify.
    match goal with |- context [saveInternal ?w2] =>
      destruct (saveInternal_spec w2) as (err & w' & -> & Hg & Hld & Hco2)
    end.
    exists err, w'. split; [done |]. split.
    + intros _. rewrite Hg. simpl. eauto.
    + eapply configOnly_trans; [exact Hco1 |].
      eapply configOnly_trans; [| exact Hco2]. by repeat split.
Qed.

End ConfigState.

(* ===================================================================== *)
(** * Execute *)
(* ===================================================================== *)

Section Execute.
Import os config executor spec.

Implicit Types (command shell : string) (w : World).

Lemma commandLine_configOnly w w' shell command :
  configOnly w w' → commandLine w' shell command = commandLine w shell command.
Proof. intros (HG & _). unfold commandLine. by rewrite HG. Qed.

(** The child does the same where the platform, the disk and the
    machine are the same. *)
Lemma outcomeOf_same w w' shell command :
  GOOS w' = GOOS w → spawn w' = spawn w → configFile w' = configFile w →
  outcomeOf w' shell command = outcomeOf w shell command.
Proof.
  intros HG Hs Hf. unfold outcomeOf, commandLine. by rewrite HG, Hs, Hf.
Qed.

(** The first block returns a shell and touches the configuration only. *)
Lemma determineShell_spec (optsShell : string) w :
  wf w →
  ∃ shell w1, determineShell optsShell w = (Ok shell, w1)
              ∧ wf w1 ∧ configOnly w w1.
Proof.
  intros Hwf. unfold determineShell.
  destruct (String.eqb optsShell EmptyString).
  - destruct (Get_spec w Hwf) as (cfg & err & w1 & HG & Hwf1 & Hco & Hsome).
    rewrite (bind_Ok _ _ _ _ _ HG).
    destruct err as [e|].
    + destruct (GetDefaultShell_pure w1) as [shell ->]. eauto.
    + destruct (Hsome eq_refl) as [c ->]. unfold deref, bind, ret.
      destruct (negb _); [eauto |].
      destruct (GetDefaultShell_pure w1) as [shell ->]. eauto.
  - unfold ret. eauto using configOnly_refl.
Qed.

(** The second block returns a flag and touches the configuration only. *)
Lemma checkVerbose_spec (optsVerbose : bool) w :
  wf w →
  ∃ verbose w1, checkVerbose optsVerbose w = (Ok verbose, w1)
                ∧ wf w1 ∧ configOnly w w1.
Proof.
  intros Hwf. unfold checkVerbose.
  destruct (negb optsVerbose).
  - destruct (Get_spec w Hwf) as (cfg & err & w1 & HG & Hwf1 & Hco & Hsome).
    rewrite (bind_Ok _ _ _ _ _ HG).
    destruct err as [e|].
    + unfold ret. eauto.
    + destruct (Hsome eq_refl) as [c ->]. unfold deref, bind, ret. eauto.
  - unfold ret. eauto using configOnly_refl.
Qed.

(** Case analysis on the platform and on the outcome of the child. *)
Local Ltac by_outcome :=
  match goal with
  | |- context [String.eqb (GOOS ?w) ?os] => destruct (String.eqb (GOOS w) os)
  end; simpl;
  match goal with
  | |- context [spawn ?w ?f ?n ?a] =>
      let status := fresh "status" in
      destruct (spawn w f n a) as [status| |?]; simpl;
      try (destruct (decide (status = 0%Z)) as [->|?]; simpl)
  end;
  eexists; (split; [reflexivity |]); simpl;
  (split; [done |]); by rewrite ?app_nil_r.

(** What the rest of [Execute] returns, creates and prints. *)
Lemma launch_spec command (dryRun : bool) shell (verbose : bool) w :
  ∃ w',
    launch command dryRun shell verbose w
    = (Ok (if dryRun then (0%Z, None) else resultOf (outcomeOf w shell command)),
       w')
    ∧ procs w'
      = (if dryRun then procs w
         else procs w ++ [(commandLine w shell command, outcomeOf w shell command)])
    ∧ stdout w'
      = stdout w ++ (if verbose then [verboseLine command] else [])
                 ++ (if dryRun then [dryRunLine command] else [])
    ∧ globalConfig w' = globalConfig w ∧ loaded w' = loaded w
    ∧ GOOS w' = GOOS w ∧ spawn w' = spawn w ∧ configFile w' = configFile w.
Proof.
  unfold launch, outcomeOf, commandLine, verboseLine, dryRunLine.
  destruct verbose, dryRun;
    unfold bind, Printf, modify, ret, get, cmdRun; simpl.
  - eexists. split; [reflexivity |]. simpl. split; [done |].
    by rewrite <- app_assoc.
  - by_outcome.
  - eexists. split; [reflexivity |]. simpl. by split.
  - by_outcome.
Qed.

(** [Execute] step by step: the shell is chosen, the verbose flag is
    settled, and the rest runs in the world these two leave. *)
Lemma Execute_steps command (opts : ExecuteOptions) w :
  wf w →
  ∃ shell w1 (verbose : bool) w2,
    determineShell (Shell opts) w = (Ok shell, w1)
    ∧ wf w1 ∧ configOnly w w1
    ∧ checkVerbose (Verbose opts) w1 = (Ok verbose, w2)
    ∧ wf w2 ∧ configOnly w1 w2
    ∧ Execute command opts w = launch command (DryRun opts) shell verbose w2.
Proof.
  intros Hwf.
  destruct (determineShell_spec (Shell opts) w Hwf)
    as (shell & w1 & Hshell & Hwf1 & Hco1).
  destruct (checkVerbose_spec (Verbose opts) w1 Hwf1)
    as (verbose & w2 & Hverbose & Hwf2 & Hco2).
  exists shell, w1, verbose, w2.
  do 6 (split; [done |]).
  unfold Execute.
  by rewrite (bind_Ok _ _ _ _ _ Hshell), (bind_Ok _ _ _ _ _ Hverbose).
Qed.

(** [Execute] as a whole, in a world that keeps the invariant.  The
    child runs on the disk as [Execute] leaves it. *)
Lemma Execute_spec command (opts : ExecuteOptions) w :
  wf w →
  ∃ shell w1 (verbose : bool) w',
    determineShell (Shell opts) w = (Ok shell, w1)
    ∧ Execute command opts w
      = (Ok (if DryRun opts then (0%Z, None)
             else resultOf (outcomeOf w' shell command)), w')
    ∧ procs w'
      = (if DryRun opts then procs w
         else procs w ++ [(commandLine w shell command, outcomeOf w' shell command)])
    ∧ stdout w'
      = stdout w ++ (if verbose then [verboseLine command] else [])
                 ++ (if DryRun opts then [dryRunLine command] else [])
    ∧ wf w'
    ∧ GOOS w' = GOOS w ∧ spawn w' = spawn w.
Proof.
  intros Hwf.
  destruct (Execute_steps command opts w Hwf)
    as (shell & w1 & verbose & w2 & Hshell & _ & Hco1 & _ & Hwf2 & Hco2 & HE).
  pose proof (configOnly_trans _ _ _ Hco1 Hco2) as Hco.
  destruct (launch_spec command (DryRun opts) shell verbose w2)
    as (w' & Hlaunch & Hprocs & Hout & Hg & Hld & HG & Hsp & Hfile).
  exists shell, w1, verbose, w'. split; [done |].
  rewrite HE, Hlaunch, Hprocs, Hout.
  rewrite (outcomeOf_same w2 w') by done.
  rewrite (commandLine_configOnly w w2) by done.
  destruct Hco as (HG2 & _ & Hsp2 & -> & ->).
  repeat split; try done; [| congruence | congruence].
  unfold wf. rewrite Hg, Hld. exact Hwf2.
Qed.






End Execute.

(* ===================================================================== *)
(** * The process runner: the specification's statements *)
(* ===================================================================== *)

Section ExecuteClaims.
Import os config executor spec.

Implicit Types (command shell : string) (w : World) (opts : ExecuteOptions).

Lemma wf_fresh : wf sample.fresh.
Proof. intros Hl. discriminate Hl. Qed.

Lemma wf_ready : wf sample.ready.
Proof. intros _. simpl. eauto. Qed.

(** C3: in every world that keeps the invariant of package config,
    [Execute] returns.  When it is not a dry run it starts one child
    process, on the disk as [Execute] leaves it, and what it returns is
    read off what becomes of that child: its error is non-nil exactly
    when the child could not be started, and then the exit code is the
    sentinel -1; and when the child ran and terminated normally with
    exit status [N], zero or not, [Execute] returns [N] and a nil
    error.  In a dry run no child is started and the error is nil. *)
Theorem C3_exit_code_or_launch_failure command opts w :
  wf w →
  ∃ code err w',
    Execute command opts w = (Ok (code, err), w')
    ∧ if DryRun opts
      then procs w' = procs w ∧ code = 0%Z ∧ err = None
      else ∃ prog args o,
             procs w' = procs w ++ [(prog, args, o)]
             ∧ o = spawn w (configFile w') prog args
             ∧ (code, err) = resultOf o
             ∧ (is_Some err ↔ ∃ cause, o = NotStarted cause)
             ∧ (is_Some err → code = (-1)%Z)
             ∧ (∀ N, o = Exited N → code = N ∧ err = None).
Proof.
  intros Hwf.
  destruct (Execute_spec command opts w Hwf)
    as (shell & w1 & verbose & w' & _ & HE & Hprocs & _ & _ & HG & Hsp).
  destruct (DryRun opts).
  - by exists 0%Z, None, w'.
  - unfold outcomeOf in *.
    assert (commandLine w' shell command = commandLine w shell command) as Hcl
      by (unfold commandLine; by rewrite HG).
    rewrite Hcl, Hsp in *.
    destruct (commandLine w shell command) as [prog args]. simpl in *.
    set (o := spawn w (configFile w') prog args) in *.
    exists (resultOf o).1, (resultOf o).2, w'.
    split; [by rewrite HE; destruct (resultOf o) |].
    exists prog, args, o. split; [done |]. split; [done |].
    split; [by destruct (resultOf o) |].
    destruct o as [status| |cause]; simpl.
    + split; [split; [by intros [? [=]] | by intros [? [=]]] |].
      split; [by intros [? [=]] |]. by intros N [= <-].
    + split; [split; [by intros [? [=]] | by intros [? [=]]] |].
      split; [by intros [? [=]] |]. by intros N [=].
    + split; [split; [eauto | eauto] |]. split; [done |]. by intros N [=].
Qed.

(** Scenario E: a child that exits with status 2. *)
Lemma C3_exit_code_or_launch_failure_witness :
  ∃ code err w',
    Execute "exit 2" zeroOptions sample.ready = (Ok (code, err), w')
    ∧ ∃ prog args o,
        procs w' = procs sample.ready ++ [(prog, args, o)]
        ∧ o = spawn sample.ready (configFile w') prog args
        ∧ (code, err) = resultOf o
        ∧ (is_Some err ↔ ∃ cause, o = NotStarted cause)
        ∧ (is_Some err → code = (-1)%Z)
        ∧ (∀ N, o = Exited N → code = N ∧ err = None).
Proof.
  apply (C3_exit_code_or_launch_failure "exit 2" zeroOptions sample.ready).
  intros _. simpl. eauto.
Defined.

Example scenarioE :
  (Execute "exit 2" zeroOptions sample.ready).1 = Ok (2%Z, None).
Proof. reflexivity. Qed.

Example launch_failure :
  (Execute "ls" (mkOptions "/bin/nosuchshell" false false) sample.ready).1
  = Ok ((-1)%Z,
        Some (Errorf "failed to execute command: no such file or directory")).
Proof. reflexivity. Qed.

(** C8: in every world that keeps the invariant of package config, for
    every command string, [Execute] with [DryRun = true] prints the
    command line last, returns exit code 0 and a nil error, and creates
    no child process. *)
Theorem C8_dry_run command opts w :
  wf w →
  DryRun opts = true →
  ∃ w',
    Execute command opts w = (Ok (0%Z, None), w')
    ∧ procs w' = procs w
    ∧ last (stdout w') = Some (dryRunLine command)
    ∧ stdout w `prefix_of` stdout w'.
Proof.
  intros Hwf Hdry.
  destruct (Execute_spec command opts w Hwf)
    as (shell & w1 & verbose & w' & _ & HE & Hprocs & Hout & _).
  rewrite Hdry in *.
  exists w'. split; [done |]. split; [done |]. rewrite Hout. split.
  - rewrite app_assoc. apply last_snoc.
  - by apply prefix_app_r.
Qed.

(** Scenario F: [echo {{x}}] with [x] bound to [hi], in a dry run. *)
Lemma C8_dry_run_witness :
  wf sample.fresh
  ∧ ∃ w',
      Execute "echo hi" (mkOptions "/bin/sh" false true) sample.fresh
      = (Ok (0%Z, None), w')
      ∧ procs w' = procs sample.fresh
      ∧ last (stdout w') = Some (dryRunLine "echo hi")
      ∧ stdout sample.fresh `prefix_of` stdout w'.
Proof.
  assert (wf sample.fresh) as Hwf by (intros Hl; discriminate Hl).
  split; [exact Hwf |].
  apply (C8_dry_run "echo hi" (mkOptions "/bin/sh" false true) sample.fresh Hwf).
  reflexivity.
Defined.

Example scenarioF :
  let a := {| Alias.Name := "say"; Alias.Command := "echo {{x}}";
              Alias.Description := "Echo";
              Alias.Params := [sample.x_required] |} in
  let '(r, w') := RunWithOptions a ["hi"] (mkOptions "/bin/sh" false true)
                    sample.fresh in
  r = Ok (0%Z, None)
  ∧ stdout w' = [dryRunLine "echo hi"]
  ∧ procs w' = [].
Proof. vm_compute. done. Qed.




Example verbose_differs_in_output_only :
  let '(r1, w1) := Execute "exit 2" (withVerbose true zeroOptions) sample.fresh in
  let '(r2, w2) := Execute "exit 2" (withVerbose false zeroOptions) sample.fresh in
  r1 = Ok (2%Z, None) ∧ r2 = Ok (2%Z, None)
  ∧ stdout w1 = [verboseLine "exit 2"] ∧ stdout w2 = []
  ∧ procs w1 = [("/bin/sh", ["-c"; "exit 2"], Exited 2)]
  ∧ procs w2 = procs w1.
Proof. vm_compute. done. Qed.

End ExecuteClaims.

(* ===================================================================== *)
(** * The alias store *)
(* ===================================================================== *)

Section AliasStore.
Import os config spec.

Implicit Types (alias : Alias.t) (aliases : list Alias.t) (name : string).

(** The search loop finds an alias exactly when the name is taken. *)
Lemma findByName_Some aliases name (a : Alias.t) :
  findByName aliases name = Some a → a ∈ aliases ∧ Alias.Name a = name.
Proof.
  induction aliases as [|b rest IH]; simpl; [done |].
  destruct (String.eqb (Alias.Name b) name) eqn:Heq.
  - intros [= <-]. apply String.eqb_eq in Heq. split; [left | done].
  - intros [Hin Hname]%IH. split; [by right | done].
Qed.

Lemma findByName_None aliases name :
  findByName aliases name = None →
  ∀ b, b ∈ aliases → Alias.Name b ≠ name.
Proof.
  induction aliases as [|a rest IH]; simpl; intros Hnone b Hb.
  - by apply not_elem_of_nil in Hb.
  - destruct (String.eqb (Alias.Name a) name) eqn:Heq; [done |].
    apply String.eqb_neq in Heq.
    apply elem_of_cons in Hb as [-> | Hb]; [done | by apply IH].
Qed.

(** C10: for every loaded configuration state and every alias, if some
    stored alias already has the name then [AddAlias] returns an error
    and leaves the world, the stored list with it, unchanged; otherwise
    it returns with the alias appended at the end of the stored list,
    the aliases stored before kept in their order. *)
Theorem C10_AddAlias_unique_names alias (w : World) (cfg : Config.t) :
  loaded w = true →
  globalConfig w = Some cfg →
  (nameTaken cfg (Alias.Name alias) →
   ∃ e, AddAlias alias w = (Ok (Some e), w))
  ∧ (¬ nameTaken cfg (Alias.Name alias) →
     ∃ err w',
       AddAlias alias w = (Ok err, w')
       ∧ Config.Aliases <$> globalConfig w'
         = Some (Config.Aliases cfg ++ [alias])).
Proof.
  intros Hl Hcfg.
  assert (AddAlias alias w
          = match findByName (Config.Aliases cfg) (Alias.Name alias) with
            | Some _ =>
                (Ok (Some ("alias '" +:+ Alias.Name alias +:+ "' already exists")),
                 w)
            | None =>
                saveInternal
                  (set_config
                     (Some {| Config.Version := Config.Version cfg;
                              Config.Settings := Config.Settings cfg;
                              Config.Aliases := Config.Aliases cfg ++ [alias] |})
                     (loaded w) w)
            end) as ->.
  { unfold AddAlias, ensureLoaded. unfold bind, get, modify, ret. simpl.
    rewrite Hl. simpl. rewrite Hcfg.
    destruct (findByName (Config.Aliases cfg) (Alias.Name alias));
      by rewrite ?Hl. }
  split.
  - intros (b & Hb & Hname).
    destruct (findByName (Config.Aliases cfg) (Alias.Name alias)) as [a|] eqn:Hf.
    + eauto.
    + exfalso. by apply (findByName_None _ _ Hf b).
  - intros Hfree.
    destruct (findByName (Config.Aliases cfg) (Alias.Name alias)) as [a|] eqn:Hf.
    + exfalso. apply Hfree. exists a. by apply findByName_Some.
    + match goal with |- context [saveInternal ?w1] =>
        destruct (saveInternal_spec w1) as (err & w' & -> & Hg & _)
      end.
      exists err, w'. split; [done |]. by rewrite Hg.
Qed.

Lemma C10_AddAlias_unique_names_witness :
  (nameTaken sample.cfg (Alias.Name sample.gs) →
   ∃ e, AddAlias sample.gs sample.ready = (Ok (Some e), sample.ready))
  ∧ (¬ nameTaken sample.cfg (Alias.Name sample.gs) →
     ∃ err w',
       AddAlias sample.gs sample.ready = (Ok err, w')
       ∧ Config.Aliases <$> globalConfig w'
         = Some (Config.Aliases sample.cfg ++ [sample.gs])).
Proof.
  apply (C10_AddAlias_unique_names sample.gs sample.ready sample.cfg);
    reflexivity.
Defined.

Example AddAlias_taken :
  AddAlias sample.gp sample.ready
  = (Ok (Some "alias 'gp' already exists"), sample.ready).
Proof. reflexivity. Qed.

Example AddAlias_free :
  let '(err, w') := AddAlias sample.gs sample.ready in
  err = Ok None
  ∧ Config.Aliases <$> globalConfig w' = Some [sample.gc; sample.gp; sample.gs]
  ∧ configFile w' = Contents "version: 1".
Proof. vm_compute. done. Qed.

End AliasStore.

(* ===================================================================== *)
(** * More of the parser: validation and examples *)
(* ===================================================================== *)

Section ParserMore.
Import GoStrings parser aliases spec.

Implicit Types (a : Alias.t) (args : list string) (params : list Param.t).

Lemma defineNames_isDefined params (defined : gmap string bool) (k : string) :
  isDefined (defineNames params defined) k = true
  ↔ k ∈ Param.Name <$> params ∨ isDefined defined k = true.
Proof.
  revert defined. induction params as [|p rest IH]; intros defined; simpl.
  - rewrite elem_of_nil. tauto.
  - rewrite IH, elem_of_cons. unfold isDefined at 1.
    destruct (decide (Param.Name p = k)) as [->|Hne].
    + rewrite lookup_insert_eq. intuition auto.
    + rewrite lookup_insert_ne by done. fold (isDefined defined k).
      intuition congruence.
Qed.

Lemma collectUndefined_filter (placeholders : list string)
    (defined : gmap string bool) (undefined : list string) :
  collectUndefined placeholders defined undefined
  = undefined ++ filter (λ n, isDefined defined n = false) placeholders.
Proof.
  revert undefined.
  induction placeholders as [|n rest IH]; intros undefined; simpl.
  - by rewrite app_nil_r.
  - rewrite IH. destruct (isDefined defined n) eqn:Hn; simpl.
    + by rewrite filter_cons_False by congruence.
    + rewrite filter_cons_True by done. by rewrite <- app_assoc.
Qed.

(** [ValidatePlaceholders] returns, in their order and with their
    repetitions, the placeholders of the command that no declared
    parameter names; it returns nothing exactly when every placeholder
    is a declared name. *)
Theorem ValidatePlaceholders_undeclared a :
  ValidatePlaceholders a
  = filter (λ n, n ∉ paramNames a) (ExtractPlaceholders (Alias.Command a))
  ∧ (ValidatePlaceholders a = []
     ↔ ∀ n, n ∈ ExtractPlaceholders (Alias.Command a) → n ∈ paramNames a).
Proof.
  assert (ValidatePlaceholders a
          = filter (λ n, n ∉ paramNames a)
              (ExtractPlaceholders (Alias.Command a))) as Heq.
  { unfold ValidatePlaceholders. rewrite collectUndefined_filter. simpl.
    apply list_filter_iff. intros n.
    pose proof (defineNames_isDefined (Alias.Params a) ∅ n) as Hd.
    unfold isDefined at 2 in Hd. rewrite lookup_empty in Hd.
    unfold paramNames. destruct (isDefined _ n).
    - split; [done |]. intros Hn. exfalso. apply Hn.
      destruct Hd as [Hd _]. by destruct (Hd eq_refl).
    - split; [| done]. intros _ Hin.
      destruct Hd as [_ Hd]. discriminate (Hd (or_introl Hin)). }
  split; [exact Heq |]. rewrite Heq. split.
  - intros Hnil n Hn. destruct (decide (n ∈ paramNames a)) as [|Hout]; [done |].
    assert (n ∈ filter (λ n, n ∉ paramNames a)
                  (ExtractPlaceholders (Alias.Command a))) as Hin
      by by apply list_elem_of_filter.
    rewrite Hnil in Hin. by apply elem_of_nil in Hin.
  - intros Hall. apply elem_of_nil_inv. intros n [Hout Hn]%list_elem_of_filter.
    by apply Hout, Hall.
Qed.

Lemma occurs_app_l (old pre s : string) :
  occurs old s → occurs old (pre +:+ s).
Proof.
  intros (pre' & post & ->). exists (pre +:+ pre'), post.
  by rewrite append_assoc.
Qed.

Lemma MatchAt_occurs (s w rest : string) :
  MatchAt s w rest → occurs (placeholder w) s.
Proof.
  intros (_ & _ & ->). exists EmptyString, rest.
  unfold placeholder. by rewrite append_nil_l, !append_assoc.
Qed.

Lemma Scan_tokens (s : string) (names : list string) :
  Scan s names →
  ∀ n, n ∈ names →
       n ≠ EmptyString ∧ wordChars n ∧ occurs (placeholder n) s.
Proof.
  induction 1 as [|s w rest names Hm _ IH|c s names _ _ IH]; intros n Hn.
  - by apply elem_of_nil in Hn.
  - apply elem_of_cons in Hn as [-> | Hn].
    + destruct Hm as (Hne & Hw & Hs). repeat split; try done.
      by apply (MatchAt_occurs s w rest).
    + destruct (IH n Hn) as (Hne & Hw & Hocc). repeat split; try done.
      destruct Hm as (_ & _ & ->).
      rewrite <- !append_assoc. by apply occurs_app_l.
  - destruct (IH n Hn) as (Hne & Hw & Hocc). repeat split; try done.
    by apply occurs_tail.
Qed.

(** Every identifier [ExtractPlaceholders] returns is one or more word
    characters, and its token [{{identifier}}] occurs in the command. *)
Theorem ExtractPlaceholders_tokens (command n : string) :
  n ∈ ExtractPlaceholders command →
  n ≠ EmptyString ∧ wordChars n ∧ occurs (placeholder n) command.
Proof.
  intros Hn. apply (Scan_tokens command (ExtractPlaceholders command)); [| done].
  unfold ExtractPlaceholders, FindAllStringSubmatch. by apply findAllLoop_Scan.
Qed.

Lemma ExtractPlaceholders_tokens_witness :
  "src" ∈ ExtractPlaceholders "cp {{src}} {{dst}}"
  ∧ "src" ≠ EmptyString ∧ wordChars "src"
  ∧ occurs (placeholder "src") "cp {{src}} {{dst}}".
Proof.
  assert ("src" ∈ ExtractPlaceholders "cp {{src}} {{dst}}") as Hin.
  { vm_compute. left. }
  split; [exact Hin |].
  exact (ExtractPlaceholders_tokens "cp {{src}} {{dst}}" "src" Hin).
Defined.

(** The token of an identifier at the head of a text is found first, and
    the scan goes on after it; in particular scanning the token that
    [ParseCommand] builds for a name gives the name back. *)
Theorem ExtractPlaceholders_token_first (name rest : string) :
  name ≠ EmptyString → wordChars name →
  ExtractPlaceholders (placeholder name +:+ rest)
  = name :: ExtractPlaceholders rest.
Proof.
  intros Hne Hw. unfold ExtractPlaceholders, FindAllStringSubmatch.
  apply Scan_findAllLoop; [| done].
  apply Scan_match with rest.
  - repeat split; try done. unfold placeholder. by rewrite !append_assoc.
  - by apply findAllLoop_Scan.
Qed.

Lemma ExtractPlaceholders_token_first_witness :
  "branch" ≠ EmptyString ∧ wordChars "branch"
  ∧ ExtractPlaceholders (placeholder "branch" +:+ " {{remote}}")
    = "branch" :: ExtractPlaceholders " {{remote}}".
Proof.
  assert ("branch" ≠ EmptyString) as Hne by discriminate.
  assert (wordChars "branch") as Hw by (vm_compute; tauto).
  split; [exact Hne |]. split; [exact Hw |].
  exact (ExtractPlaceholders_token_first "branch" " {{remote}}" Hne Hw).
Defined.

(** Without arguments nothing is bound. *)
Lemma bindArgs_nil params (i : nat) (provided : gmap string string) :
  bindArgs i params [] provided = provided.
Proof.
  revert i. induction params as [|p rest IH]; intros i; simpl; [done |].
  apply IH.
Qed.

Lemma appendRequired_filter params (required : list Param.t) :
  appendRequired params required
  = required ++ filter (λ p, Param.Required p = true) params.
Proof.
  revert required. induction params as [|p rest IH]; intros required; simpl.
  - by rewrite app_nil_r.
  - rewrite IH. destruct (Param.Required p) eqn:Hr.
    + rewrite filter_cons_True by done. by rewrite <- app_assoc.
    + by rewrite filter_cons_False by congruence.
Qed.

Lemma appendOptional_filter params (optional : list Param.t) :
  appendOptional params optional
  = optional ++ filter (λ p, Param.Required p ≠ true) params.
Proof.
  revert optional. induction params as [|p rest IH]; intros optional; simpl.
  - by rewrite app_nil_r.
  - rewrite IH. destruct (Param.Required p) eqn:Hr; simpl.
    + rewrite filter_cons_False; [done |]. intros Hn. by apply Hn.
    + rewrite filter_cons_True by congruence. by rewrite <- app_assoc.
Qed.

(** With an empty map, the second loop of [ParseCommand] reports the
    first required parameter. *)
Lemma checkRequired_empty params :
  checkRequired params ∅
  = match filter (λ p, Param.Required p = true) params with
    | [] => None
    | p :: _ => Some (MissingRequiredParameter (Param.Name p))
    end.
Proof.
  induction params as [|p rest IH]; simpl; [done |].
  unfold hasKey. rewrite lookup_empty. simpl.
  destruct (Param.Required p) eqn:Hr; simpl.
  - by rewrite filter_cons_True by done.
  - by rewrite filter_cons_False by congruence.
Qed.

(** [ParseCommand] without arguments succeeds exactly when
    [GetRequiredParams] returns no parameter, and otherwise fails naming
    the first parameter [GetRequiredParams] returns. *)
Theorem ParseCommand_no_arguments a :
  match GetRequiredParams a with
  | [] => (ParseCommand a []).2 = None
  | p :: _ =>
      ParseCommand a []
      = (EmptyString, Some (MissingRequiredParameter (Param.Name p)))
  end.
Proof.
  unfold GetRequiredParams, ParseCommand.
  rewrite appendRequired_filter, bindArgs_nil, checkRequired_empty. simpl.
  by destruct (filter _ (Alias.Params a)).
Qed.

(** With at least as many arguments as declared parameters
    [ParseCommand] does not fail. *)
Theorem ParseCommand_enough_arguments a args :
  length (Alias.Params a) ≤ length args →
  (ParseCommand a args).2 = None.
Proof.
  intros Hlen. unfold ParseCommand. rewrite requiredMet_check; [done |].
  intros i p Hp _. apply lookup_lt_Some in Hp. lia.
Qed.

Lemma ParseCommand_enough_arguments_witness :
  length (Alias.Params sample.dup) ≤ length ["a"; "b"; "c"]
  ∧ (ParseCommand sample.dup ["a"; "b"; "c"]).2 = None.
Proof.
  assert (length (Alias.Params sample.dup) ≤ length ["a"; "b"; "c"]) as Hlen
    by (simpl; lia).
  split; [exact Hlen |].
  exact (ParseCommand_enough_arguments sample.dup ["a"; "b"; "c"] Hlen).
Defined.

Lemma formatLoop_substitute params (command : string) :
  (∀ p, p ∈ params → Param.Default p ≠ EmptyString) →
  formatLoop params command = substitute params ∅ command.
Proof.
  revert command. induction params as [|p rest IH]; intros command Hdef;
    cbn [formatLoop substitute]; [done |].
  assert (exampleValue p = boundValue ∅ p) as ->.
  { unfold exampleValue, boundValue. rewrite lookup_empty.
    destruct (String.eqb (Param.Default p) EmptyString) eqn:Heq; [| done].
    apply String.eqb_eq in Heq. exfalso. apply (Hdef p); [left | done]. }
  apply IH. intros q Hq. apply Hdef. by right.
Qed.

(** For an alias whose parameters are all optional with a non-empty
    default, [FormatExample] shows the very command that [ParseCommand]
    expands to when the alias is run without arguments. *)
Theorem FormatExample_is_default_run a :
  (∀ p, p ∈ Alias.Params a →
        Param.Required p = false ∧ Param.Default p ≠ EmptyString) →
  ParseCommand a [] = (FormatExample a, None).
Proof.
  intros Hopt. unfold ParseCommand, FormatExample.
  rewrite bindArgs_nil, checkRequired_empty.
  assert (filter (λ p, Param.Required p = true) (Alias.Params a) = []) as ->.
  { apply elem_of_nil_inv. intros p [Hr Hp]%list_elem_of_filter.
    destruct (Hopt p Hp) as [Hf _]. congruence. }
  f_equal. symmetry. apply formatLoop_substitute.
  intros p Hp. by destruct (Hopt p Hp).
Qed.

Lemma FormatExample_is_default_run_witness :
  (∀ p, p ∈ Alias.Params sample.gp →
        Param.Required p = false ∧ Param.Default p ≠ EmptyString)
  ∧ ParseCommand sample.gp [] = (FormatExample sample.gp, None).
Proof.
  assert (∀ p, p ∈ Alias.Params sample.gp →
            Param.Required p = false ∧ Param.Default p ≠ EmptyString) as Hopt.
  { intros p Hp%list_elem_of_singleton. subst p. split; [reflexivity | discriminate]. }
  split; [exact Hopt |].
  exact (FormatExample_is_default_run sample.gp Hopt).
Defined.

(** [GetRequiredParams] and [GetOptionalParams] split the declared
    parameters in two: each keeps the declaration order, and together
    they hold every declared parameter once. *)
Theorem required_optional_partition a :
  GetRequiredParams a = filter (λ p, Param.Required p = true) (Alias.Params a)
  ∧ GetOptionalParams a = filter (λ p, Param.Required p ≠ true) (Alias.Params a)
  ∧ GetRequiredParams a ++ GetOptionalParams a ≡ₚ Alias.Params a.
Proof.
  unfold GetRequiredParams, GetOptionalParams.
  rewrite appendRequired_filter, appendOptional_filter. simpl.
  repeat split. apply filter_app_complement.
Qed.

Lemma setNames_fmap params (i : nat) (names : list string) :
  i + length params ≤ length names →
  setNames i params names
  = take i names ++ (Param.Name <$> params) ++ drop (i + length params) names.
Proof.
  revert i names. induction params as [|p rest IH]; intros i names Hlen; simpl.
  - rewrite Nat.add_0_r. by rewrite take_drop.
  - simpl in Hlen. rewrite IH by (rewrite length_insert; lia).
    rewrite (take_S_r _ i (Param.Name p))
      by (apply list_lookup_insert_eq; lia).
    rewrite take_insert_ge by lia. rewrite drop_insert_lt by lia.
    rewrite <- app_assoc. simpl.
    by replace (S (i + length rest)) with (i + S (length rest)) by lia.
Qed.

(** [GetParamNames] fills every slot it allocates: it returns the names
    of the declared parameters, one for one in declaration order. *)
Theorem GetParamNames_names a :
  GetParamNames a = Param.Name <$> Alias.Params a
  ∧ length (GetParamNames a) = length (Alias.Params a).
Proof.
  assert (GetParamNames a = Param.Name <$> Alias.Params a) as Heq.
  { unfold GetParamNames.
    rewrite setNames_fmap by (rewrite length_replicate; lia). simpl.
    rewrite drop_ge by (rewrite length_replicate; lia).
    by rewrite app_nil_r. }
  split; [exact Heq |]. by rewrite Heq, length_fmap.
Qed.

End ParserMore.

(* ===================================================================== *)
(** * More of the alias store: find, remove, update *)
(* ===================================================================== *)

Section StoreMore.
Import os config spec vocab.

Implicit Types (alias : Alias.t) (aliases : list Alias.t) (name : string)
  (w : World) (cfg : Config.t).



Lemma ensureLoaded_loaded w : loaded w = true → ensureLoaded w = (Ok None, w).
Proof. intros Hl. unfold ensureLoaded, bind, get, ret. by rewrite Hl. Qed.

Lemma FindAlias_run name w cfg :
  loaded w = true → globalConfig w = Some cfg →
  FindAlias name w
  = (Ok match findByName (Config.Aliases cfg) name with
        | Some a => (a, true)
        | None => (Alias.mk EmptyString EmptyString EmptyString [], false)
        end, w).
Proof.
  intros Hl Hcfg. unfold FindAlias.
  rewrite (bind_Ok _ _ _ _ _ (ensureLoaded_loaded w Hl)).
  unfold bind, get. rewrite Hcfg. by destruct (findByName _ _).
Qed.

Lemma AddAlias_run alias w cfg :
  loaded w = true → globalConfig w = Some cfg →
  AddAlias alias w
  = match findByName (Config.Aliases cfg) (Alias.Name alias) with
    | Some _ =>
        (Ok (Some ("alias '" +:+ Alias.Name alias +:+ "' already exists")), w)
    | None =>
        saveInternal
          (set_config (Some (withAliases cfg (Config.Aliases cfg ++ [alias])))
             true w)
    end.
Proof.
  intros Hl Hcfg. unfold AddAlias.
  rewrite (bind_Ok _ _ _ _ _ (ensureLoaded_loaded w Hl)).
  unfold bind, get, modify. rewrite Hcfg, Hl.
  by destruct (findByName _ _).
Qed.

Lemma RemoveAlias_run name w cfg :
  loaded w = true → globalConfig w = Some cfg →
  RemoveAlias name w
  = let '(found, newAliases) := removeLoop (Config.Aliases cfg) name false [] in
    if found
    then saveInternal (set_config (Some (withAliases cfg newAliases)) true w)
    else (Ok (Some ("alias '" +:+ name +:+ "' not found")), w).
Proof.
  intros Hl Hcfg. unfold RemoveAlias.
  rewrite (bind_Ok _ _ _ _ _ (ensureLoaded_loaded w Hl)).
  unfold bind, get, modify. rewrite Hcfg, Hl.
  destruct (removeLoop _ _ _ _) as [[|] newAliases]; done.
Qed.

Lemma UpdateAlias_run alias w cfg :
  loaded w = true → globalConfig w = Some cfg →
  UpdateAlias alias w
  = let '(found, aliases) :=
      updateLoop 0 (Config.Aliases cfg) (Config.Aliases cfg) alias in
    if found
    then saveInternal (set_config (Some (withAliases cfg aliases)) true w)
    else (Ok (Some ("alias '" +:+ Alias.Name alias +:+ "' not found")), w).
Proof.
  intros Hl Hcfg. unfold UpdateAlias.
  rewrite (bind_Ok _ _ _ _ _ (ensureLoaded_loaded w Hl)).
  unfold bind, get, modify. rewrite Hcfg, Hl.
  destruct (updateLoop _ _ _ _) as [[|] aliases]; done.
Qed.

(** The first alias of a name, and what stands before and after it. *)
Lemma findByName_split aliases name (a : Alias.t) :
  findByName aliases name = Some a →
  ∃ pre post, aliases = pre ++ a :: post ∧ Alias.Name a = name
              ∧ ∀ b, b ∈ pre → Alias.Name b ≠ name.
Proof.
  induction aliases as [|b rest IH]; simpl; [done |].
  destruct (String.eqb (Alias.Name b) name) eqn:Heq.
  - intros [= <-]. apply String.eqb_eq in Heq.
    exists [], rest. repeat split; try done. intros c Hc.
    by apply elem_of_nil in Hc.
  - intros (pre & post & -> & Hname & Hpre)%IH. apply String.eqb_neq in Heq.
    exists (b :: pre), post. repeat split; try done.
    intros c [-> | Hc]%elem_of_cons; [done | by apply Hpre].
Qed.

Lemma findByName_first (pre post : list Alias.t) (a : Alias.t) name :
  Alias.Name a = name → (∀ b, b ∈ pre → Alias.Name b ≠ name) →
  findByName (pre ++ a :: post) name = Some a.
Proof.
  intros Hname. induction pre as [|b pre IH]; intros Hpre; simpl.
  - apply String.eqb_eq in Hname. by rewrite Hname.
  - assert (Alias.Name b ≠ name) as Hb by (apply Hpre; left).
    apply String.eqb_neq in Hb. rewrite Hb. apply IH.
    intros c Hc. apply Hpre. by right.
Qed.

Lemma findByName_taken cfg name :
  nameTaken cfg name ↔ is_Some (findByName (Config.Aliases cfg) name).
Proof.
  split.
  - intros (b & Hb & Hname).
    destruct (findByName (Config.Aliases cfg) name) eqn:Hf; [eauto |].
    exfalso. by apply (findByName_None _ _ Hf b).
  - intros [a Ha]. exists a. by apply findByName_Some.
Qed.

(** [FindAlias], the configuration being loaded, leaves the world as it
    is; it reports [true] exactly when the name is taken, and then
    returns the first stored alias of that name. *)
Theorem FindAlias_first_of_name name w cfg :
  loaded w = true → globalConfig w = Some cfg →
  ∃ a (found : bool),
    FindAlias name w = (Ok (a, found), w)
    ∧ (found = true ↔ nameTaken cfg name)
    ∧ (found = true →
       ∃ pre post, Config.Aliases cfg = pre ++ a :: post
                   ∧ Alias.Name a = name
                   ∧ ∀ b, b ∈ pre → Alias.Name b ≠ name).
Proof.
  intros Hl Hcfg. rewrite (FindAlias_run name w cfg Hl Hcfg).
  pose proof (findByName_taken cfg name) as Htaken.
  destruct (findByName (Config.Aliases cfg) name) as [a|] eqn:Hf.
  - exists a, true. split; [done |]. split.
    + split; [intros _; apply Htaken; eauto | done].
    + intros _. by apply findByName_split.
  - eexists _, false. split; [done |]. split; [| done].
    split; [done |]. intros [? [=]]%Htaken.
Qed.

Lemma FindAlias_first_of_name_witness :
  ∃ a (found : bool),
    FindAlias "gp" sample.ready = (Ok (a, found), sample.ready)
    ∧ (found = true ↔ nameTaken sample.cfg "gp")
    ∧ (found = true →
       ∃ pre post, Config.Aliases sample.cfg = pre ++ a :: post
                   ∧ Alias.Name a = "gp"
                   ∧ ∀ b, b ∈ pre → Alias.Name b ≠ "gp").
Proof.
  apply (FindAlias_first_of_name "gp" sample.ready sample.cfg); reflexivity.
Defined.

Lemma stored_run w aliases :
  stored w aliases →
  loaded w = true ∧ ∃ cfg, globalConfig w = Some cfg ∧ Config.Aliases cfg = aliases.
Proof. done. Qed.

Lemma findByName_free aliases name :
  name ∉ aliasNames aliases ↔ findByName aliases name = None.
Proof.
  unfold aliasNames. split.
  - intros Hfree. destruct (findByName aliases name) as [a|] eqn:Hf; [| done].
    apply findByName_Some in Hf as [Hin <-]. exfalso. apply Hfree.
    apply list_elem_of_fmap. eauto.
  - intros Hnone (b & -> & Hb)%list_elem_of_fmap.
    by apply (findByName_None _ _ Hnone b).
Qed.

(** After a save the configuration in memory is what it was. *)
Lemma saveInternal_stored w aliases :
  stored w aliases →
  ∃ err w', saveInternal w = (Ok err, w') ∧ stored w' aliases
            ∧ configOnly w w'.
Proof.
  intros (Hl & cfg & Hcfg & Hal).
  destruct (saveInternal_spec w) as (err & w' & HS & Hg & Hld & Hco).
  exists err, w'. split; [done |]. split; [| done].
  split; [congruence |]. exists cfg. split; [congruence | done].
Qed.

(** [AddAlias] of a name that is free appends the alias in memory
    whatever becomes of the save, and [FindAlias] then finds it. *)
Theorem AddAlias_then_FindAlias alias w aliases :
  stored w aliases →
  Alias.Name alias ∉ aliasNames aliases →
  ∃ err w',
    AddAlias alias w = (Ok err, w')
    ∧ stored w' (aliases ++ [alias])
    ∧ FindAlias (Alias.Name alias) w' = (Ok (alias, true), w').
Proof.
  intros (Hl & cfg & Hcfg & <-) Hfree%findByName_free.
  rewrite (AddAlias_run alias w cfg Hl Hcfg), Hfree.
  match goal with |- context [saveInternal ?w1] =>
    destruct (saveInternal_stored w1 (Config.Aliases cfg ++ [alias]))
      as (err & w' & -> & Hst & _)
  end.
  { split; [done |]. eexists. by split. }
  exists err, w'. split; [done |]. split; [done |].
  destruct Hst as (Hl' & cfg' & Hcfg' & Hal').
  rewrite (FindAlias_run _ w' cfg' Hl' Hcfg'), Hal'.
  rewrite (findByName_first (Config.Aliases cfg) [] alias); [done | done |].
  intros b Hb. by apply (findByName_None _ _ Hfree).
Qed.

Lemma AddAlias_then_FindAlias_witness :
  ∃ err w',
    AddAlias sample.gs sample.ready = (Ok err, w')
    ∧ stored w' (Config.Aliases sample.cfg ++ [sample.gs])
    ∧ FindAlias (Alias.Name sample.gs) w' = (Ok (sample.gs, true), w').
Proof.
  apply (AddAlias_then_FindAlias sample.gs sample.ready
           (Config.Aliases sample.cfg)).
  - split; [reflexivity |]. exists sample.cfg. split; reflexivity.
  - vm_compute. intros Hin. repeat (apply elem_of_cons in Hin as [Heq | Hin];
      [discriminate Heq |]). by apply elem_of_nil in Hin.
Defined.



Example AddAlias_on_readonly_disk :
  let '(err, w') := AddAlias sample.gs readonly in
  err = Ok (Some "failed to write config file: read-only file system")
  ∧ configFile w' = Contents "version: 0"
  ∧ (FindAlias "gs" w').1 = Ok (sample.gs, true).
Proof. vm_compute. done. Qed.

(** On a disk that fills up the alias is in memory and the file holds
    the nine bytes that were written. *)
Example AddAlias_on_full_disk :
  let '(err, w') :=
    AddAlias sample.gs (set_config (Some sample.cfg) true sample.full) in
  err = Ok (Some "failed to write config file: no space left on device")
  ∧ configFile w' = Contents "version: "
  ∧ (FindAlias "gs" w').1 = Ok (sample.gs, true).
Proof. vm_compute. done. Qed.

Lemma removeLoop_spec aliases name (found : bool) (newAliases : list Alias.t) :
  removeLoop aliases name found newAliases
  = (found || bool_decide (name ∈ aliasNames aliases),
     newAliases ++ filter (λ a, Alias.Name a ≠ name) aliases).
Proof.
  revert found newAliases. unfold aliasNames.
  induction aliases as [|a rest IH]; intros found newAliases; cbn [removeLoop].
  - rewrite bool_decide_false by apply not_elem_of_nil.
    by rewrite orb_false_r, app_nil_r.
  - destruct (String.eqb (Alias.Name a) name) eqn:Heq.
    + apply String.eqb_eq in Heq. rewrite IH.
      rewrite filter_cons_False by (intros Hn; by apply Hn).
      rewrite (bool_decide_true (name ∈ Alias.Name <$> a :: rest)).
      2:{ rewrite fmap_cons, Heq. left. }
      by rewrite orb_true_r.
    + apply String.eqb_neq in Heq. rewrite IH.
      rewrite filter_cons_True by done. rewrite <- app_assoc.
      f_equal. f_equal. apply bool_decide_ext. rewrite fmap_cons, elem_of_cons.
      split; [tauto |]. intros [Hn | Hn]; [congruence | done].
Qed.

Lemma filter_other_names aliases name :
  name ∉ aliasNames aliases →
  filter (λ a, Alias.Name a ≠ name) aliases = aliases.
Proof.
  unfold aliasNames. induction aliases as [|a rest IH]; intros Hfree; [done |].
  rewrite fmap_cons, not_elem_of_cons in Hfree. destruct Hfree as [Hne Hfree].
  rewrite filter_cons_True by congruence. by rewrite IH.
Qed.

Lemma filter_names_free aliases name :
  name ∉ aliasNames (filter (λ a, Alias.Name a ≠ name) aliases).
Proof.
  unfold aliasNames. intros (b & -> & Hb)%list_elem_of_fmap.
  apply list_elem_of_filter in Hb as [Hne _]. by apply Hne.
Qed.

(** The store functions on a loaded configuration, in terms of the
    stored list. *)
Lemma FindAlias_stored name w aliases :
  stored w aliases →
  FindAlias name w
  = (Ok match findByName aliases name with
        | Some a => (a, true)
        | None => (zeroAlias, false)
        end, w).
Proof. intros (Hl & cfg & Hcfg & <-). by apply FindAlias_run. Qed.

Lemma AddAlias_stored alias w aliases :
  stored w aliases →
  Alias.Name alias ∉ aliasNames aliases →
  ∃ err w', AddAlias alias w = (Ok err, w') ∧ stored w' (aliases ++ [alias]).
Proof.
  intros (Hl & cfg & Hcfg & <-) Hfree%findByName_free.
  rewrite (AddAlias_run alias w cfg Hl Hcfg), Hfree.
  match goal with |- context [saveInternal ?w1] =>
    destruct (saveInternal_stored w1 (Config.Aliases cfg ++ [alias]))
      as (err & w' & -> & Hst & _)
  end.
  { split; [done |]. eexists. by split. }
  by exists err, w'.
Qed.

Lemma AddAlias_refused alias w aliases :
  stored w aliases →
  Alias.Name alias ∈ aliasNames aliases →
  AddAlias alias w
  = (Ok (Some ("alias '" +:+ Alias.Name alias +:+ "' already exists")), w).
Proof.
  intros (Hl & cfg & Hcfg & <-) Htaken.
  rewrite (AddAlias_run alias w cfg Hl Hcfg).
  destruct (findByName _ _) eqn:Hf; [done |].
  by apply findByName_free in Hf.
Qed.

Lemma RemoveAlias_stored name w aliases :
  stored w aliases →
  name ∈ aliasNames aliases →
  ∃ err w', RemoveAlias name w = (Ok err, w')
            ∧ stored w' (filter (λ a, Alias.Name a ≠ name) aliases).
Proof.
  intros (Hl & cfg & Hcfg & <-) Hname.
  rewrite (RemoveAlias_run name w cfg Hl Hcfg), removeLoop_spec. simpl.
  rewrite bool_decide_true by done.
  match goal with |- context [saveInternal ?w1] =>
    destruct (saveInternal_stored w1
                (filter (λ a, Alias.Name a ≠ name) (Config.Aliases cfg)))
      as (err & w' & -> & Hst & _)
  end.
  { split; [done |]. eexists. by split. }
  by exists err, w'.
Qed.

Lemma RemoveAlias_refused name w aliases :
  stored w aliases →
  name ∉ aliasNames aliases →
  RemoveAlias name w = (Ok (Some ("alias '" +:+ name +:+ "' not found")), w).
Proof.
  intros (Hl & cfg & Hcfg & <-) Hname.
  rewrite (RemoveAlias_run name w cfg Hl Hcfg), removeLoop_spec. simpl.
  by rewrite bool_decide_false.
Qed.

(** [RemoveAlias], the configuration being loaded: a name that is not
    stored gives an error and leaves the world as it is; a stored name
    is removed wherever it stands, the other aliases keep their order,
    and [FindAlias] no longer finds the name. *)
Theorem RemoveAlias_removes_name name w aliases :
  stored w aliases →
  (name ∉ aliasNames aliases →
   RemoveAlias name w = (Ok (Some ("alias '" +:+ name +:+ "' not found")), w))
  ∧ (name ∈ aliasNames aliases →
     ∃ err w',
       RemoveAlias name w = (Ok err, w')
       ∧ stored w' (filter (λ a, Alias.Name a ≠ name) aliases)
       ∧ FindAlias name w' = (Ok (zeroAlias, false), w')).
Proof.
  intros Hst. split; intros Hname.
  - by apply RemoveAlias_refused with aliases.
  - destruct (RemoveAlias_stored name w aliases Hst Hname)
      as (err & w' & HR & Hst').
    exists err, w'. split; [done |]. split; [done |].
    rewrite (FindAlias_stored _ w' _ Hst').
    by rewrite (proj1 (findByName_free _ name) (filter_names_free _ name)).
Qed.

Lemma RemoveAlias_removes_name_witness :
  (("gp" : string) ∉ aliasNames (Config.Aliases sample.cfg) →
   RemoveAlias "gp" sample.ready
   = (Ok (Some ("alias '" +:+ "gp" +:+ "' not found")), sample.ready))
  ∧ (("gp" : string) ∈ aliasNames (Config.Aliases sample.cfg) →
     ∃ err w',
       RemoveAlias "gp" sample.ready = (Ok err, w')
       ∧ stored w' (filter (λ a, Alias.Name a ≠ "gp")
                      (Config.Aliases sample.cfg))
       ∧ FindAlias "gp" w' = (Ok (zeroAlias, false), w')).
Proof.
  apply (RemoveAlias_removes_name "gp" sample.ready (Config.Aliases sample.cfg)).
  split; [reflexivity |]. exists sample.cfg. split; reflexivity.
Defined.

(** Adding an alias of a free name and removing that name again gives
    back the stored list. *)
Theorem AddAlias_then_RemoveAlias alias w aliases :
  stored w aliases →
  Alias.Name alias ∉ aliasNames aliases →
  ∃ err1 w1 err2 w2,
    AddAlias alias w = (Ok err1, w1)
    ∧ RemoveAlias (Alias.Name alias) w1 = (Ok err2, w2)
    ∧ stored w2 aliases.
Proof.
  intros Hst Hfree.
  destruct (AddAlias_stored alias w aliases Hst Hfree) as (err1 & w1 & HA & Hst1).
  destruct (RemoveAlias_stored (Alias.Name alias) w1 _ Hst1)
    as (err2 & w2 & HR & Hst2).
  { unfold aliasNames. rewrite fmap_app. apply elem_of_app. right. left. }
  exists err1, w1, err2, w2. split; [done |]. split; [done |].
  rewrite filter_app, filter_other_names in Hst2 by done.
  rewrite filter_cons_False, filter_nil, app_nil_r in Hst2; [done |].
  intros Hn. by apply Hn.
Qed.

Lemma AddAlias_then_RemoveAlias_witness :
  ∃ err1 w1 err2 w2,
    AddAlias sample.gs sample.ready = (Ok err1, w1)
    ∧ RemoveAlias (Alias.Name sample.gs) w1 = (Ok err2, w2)
    ∧ stored w2 (Config.Aliases sample.cfg).
Proof.
  apply (AddAlias_then_RemoveAlias sample.gs sample.ready
           (Config.Aliases sample.cfg)).
  - split; [reflexivity |]. exists sample.cfg. split; reflexivity.
  - vm_compute. intros Hin. repeat (apply elem_of_cons in Hin as [Heq | Hin];
      [discriminate Heq |]). by apply elem_of_nil in Hin.
Defined.

Lemma updateLoop_absent (i : nat) (remaining aliases : list Alias.t) alias :
  findByName remaining (Alias.Name alias) = None →
  updateLoop i remaining aliases alias = (false, aliases).
Proof.
  revert i. induction remaining as [|a rest IH]; intros i; simpl; [done |].
  destruct (String.eqb (Alias.Name a) (Alias.Name alias)); [done |]. apply IH.
Qed.

Lemma updateLoop_first (pre0 pre post : list Alias.t) (a alias : Alias.t) :
  Alias.Name a = Alias.Name alias →
  (∀ b, b ∈ pre → Alias.Name b ≠ Alias.Name alias) →
  updateLoop (length pre0) (pre ++ a :: post) (pre0 ++ pre ++ a :: post) alias
  = (true, pre0 ++ pre ++ alias :: post).
Proof.
  intros Hname. revert pre0.
  induction pre as [|b pre IH]; intros pre0 Hpre; simpl.
  - apply String.eqb_eq in Hname. rewrite Hname. f_equal.
    rewrite <- (Nat.add_0_r (length pre0)). by rewrite insert_app_r.
  - assert (Alias.Name b ≠ Alias.Name alias) as Hb by (apply Hpre; left).
    apply String.eqb_neq in Hb. rewrite Hb.
    specialize (IH (pre0 ++ [b])). rewrite length_app in IH. simpl in IH.
    rewrite Nat.add_1_r, <- !app_assoc in IH. simpl in IH.
    apply IH. intros c Hc. apply Hpre. by right.
Qed.

Lemma UpdateAlias_stored alias w (pre post : list Alias.t) (a : Alias.t) :
  stored w (pre ++ a :: post) →
  Alias.Name a = Alias.Name alias →
  (∀ b, b ∈ pre → Alias.Name b ≠ Alias.Name alias) →
  ∃ err w', UpdateAlias alias w = (Ok err, w')
            ∧ stored w' (pre ++ alias :: post).
Proof.
  intros (Hl & cfg & Hcfg & Hal) Hname Hpre.
  rewrite (UpdateAlias_run alias w cfg Hl Hcfg), Hal.
  pose proof (updateLoop_first [] pre post a alias Hname Hpre) as Hu.
  simpl in Hu. rewrite Hu. simpl.
  match goal with |- context [saveInternal ?w1] =>
    destruct (saveInternal_stored w1 (pre ++ alias :: post))
      as (err & w' & -> & Hst & _)
  end.
  { split; [done |]. eexists. by split. }
  by exists err, w'.
Qed.

Lemma UpdateAlias_refused alias w aliases :
  stored w aliases →
  Alias.Name alias ∉ aliasNames aliases →
  UpdateAlias alias w
  = (Ok (Some ("alias '" +:+ Alias.Name alias +:+ "' not found")), w).
Proof.
  intros (Hl & cfg & Hcfg & <-) Hfree%findByName_free.
  rewrite (UpdateAlias_run alias w cfg Hl Hcfg).
  by rewrite updateLoop_absent.
Qed.

(** [UpdateAlias], the configuration being loaded: a name that is not
    stored gives an error and leaves the world as it is; otherwise the
    first stored alias of the name is replaced where it stands, every
    other alias is kept, and [FindAlias] then returns the new alias. *)
Theorem UpdateAlias_replaces_first alias w aliases :
  stored w aliases →
  (Alias.Name alias ∉ aliasNames aliases →
   UpdateAlias alias w
   = (Ok (Some ("alias '" +:+ Alias.Name alias +:+ "' not found")), w))
  ∧ (∀ pre a post,
       aliases = pre ++ a :: post →
       Alias.Name a = Alias.Name alias →
       (∀ b, b ∈ pre → Alias.Name b ≠ Alias.Name alias) →
       ∃ err w',
         UpdateAlias alias w = (Ok err, w')
         ∧ stored w' (pre ++ alias :: post)
         ∧ FindAlias (Alias.Name alias) w' = (Ok (alias, true), w')).
Proof.
  intros Hst. split.
  - by apply UpdateAlias_refused.
  - intros pre a post -> Hname Hpre.
    destruct (UpdateAlias_stored alias w pre post a Hst Hname Hpre)
      as (err & w' & HU & Hst').
    exists err, w'. split; [done |]. split; [done |].
    rewrite (FindAlias_stored _ w' _ Hst').
    by rewrite (findByName_first pre post alias).
Qed.

Lemma UpdateAlias_replaces_first_witness :
  let gp' := Alias.mk "gp" "git push upstream {{branch}}" "Push upstream"
               [sample.branch] in
  (Alias.Name gp' ∉ aliasNames (Config.Aliases sample.cfg) →
   UpdateAlias gp' sample.ready
   = (Ok (Some ("alias '" +:+ Alias.Name gp' +:+ "' not found")), sample.ready))
  ∧ (∀ pre a post,
       Config.Aliases sample.cfg = pre ++ a :: post →
       Alias.Name a = Alias.Name gp' →
       (∀ b, b ∈ pre → Alias.Name b ≠ Alias.Name gp') →
       ∃ err w',
         UpdateAlias gp' sample.ready = (Ok err, w')
         ∧ stored w' (pre ++ gp' :: post)
         ∧ FindAlias (Alias.Name gp') w' = (Ok (gp', true), w')).
Proof.
  intros gp'.
  apply (UpdateAlias_replaces_first gp' sample.ready (Config.Aliases sample.cfg)).
  split; [reflexivity |]. exists sample.cfg. split; reflexivity.
Defined.

Example UpdateAlias_in_place :
  let gp' := Alias.mk "gp" "git push upstream {{branch}}" "Push upstream"
               [sample.branch] in
  Config.Aliases <$> globalConfig (UpdateAlias gp' sample.ready).2
  = Some [sample.gc; gp'].
Proof. reflexivity. Qed.

(** Unique names are kept: when no two stored aliases share a name, none
    do after [AddAlias], [RemoveAlias] or [UpdateAlias], whatever these
    are given and whatever they return. *)
Theorem store_keeps_names_unique w aliases :
  stored w aliases →
  NoDup (aliasNames aliases) →
  (∀ alias, ∃ err w' aliases',
      AddAlias alias w = (Ok err, w')
      ∧ stored w' aliases' ∧ NoDup (aliasNames aliases'))
  ∧ (∀ name, ∃ err w' aliases',
      RemoveAlias name w = (Ok err, w')
      ∧ stored w' aliases' ∧ NoDup (aliasNames aliases'))
  ∧ (∀ alias, ∃ err w' aliases',
      UpdateAlias alias w = (Ok err, w')
      ∧ stored w' aliases' ∧ NoDup (aliasNames aliases')).
Proof.
  intros Hst Hnd. split; [| split].
  - intros alias.
    destruct (decide (Alias.Name alias ∈ aliasNames aliases)) as [Hin|Hfree].
    + rewrite (AddAlias_refused alias w aliases Hst Hin). by eexists _, w, aliases.
    + destruct (AddAlias_stored alias w aliases Hst Hfree)
        as (err & w' & -> & Hst').
      exists err, w', (aliases ++ [alias]). split; [done |]. split; [done |].
      unfold aliasNames in *. rewrite fmap_app. apply NoDup_app.
      split; [done |]. split; [| apply NoDup_singleton].
      intros n Hn Hn'%list_elem_of_singleton. by subst n.
  - intros name.
    destruct (decide (name ∈ aliasNames aliases)) as [Hin|Hfree].
    + destruct (RemoveAlias_stored name w aliases Hst Hin)
        as (err & w' & -> & Hst').
      eexists err, w', _. split; [done |]. split; [done |].
      apply (sublist_NoDup _ (aliasNames aliases)); [done |].
      unfold aliasNames. apply fmap_sublist, sublist_filter.
    + rewrite (RemoveAlias_refused name w aliases Hst Hfree).
      by eexists _, w, aliases.
  - intros alias.
    destruct (findByName aliases (Alias.Name alias)) as [a|] eqn:Hf.
    + apply findByName_split in Hf as (pre & post & -> & Hname & Hpre).
      destruct (UpdateAlias_stored alias w pre post a Hst Hname Hpre)
        as (err & w' & -> & Hst').
      eexists err, w', _. split; [done |]. split; [done |].
      unfold aliasNames in *. rewrite fmap_app, fmap_cons in *.
      by rewrite <- Hname.
    + apply findByName_free in Hf.
      rewrite (UpdateAlias_refused alias w aliases Hst Hf).
      by eexists _, w, aliases.
Qed.

Lemma store_keeps_names_unique_witness :
  (∀ alias, ∃ err w' aliases',
      AddAlias alias sample.ready = (Ok err, w')
      ∧ stored w' aliases' ∧ NoDup (aliasNames aliases'))
  ∧ (∀ name, ∃ err w' aliases',
      RemoveAlias name sample.ready = (Ok err, w')
      ∧ stored w' aliases' ∧ NoDup (aliasNames aliases'))
  ∧ (∀ alias, ∃ err w' aliases',
      UpdateAlias alias sample.ready = (Ok err, w')
      ∧ stored w' aliases' ∧ NoDup (aliasNames aliases')).
Proof.
  apply (store_keeps_names_unique sample.ready (Config.Aliases sample.cfg)).
  - split; [reflexivity |]. exists sample.cfg. split; reflexivity.
  - vm_compute. apply NoDup_cons. split; [| apply NoDup_singleton].
    intros Hin%list_elem_of_singleton. discriminate Hin.
Defined.

End StoreMore.

(* ===================================================================== *)
(** * The life of the configuration: first run and later reads *)
(* ===================================================================== *)

Section ConfigLife.
Import os config spec vocab.

Implicit Types (w : World) (cfg : Config.t).


(** The configuration is read from disk once: after a [Get] that reports
    no error the configuration is loaded, and a further [Get] returns
    the same configuration and leaves the world as it is. *)
Theorem Get_loads_once w (cfg : option Config.t) w' :
  wf w →
  Get w = (Ok (cfg, None), w') →
  loaded w' = true ∧ is_Some cfg ∧ Get w' = (Ok (cfg, None), w').
Proof.
  intros Hwf HG. unfold Get in HG.
  destruct (ensureLoaded_spec w Hwf) as (err & w1 & HE & Hwf1 & _ & Hok).
  rewrite (bind_Ok _ _ _ _ _ HE) in HG.
  destruct err as [e|]; [discriminate HG |].
  unfold bind, get, ret in HG. injection HG as <- <-.
  specialize (Hok eq_refl). split; [done |]. split; [by apply Hwf1 |].
  unfold Get. rewrite (bind_Ok _ _ _ _ _ (ensureLoaded_loaded w1 Hok)). done.
Qed.

Lemma Get_loads_once_witness :
  wf sample.fresh
  ∧ ∃ (cfg : option Config.t) w',
      Get sample.fresh = (Ok (cfg, None), w')
      ∧ loaded w' = true ∧ is_Some cfg ∧ Get w' = (Ok (cfg, None), w').
Proof.
  assert (wf sample.fresh) as Hwf by (intros Hl; discriminate Hl).
  split; [exact Hwf |].
  eexists _, _. split; [reflexivity |].
  apply (Get_loads_once sample.fresh _ _ Hwf). reflexivity.
Defined.



(** The first run on a disk that fills up: the error is reported, a file
    of nine bytes is left, and the next [Get] reports nothing. *)
Example Get_on_full_disk :
  let '(r, w') := Get sample.full in
  r = Ok (None, Some "failed to write config file: no space left on device")
  ∧ configFile w' = Contents "version: "
  ∧ (Get w').1 = Ok (globalConfig w', None)
  ∧ aliasNames <$> (Config.Aliases <$> globalConfig w')
    = Some ["gs"; "gc"; "gp"].
Proof. vm_compute. done. Qed.

End ConfigLife.

(* ===================================================================== *)
(** * More of the process runner: the shell and the command line *)
(* ===================================================================== *)

Section ExecuteMore.
Import os config executor spec vocab.

Implicit Types (command shell : string) (w : World) (opts : ExecuteOptions).

Lemma GetDefaultShell_choice w :
  GetDefaultShell w
  = (Ok (if String.eqb (GOOS w) "windows"
         then firstNonEmpty [getenv w "SHELL"; "cmd"]
         else firstNonEmpty [getenv w "SHELL"; "/bin/sh"]), w).
Proof.
  unfold GetDefaultShell, bind, get, ret. simpl.
  by destruct (String.eqb (getenv w "SHELL") EmptyString),
              (String.eqb (GOOS w) "windows").
Qed.

Lemma GetDefaultShell_nonempty w shell w' :
  GetDefaultShell w = (Ok shell, w') → shell ≠ EmptyString.
Proof.
  rewrite GetDefaultShell_choice. intros [= <- _]. simpl.
  destruct (String.eqb (getenv w "SHELL") EmptyString) eqn:Heq.
  - by destruct (String.eqb (GOOS w) "windows").
  - apply String.eqb_neq in Heq. by destruct (String.eqb (GOOS w) "windows").
Qed.

(** The first block never settles on the empty string, and keeps a shell
    given in the options. *)
Lemma determineShell_nonempty (optsShell : string) w shell w1 :
  wf w →
  determineShell optsShell w = (Ok shell, w1) →
  shell ≠ EmptyString ∧ (optsShell ≠ EmptyString → shell = optsShell).
Proof.
  intros Hwf. unfold determineShell.
  destruct (String.eqb optsShell EmptyString) eqn:Heq.
  - apply String.eqb_eq in Heq.
    destruct (Get_spec w Hwf) as (cfg & err & w2 & HG & Hwf2 & _ & Hsome).
    rewrite (bind_Ok _ _ _ _ _ HG).
    destruct err as [e|].
    + intros HD%GetDefaultShell_nonempty. done.
    + destruct (Hsome eq_refl) as [c ->]. unfold deref, bind, ret.
      destruct (String.eqb (Settings.Shell (Config.Settings c)) EmptyString)
        eqn:Hs; simpl.
      * intros HD%GetDefaultShell_nonempty. done.
      * apply String.eqb_neq in Hs. by intros [= <- _].
  - apply String.eqb_neq in Heq. unfold ret. by intros [= <- _].
Qed.

(** When it is not a dry run, [Execute] asks for one child process and
    hands it the command as a single argument, after the flag that makes
    the shell run a string: [cmd /C command] on Windows, elsewhere
    [shell -c command], where the shell is never the empty string and is
    the one of the options when they name one.  The child runs on the
    disk as [Execute] leaves it, and what [Execute] returns is read off
    the outcome of that child. *)
Theorem Execute_command_line command opts w :
  wf w →
  DryRun opts = false →
  ∃ prog flag o w',
    Execute command opts w = (Ok (resultOf o), w')
    ∧ procs w' = procs w ++ [(prog, [flag; command], o)]
    ∧ o = spawn w (configFile w') prog [flag; command]
    ∧ if String.eqb (GOOS w) "windows"
      then prog = "cmd" ∧ flag = "/C"
      else flag = "-c" ∧ prog ≠ EmptyString
           ∧ (Shell opts ≠ EmptyString → prog = Shell opts).
Proof.
  intros Hwf Hdry.
  destruct (Execute_spec command opts w Hwf)
    as (shell & w1 & verbose & w' & Hshell & HE & Hprocs & _ & _ & HG & Hsp).
  rewrite Hdry in *.
  destruct (determineShell_nonempty _ _ _ _ Hwf Hshell) as [Hne Hopt].
  unfold outcomeOf, commandLine in *. rewrite HG, Hsp in *.
  destruct (String.eqb (GOOS w) "windows"); simpl in *.
  - by exists "cmd", "/C", (spawn w (configFile w') "cmd" ["/C"; command]), w'.
  - by exists shell, "-c", (spawn w (configFile w') shell ["-c"; command]), w'.
Qed.

Lemma Execute_command_line_witness :
  ∃ prog flag o w',
    Execute "ls -la" (mkOptions "/bin/zsh" false false) sample.fresh
    = (Ok (resultOf o), w')
    ∧ procs w' = procs sample.fresh ++ [(prog, [flag; "ls -la"], o)]
    ∧ o = spawn sample.fresh (configFile w') prog [flag; "ls -la"]
    ∧ if String.eqb (GOOS sample.fresh) "windows"
      then prog = "cmd" ∧ flag = "/C"
      else flag = "-c" ∧ prog ≠ EmptyString
           ∧ (Shell (mkOptions "/bin/zsh" false false) ≠ EmptyString →
              prog = Shell (mkOptions "/bin/zsh" false false)).
Proof.
  apply (Execute_command_line "ls -la" (mkOptions "/bin/zsh" false false)
           sample.fresh).
  - intros Hl. discriminate Hl.
  - reflexivity.
Defined.

Lemma Get_loaded w cfg :
  loaded w = true → globalConfig w = Some cfg →
  Get w = (Ok (Some cfg, None), w).
Proof.
  intros Hl Hcfg. unfold Get.
  rewrite (bind_Ok _ _ _ _ _ (ensureLoaded_loaded w Hl)).
  unfold bind, get, ret. by rewrite Hcfg.
Qed.

Lemma determineShell_loaded (optsShell : string) w cfg :
  loaded w = true → globalConfig w = Some cfg →
  String.eqb (GOOS w) "windows" = false →
  determineShell optsShell w
  = (Ok (firstNonEmpty [optsShell; Settings.Shell (Config.Settings cfg);
                        getenv w "SHELL"; "/bin/sh"]), w).
Proof.
  intros Hl Hcfg Hos. unfold determineShell.
  cbn [firstNonEmpty].
  destruct (String.eqb optsShell EmptyString); [| done].
  rewrite (bind_Ok _ _ _ _ _ (Get_loaded w cfg Hl Hcfg)).
  unfold deref, bind, ret.
  destruct (String.eqb (Settings.Shell (Config.Settings cfg)) EmptyString);
    [| done].
  simpl. rewrite GetDefaultShell_choice, Hos. done.
Qed.

Lemma checkVerbose_loaded (optsVerbose : bool) w cfg :
  loaded w = true → globalConfig w = Some cfg →
  checkVerbose optsVerbose w
  = (Ok (optsVerbose || Settings.Verbose (Config.Settings cfg)), w).
Proof.
  intros Hl Hcfg. unfold checkVerbose. destruct optsVerbose; [done |]. simpl.
  rewrite (bind_Ok _ _ _ _ _ (Get_loaded w cfg Hl Hcfg)). done.
Qed.

(** Which shell runs the command.  With the configuration loaded, and
    not on Windows, the child process is the first of these that is not
    empty: the shell of the options, the shell of the settings, the
    [SHELL] variable of the environment, [/bin/sh]. *)
Theorem Execute_shell_precedence command opts w cfg :
  loaded w = true → globalConfig w = Some cfg →
  String.eqb (GOOS w) "windows" = false →
  DryRun opts = false →
  ∃ o w',
    Execute command opts w = (Ok (resultOf o), w')
    ∧ procs w'
      = procs w
        ++ [(firstNonEmpty [Shell opts; Settings.Shell (Config.Settings cfg);
                            getenv w "SHELL"; "/bin/sh"],
             ["-c"; command], o)].
Proof.
  intros Hl Hcfg Hos Hdry. unfold Execute.
  rewrite (bind_Ok _ _ _ _ _ (determineShell_loaded _ w cfg Hl Hcfg Hos)).
  rewrite (bind_Ok _ _ _ _ _ (checkVerbose_loaded _ w cfg Hl Hcfg)).
  rewrite Hdry.
  match goal with |- context [launch _ _ ?sh ?v w] =>
    destruct (launch_spec command false sh v w) as (w' & -> & Hprocs & _)
  end.
  unfold outcomeOf, commandLine in *. rewrite Hos in *. simpl in *.
  by eexists _, w'.
Qed.

Lemma Execute_shell_precedence_witness :
  ∃ o w',
    Execute "ls" zeroOptions sample.ready = (Ok (resultOf o), w')
    ∧ procs w'
      = procs sample.ready
        ++ [(firstNonEmpty [Shell zeroOptions;
                            Settings.Shell (Config.Settings sample.cfg);
                            getenv sample.ready "SHELL"; "/bin/sh"],
             ["-c"; "ls"], o)].
Proof.
  apply (Execute_shell_precedence "ls" zeroOptions sample.ready sample.cfg);
    reflexivity.
Defined.

Example shell_of_the_settings :
  procs (Execute "ls" zeroOptions sample.ready).2
  = [("/bin/zsh", ["-c"; "ls"], Exited 2)].
Proof. reflexivity. Qed.

(** When something is printed.  With the configuration loaded,
    [Execute] prints the diagnostic line exactly when the options or the
    settings ask for verbose output, then the dry-run line exactly in a
    dry run, and nothing else. *)
Theorem Execute_prints command opts w cfg :
  loaded w = true → globalConfig w = Some cfg →
  ∃ r w',
    Execute command opts w = (Ok r, w')
    ∧ stdout w'
      = stdout w
        ++ (if Verbose opts || Settings.Verbose (Config.Settings cfg)
            then [verboseLine command] else [])
        ++ (if DryRun opts then [dryRunLine command] else []).
Proof.
  intros Hl Hcfg.
  assert (wf w) as Hwf by (intros _; rewrite Hcfg; eauto).
  destruct (determineShell_spec (Shell opts) w Hwf)
    as (shell & w1 & Hshell & Hwf1 & Hco1).
  assert (w1 = w) as ->.
  { unfold determineShell in Hshell.
    destruct (String.eqb (Shell opts) EmptyString).
    - rewrite (bind_Ok _ _ _ _ _ (Get_loaded w cfg Hl Hcfg)) in Hshell.
      unfold deref, bind, ret in Hshell.
      destruct (negb _); [by injection Hshell |].
      rewrite GetDefaultShell_choice in Hshell. by injection Hshell.
    - unfold ret in Hshell. by injection Hshell. }
  unfold Execute.
  rewrite (bind_Ok _ _ _ _ _ Hshell).
  rewrite (bind_Ok _ _ _ _ _ (checkVerbose_loaded _ w cfg Hl Hcfg)).
  match goal with |- context [launch _ ?d ?sh ?v w] =>
    destruct (launch_spec command d sh v w) as (w' & -> & _ & Hout & _)
  end.
  by eexists _, w'.
Qed.

Lemma Execute_prints_witness :
  ∃ r w',
    Execute "ls" zeroOptions sample.ready = (Ok r, w')
    ∧ stdout w'
      = stdout sample.ready
        ++ (if Verbose zeroOptions || Settings.Verbose (Config.Settings sample.cfg)
            then [verboseLine "ls"] else [])
        ++ (if DryRun zeroOptions then [dryRunLine "ls"] else []).
Proof.
  apply (Execute_prints "ls" zeroOptions sample.ready sample.cfg); reflexivity.
Defined.

Lemma launch_configFile command (dryRun : bool) shell (verbose : bool) w :
  configFile (launch command dryRun shell verbose w).2 = configFile w.
Proof.
  unfold launch. destruct verbose, dryRun;
    unfold bind, Printf, modify, ret, get, cmdRun; simpl; try done.
  all: destruct (String.eqb _ _); simpl;
       match goal with |- context [errOf ?o] => destruct (errOf o) end; done.
Qed.

(** With a shell in the options and verbose output asked for in the
    options, [Execute] has no need of the configuration and does not
    touch it: nothing is loaded, and the file is neither read nor
    made. *)
Theorem Execute_without_configuration command opts w :
  Shell opts ≠ EmptyString →
  Verbose opts = true →
  ∃ r w',
    Execute command opts w = (Ok r, w')
    ∧ globalConfig w' = globalConfig w
    ∧ loaded w' = loaded w
    ∧ configFile w' = configFile w.
Proof.
  intros Hshell%String.eqb_neq Hverbose.
  unfold Execute, determineShell, checkVerbose. rewrite Hshell, Hverbose.
  simpl. unfold bind at 1. unfold ret at 1. unfold bind at 1. unfold ret at 1.
  pose proof (launch_configFile command (DryRun opts) (Shell opts) true w) as Hf.
  destruct (launch_spec command (DryRun opts) (Shell opts) true w)
    as (w' & HL & _ & _ & Hg & Hl & _).
  rewrite HL in *. by eexists _, w'.
Qed.

Lemma Execute_without_configuration_witness :
  ∃ r w',
    Execute "ls" (mkOptions "/bin/sh" true false) sample.fresh = (Ok r, w')
    ∧ globalConfig w' = globalConfig sample.fresh
    ∧ loaded w' = loaded sample.fresh
    ∧ configFile w' = configFile sample.fresh.
Proof.
  apply (Execute_without_configuration "ls" (mkOptions "/bin/sh" true false)
           sample.fresh); [discriminate | reflexivity].
Defined.

End ExecuteMore.

(* ===================================================================== *)
(** * The command line: running an alias *)
(* ===================================================================== *)

Section RootCommand.
Import os tty cmd spec vocab frame.

Implicit Types (s : Session) (a : Alias.t) (w : World).

Lemma bind_Return {A B} (m : C A) (k : A → C B) s s' (x : A) :
  m s = (Return x, s') → tty.bind m k s = k x s'.
Proof. intros H. unfold tty.bind. by rewrite H. Qed.

Lemma lift_Ok {A} (m : M A) s (x : A) w' :
  m (world s) = (Ok x, w') → lift m s = (Return x, set_world w' s).
Proof. intros H. unfold lift. by rewrite H. Qed.

Lemma set_world_same s : set_world (world s) s = s.
Proof. by destruct s. Qed.

Lemma stored_wf w (l : list Alias.t) : stored w l → wf w.
Proof. intros (_ & cfg & Hcfg & _) _. rewrite Hcfg. eauto. Qed.

Lemma findByName_free_None (l : list Alias.t) (name : string) :
  name ∉ aliasNames l → config.findByName l name = None.
Proof.
  unfold aliasNames. intros Hfree.
  destruct (config.findByName l name) as [a|] eqn:Hf; [| done].
  apply findByName_Some in Hf as [Hin <-]. exfalso. apply Hfree.
  apply list_elem_of_fmap. eauto.
Qed.

Lemma stored_add_stdout (text : string) w (l : list Alias.t) :
  stored (add_stdout text w) l ↔ stored w l.
Proof. done. Qed.

(** [al name ...] for a name that is not stored: the process ends with
    status 1 after the error is written to standard error; no child
    process is asked for and the configuration is what it was. *)
Theorem runRootCmd_unknown_alias s (l : list Alias.t)
    (aliasName : string) (params : list string) :
  stored (world s) l →
  aliasName ∉ aliasNames l →
  ∃ s',
    runRootCmd (aliasName :: params) s = (Exit 1%Z, s')
    ∧ procs (world s') = procs (world s)
    ∧ stored (world s') l
    ∧ stderr s'
      = stderr s
        ++ [render s [FgRed; Bold]
              ("Error: Alias '" +:+ aliasName +:+ "' not found" +:+ newline)].
Proof.
  intros Hst Hfree. unfold runRootCmd, aliases.Find.
  pose proof (FindAlias_stored aliasName (world s) l Hst) as HF.
  rewrite (findByName_free_None l aliasName Hfree) in HF.
  rewrite (bind_Return _ _ _ _ _ (lift_Ok _ _ _ _ HF)). simpl.
  unfold tty.bind, printError, colorEprint, Println, Print, lift, Printf,
    modify, exit. simpl.
  eexists. split; [reflexivity |]. simpl. split; [done |]. split.
  - by rewrite !stored_add_stdout.
  - by rewrite !append_assoc.
Qed.

Lemma runRootCmd_unknown_alias_witness :
  let s := mkSession sample.ready [] [] [] [] (λ _ text, text) "help" in
  ∃ s',
    runRootCmd ["nope"; "x"] s = (Exit 1%Z, s')
    ∧ procs (world s') = procs (world s)
    ∧ stored (world s') (Config.Aliases sample.cfg)
    ∧ stderr s'
      = stderr s
        ++ [render s [FgRed; Bold]
              ("Error: Alias '" +:+ "nope" +:+ "' not found" +:+ newline)].
Proof.
  intros s.
  apply (runRootCmd_unknown_alias s (Config.Aliases sample.cfg) "nope" ["x"]).
  - split; [reflexivity |]. exists sample.cfg. split; reflexivity.
  - vm_compute. intros Hin. repeat (apply elem_of_cons in Hin as [Heq | Hin];
      [discriminate Heq |]). by apply elem_of_nil in Hin.
Defined.

Lemma printLines_app (l1 l2 : list string) w :
  printLines (l1 ++ l2) w = printLines l2 (printLines l1 w).
Proof. unfold printLines. by rewrite foldl_app. Qed.

Lemma printLines_fields (lines : list string) w :
  stdout (printLines lines w) = stdout w ++ lines
  ∧ procs (printLines lines w) = procs w
  ∧ globalConfig (printLines lines w) = globalConfig w
  ∧ loaded (printLines lines w) = loaded w
  ∧ configFile (printLines lines w) = configFile w.
Proof.
  revert w. induction lines as [|line lines IH]; intros w.
  - simpl. by rewrite app_nil_r.
  - change (printLines (line :: lines) w)
      with (printLines lines (add_stdout line w)).
    destruct (IH (add_stdout line w)) as (-> & -> & -> & -> & ->). simpl.
    by rewrite <- app_assoc.
Qed.

Lemma onlyPrints_refl s : onlyPrints s s [].
Proof. unfold onlyPrints. by destruct s. Qed.

Lemma onlyPrints_trans s1 s2 s3 (l1 l2 : list string) :
  onlyPrints s1 s2 l1 → onlyPrints s2 s3 l2 → onlyPrints s1 s3 (l1 ++ l2).
Proof.
  unfold onlyPrints. intros -> ->. rewrite printLines_app. by destruct s1.
Qed.

Lemma Print_onlyPrints (text : string) s :
  ∃ s', Print text s = (Return tt, s') ∧ onlyPrints s s' [text].
Proof. eexists. split; [reflexivity |]. done. Qed.

Lemma Println_onlyPrints (text : string) s :
  ∃ s', Println text s = (Return tt, s')
        ∧ onlyPrints s s' [text +:+ newline].
Proof. eexists. split; [reflexivity |]. done. Qed.

Lemma printError_run (message : string) s :
  printError message s
  = (Return tt,
     mkSession (world s)
       (stderr s ++ [render s [FgRed; Bold] ("Error: " +:+ message +:+ newline)])
       (asked s) (selects s) (inputs s) (render s) (helpText s)).
Proof. reflexivity. Qed.

Lemma printParamLines_onlyPrints (params : list Param.t) s :
  ∃ s' lines, printParamLines params s = (Return tt, s')
              ∧ onlyPrints s s' lines.
Proof.
  revert s. induction params as [|p rest IH]; intros s; simpl.
  - exists s, []. split; [done | apply onlyPrints_refl].
  - destruct (Print_onlyPrints (paramLine p) s) as (s1 & HP & H1).
    rewrite (bind_Return _ _ _ _ _ HP).
    destruct (IH s1) as (s' & lines & -> & H2).
    eexists s', _. split; [done |]. by eapply onlyPrints_trans.
Qed.

(** [printAliasUsage] prints and does nothing else; the usage line comes
    first. *)
Lemma printAliasUsage_onlyPrints a s :
  ∃ s' more,
    printAliasUsage a s = (Return tt, s')
    ∧ onlyPrints s s'
        (("Usage: al " +:+ aliases.BuildUsageString a +:+ newline) :: more).
Proof.
  unfold printAliasUsage.
  destruct (Print_onlyPrints
              ("Usage: al " +:+ aliases.BuildUsageString a +:+ newline) s)
    as (s1 & HP & H1).
  rewrite (bind_Return _ _ _ _ _ HP).
  assert (∃ s2 l2,
            (if negb (String.eqb (Alias.Description a) EmptyString)
             then Print ("       " +:+ Alias.Description a +:+ newline)
             else tty.ret tt) s1 = (Return tt, s2) ∧ onlyPrints s1 s2 l2)
    as (s2 & l2 & HD & H2).
  { destruct (negb _).
    - destruct (Print_onlyPrints
                  ("       " +:+ Alias.Description a +:+ newline) s1)
        as (s2 & ? & ?). eauto.
    - exists s1, []. split; [done | apply onlyPrints_refl]. }
  rewrite (bind_Return _ _ _ _ _ HD).
  destruct (0 <? length (Alias.Params a)).
  - destruct (Println_onlyPrints EmptyString s2) as (s3 & HP3 & H3).
    rewrite (bind_Return _ _ _ _ _ HP3).
    destruct (Println_onlyPrints "Parameters:" s3) as (s4 & HP4 & H4).
    rewrite (bind_Return _ _ _ _ _ HP4).
    destruct (printParamLines_onlyPrints (Alias.Params a) s4)
      as (s' & l5 & -> & H5).
    eexists s', _. split; [done |].
    pose proof (onlyPrints_trans _ _ _ _ _ H1
                  (onlyPrints_trans _ _ _ _ _ H2
                     (onlyPrints_trans _ _ _ _ _ H3
                        (onlyPrints_trans _ _ _ _ _ H4 H5)))) as H.
    exact H.
  - eexists s2, _. split; [done |].
    exact (onlyPrints_trans _ _ _ _ _ H1 H2).
Qed.

(** [al name ...] when binding fails: the process ends with status 1
    after the binding error is written to standard error and the usage
    of the alias to standard output; no child process is asked for. *)
Theorem runRootCmd_binding_failure s (pre post : list Alias.t) a
    (params : list string) (pe : parser.ParseError) :
  stored (world s) (pre ++ a :: post) →
  (∀ b, b ∈ pre → Alias.Name b ≠ Alias.Name a) →
  (parser.ParseCommand a params).2 = Some pe →
  ∃ s' (more : list string),
    runRootCmd (Alias.Name a :: params) s = (Exit 1%Z, s')
    ∧ procs (world s') = procs (world s)
    ∧ stderr s'
      = stderr s
        ++ [render s [FgRed; Bold]
              ("Error: " +:+ parser.Message pe +:+ newline)]
    ∧ stdout (world s')
      = stdout (world s)
        ++ newline
           :: ("Usage: al " +:+ aliases.BuildUsageString a +:+ newline)
           :: more.
Proof.
  intros Hst Hpre Hparse. unfold runRootCmd, aliases.Find.
  pose proof (FindAlias_stored (Alias.Name a) (world s) _ Hst) as HF.
  rewrite (findByName_first pre post a _ eq_refl Hpre) in HF.
  rewrite (bind_Return _ _ _ _ _ (lift_Ok _ _ _ _ HF)). simpl.
  rewrite set_world_same.
  unfold tty.bind at 1. unfold tty.ret at 1.
  assert (executor.Run a params (world s)
          = (Ok ((-1)%Z, Some (executor.ErrParse pe)), world s)) as HR.
  { unfold executor.Run. destruct (parser.ParseCommand a params) as [c e].
    simpl in Hparse. by subst e. }
  rewrite (bind_Return _ _ _ _ _ (lift_Ok _ _ _ _ HR)). simpl.
  rewrite set_world_same.
  rewrite (bind_Return _ _ _ _ _ (printError_run (parser.Message pe) s)).
  match goal with |- context [tty.bind _ _ ?s0] => set (s1 := s0) end.
  destruct (Println_onlyPrints EmptyString s1) as (s2 & HP & H1).
  destruct (printAliasUsage_onlyPrints a s2) as (s3 & more & HU & H2).
  assert (tty.bind (Println EmptyString) (λ _, printAliasUsage a) s1
          = (Return tt, s3)) as Hinner.
  { by rewrite (bind_Return _ _ _ _ _ HP). }
  rewrite (bind_Return _ _ _ _ _ Hinner). unfold exit.
  exists s3, more. split; [done |].
  pose proof (onlyPrints_trans _ _ _ _ _ H1 H2) as H. unfold onlyPrints in H.
  subst s3.
  destruct (printLines_fields
              ([EmptyString +:+ newline]
               ++ ("Usage: al " +:+ aliases.BuildUsageString a +:+ newline)
                  :: more) (world s1)) as (Hout & Hprocs & _).
  subst s1. simpl in *. by rewrite Hout, Hprocs.
Qed.

Lemma runRootCmd_binding_failure_witness :
  let s := mkSession sample.ready [] [] [] [] (λ _ text, text) "help" in
  ∃ s' (more : list string),
    runRootCmd (Alias.Name sample.gc :: []) s = (Exit 1%Z, s')
    ∧ procs (world s') = procs (world s)
    ∧ stderr s'
      = stderr s
        ++ [render s [FgRed; Bold]
              ("Error: "
               +:+ parser.Message (MissingRequiredParameter "message")
               +:+ newline)]
    ∧ stdout (world s')
      = stdout (world s)
        ++ newline
           :: ("Usage: al " +:+ aliases.BuildUsageString sample.gc +:+ newline)
           :: more.
Proof.
  intros s.
  apply (runRootCmd_binding_failure s [] [sample.gp] sample.gc []
           (MissingRequiredParameter "message")).
  - split; [reflexivity |]. exists sample.cfg. split; reflexivity.
  - intros b Hb. by apply elem_of_nil in Hb.
  - reflexivity.
Defined.

Example usage_of_gc :
  let s := mkSession sample.ready [] [] [] [] (λ _ text, text) "help" in
  stdout (world (runRootCmd ["gc"] s).2)
  = [newline;
     "Usage: al gc <message>" +:+ newline;
     "       Git commit with message" +:+ newline;
     newline;
     "Parameters:" +:+ newline;
     "  message      Commit message (required)" +:+ newline].
Proof. vm_compute. reflexivity. Qed.

(** [al name ...] when the alias is stored and binding succeeds: one
    child process is asked for, with the expanded command as its single
    argument after the flag, and the process ends with [os.Exit]: of the
    exit status of the child; of -1 when a signal ended the child; of
    1, after the error is written, when the child could not be started.
    The exit status a Unix system then reports for [al] is the low
    eight bits of that code: 255 after a signal. *)
Theorem runRootCmd_exit_status s (pre post : list Alias.t) a
    (params : list string) (command : string) :
  stored (world s) (pre ++ a :: post) →
  (∀ b, b ∈ pre → Alias.Name b ≠ Alias.Name a) →
  parser.ParseCommand a params = (command, None) →
  ∃ o prog flag s',
    runRootCmd (Alias.Name a :: params) s = (Exit (exitOf o), s')
    ∧ procs (world s') = procs (world s) ++ [(prog, [flag; command], o)]
    ∧ exitStatus (exitOf o)
      = match o with
        | Exited status => (status mod 256)%Z
        | Killed => 255%Z
        | NotStarted _ => 1%Z
        end.
Proof.
  intros Hst Hpre Hparse. unfold runRootCmd, aliases.Find.
  pose proof (FindAlias_stored (Alias.Name a) (world s) _ Hst) as HF.
  rewrite (findByName_first pre post a _ eq_refl Hpre) in HF.
  rewrite (bind_Return _ _ _ _ _ (lift_Ok _ _ _ _ HF)). simpl.
  rewrite set_world_same.
  unfold tty.bind at 1. unfold tty.ret at 1.
  destruct (Execute_spec command executor.zeroOptions (world s)
              (stored_wf _ _ Hst))
    as (shell & w1 & verbose & w' & _ & HE & Hprocs & _).
  simpl in HE, Hprocs.
  assert (executor.Run a params (world s)
          = (Ok (resultOf (outcomeOf w' shell command)), w')) as HR.
  { unfold executor.Run. by rewrite Hparse. }
  rewrite (bind_Return _ _ _ _ _ (lift_Ok _ _ _ _ HR)).
  destruct (commandLine (world s) shell command) as [prog args] eqn:Hcl.
  assert (∃ flag, args = [flag; command]) as [flag ->].
  { unfold commandLine in Hcl. destruct (String.eqb _ _);
      injection Hcl as <- <-; eauto. }
  exists (outcomeOf w' shell command), prog, flag.
  destruct (outcomeOf w' shell command) as [status| |cause]; simpl.
  - eexists. split; [reflexivity |]. done.
  - eexists. split; [reflexivity |]. done.
  - eexists. split; [reflexivity |]. done.
Qed.

Lemma runRootCmd_exit_status_witness :
  let s := mkSession sample.ready [] [] [] [] (λ _ text, text) "help" in
  ∃ o prog flag s',
    runRootCmd (Alias.Name sample.gp :: ["dev"]) s = (Exit (exitOf o), s')
    ∧ procs (world s')
      = procs (world s) ++ [(prog, [flag; "git push origin dev"], o)]
    ∧ exitStatus (exitOf o)
      = match o with
        | Exited status => (status mod 256)%Z
        | Killed => 255%Z
        | NotStarted _ => 1%Z
        end.
Proof.
  intros s.
  apply (runRootCmd_exit_status s [sample.gc] [] sample.gp ["dev"]
           "git push origin dev").
  - split; [reflexivity |]. exists sample.cfg. split; reflexivity.
  - intros b Hb%list_elem_of_singleton. subst b. discriminate.
  - reflexivity.
Defined.

(** A child ended by a signal: [al] calls [os.Exit(-1)], which a Unix
    system reports as status 255. *)
Example al_child_signalled :
  let s := mkSession sample.signalled [] [] [] [] (λ _ text, text) "help" in
  (runRootCmd ["gp"; "dev"] s).1 = Exit (-1)%Z
  ∧ exitStatus (-1) = 255%Z.
Proof. vm_compute. done. Qed.

Example al_gp_dev :
  let s := mkSession sample.ready [] [] [] [] (λ _ text, text) "help" in
  let '(out, s') := runRootCmd ["gp"; "dev"] s in
  out = Exit 2%Z
  ∧ procs (world s') = [("/bin/zsh", ["-c"; "git push origin dev"], Exited 2)].
Proof. vm_compute. done. Qed.

End RootCommand.

(* ===================================================================== *)
(** * The command line: removing, merging, declaring parameters *)
(* ===================================================================== *)

Section OtherCommands.
Import os tty cmd spec vocab frame.

Implicit Types (s : Session) (a : Alias.t) (w : World) (l : list Alias.t).

Lemma findByName_taken_Some l (name : string) :
  name ∈ aliasNames l → ∃ a, config.findByName l name = Some a.
Proof.
  intros Hin. destruct (config.findByName l name) as [a|] eqn:Hf; [eauto |].
  exfalso. revert Hin. by apply findByName_free.
Qed.

(** The case in which [RemoveAlias] is called. *)
Local Ltac finish_remove :=
  unfold aliases.Remove;
  match goal with
  | Hst : stored _ ?l0 |- context [config.RemoveAlias ?n ?w1] =>
      let rerr := fresh "rerr" in
      let w' := fresh "w'" in
      let Hst' := fresh "Hst'" in
      destruct (RemoveAlias_stored n w1 l0) as (rerr & w' & -> & Hst');
        [done | done |];
      destruct rerr; simpl;
      eexists _, _; (split; [reflexivity |]); by split
  end.

(** [al remove name] for a stored name asks once for confirmation, and
    removes the alias only when the answer is the second item, "Yes,
    remove it": with any other answer, an interrupted prompt or no
    answer at all, the stored list is what it was. *)
Theorem runRemoveCmd_asks_first s l (aliasName : string) (rest : list string) :
  stored (world s) l →
  aliasName ∈ aliasNames l →
  ∃ out s',
    runRemoveCmd (aliasName :: rest) s = (out, s')
    ∧ asked s'
      = asked s ++ ["Are you sure you want to remove '" +:+ aliasName +:+ "'?"]
    ∧ stored (world s')
        (match selects s with
         | inl 1 :: _ => filter (λ a, Alias.Name a ≠ aliasName) l
         | _ => l
         end).
Proof.
  intros Hst Hin. unfold runRemoveCmd, aliases.Find.
  pose proof (FindAlias_stored aliasName (world s) l Hst) as HF.
  destruct (findByName_taken_Some l aliasName Hin) as [a Ha].
  rewrite Ha in HF.
  rewrite (bind_Return _ _ _ _ _ (lift_Ok _ _ _ _ HF)). simpl.
  rewrite set_world_same.
  destruct s as [w err0 asked0 sel inp rend help]. simpl in *.
  unfold tty.bind, tty.ret, Print, Println, lift, Printf, modify,
    confirmDelete, selectRun. simpl.
  destruct (negb (String.eqb (Alias.Description a) EmptyString)); simpl.
  all: destruct sel as [|[[|[|idx]]|e] sel']; simpl.
  all: try (destruct e; simpl).
  all: try (eexists _, _; split; [reflexivity |]; by split).
  all: finish_remove.
Qed.

Lemma runRemoveCmd_asks_first_witness :
  let s := mkSession sample.ready [] [] [inl 1] [] (λ _ text, text) "help" in
  ∃ out s',
    runRemoveCmd ["gp"] s = (out, s')
    ∧ asked s'
      = asked s ++ ["Are you sure you want to remove '" +:+ "gp" +:+ "'?"]
    ∧ stored (world s')
        (match selects s with
         | inl 1 :: _ =>
             filter (λ a, Alias.Name a ≠ "gp") (Config.Aliases sample.cfg)
         | _ => Config.Aliases sample.cfg
         end).
Proof.
  intros s.
  apply (runRemoveCmd_asks_first s (Config.Aliases sample.cfg) "gp" []).
  - split; [reflexivity |]. exists sample.cfg. split; reflexivity.
  - vm_compute. right. left.
Defined.

Example al_remove_declined :
  let s := mkSession sample.ready [] [] [inl 0] [] (λ _ text, text) "help" in
  let '(out, s') := runRemoveCmd ["gp"] s in
  out = Return tt
  ∧ Config.Aliases <$> globalConfig (world s') = Some [sample.gc; sample.gp]
  ∧ last (stdout (world s')) = Some ("Cancelled. Alias was not removed." +:+ newline).
Proof. vm_compute. done. Qed.

Lemma promptParamDetails_name (name : string) s (p : Param.t) s' :
  promptParamDetails name s = (Return (p, None), s') → Param.Name p = name.
Proof.
  unfold promptParamDetails, promptRun, selectRun, tty.bind, tty.ret.
  destruct (inputs s) as [|[description|e] inp]; simpl; try discriminate.
  destruct (selects s) as [|[idx|e] sel]; simpl; try discriminate.
  destruct (idx =? 0); simpl.
  - by intros [= <- _].
  - destruct inp as [|[defaultVal|e] inp']; simpl; try discriminate.
    by intros [= <- _].
Qed.

Lemma promptEach_names (placeholders : list string) (acc : list Param.t) s
    (params : list Param.t) s' :
  promptEach placeholders acc s = (Return (params, None), s') →
  Param.Name <$> params = (Param.Name <$> acc) ++ placeholders.
Proof.
  revert acc s. induction placeholders as [|name rest IH]; intros acc s; simpl.
  - unfold tty.ret. intros [= <- _]. by rewrite app_nil_r.
  - unfold tty.bind at 1.
    destruct (Print _ s) as [[[]|code|] s1] eqn:HP; try discriminate.
    unfold tty.bind at 1.
    destruct (promptParamDetails name s1) as [[[param [e|]]|code|] s2] eqn:HD;
      try discriminate.
    intros Hrest%IH. rewrite Hrest, fmap_app. simpl.
    rewrite (promptParamDetails_name _ _ _ _ HD). by rewrite <- app_assoc.
Qed.

(** [promptParams], when every prompt is answered, declares one
    parameter for each occurrence of a placeholder in the command, in
    order and under the placeholder's name; a placeholder written twice
    is declared twice. *)
Theorem promptParams_names (command : string) s (params : list Param.t) s' :
  promptParams command s = (Return (params, None), s') →
  Param.Name <$> params = parser.ExtractPlaceholders command.
Proof.
  unfold promptParams.
  destruct (length (parser.ExtractPlaceholders command) =? 0) eqn:Hlen.
  - apply Nat.eqb_eq, nil_length_inv in Hlen. rewrite Hlen.
    unfold tty.ret. by intros [= <- _].
  - unfold tty.bind at 1.
    destruct (Println _ s) as [[[]|code|] s1] eqn:HP; try discriminate.
    unfold tty.bind at 1.
    destruct (Print _ s1) as [[[]|code|] s2] eqn:HP2; try discriminate.
    by intros ->%promptEach_names.
Qed.

Lemma promptParams_names_witness :
  let s := mkSession sample.fresh [] [] [inl 0; inl 1]
             [inl "file to copy"; inl "again"; inl "x"]
             (λ _ text, text) "help" in
  let params := [Param.mk "f" "file to copy" true EmptyString;
                 Param.mk "f" "again" false "x"] in
  promptParams "cp {{f}} {{f}}.bak" s
  = (Return (params, None), (promptParams "cp {{f}} {{f}}.bak" s).2)
  ∧ Param.Name <$> params = parser.ExtractPlaceholders "cp {{f}} {{f}}.bak".
Proof.
  intros s params.
  assert (promptParams "cp {{f}} {{f}}.bak" s
          = (Return (params, None), (promptParams "cp {{f}} {{f}}.bak" s).2))
    as Hrun by (vm_compute; reflexivity).
  split; [exact Hrun |].
  exact (promptParams_names "cp {{f}} {{f}}.bak" s params _ Hrun).
Defined.

Example al_add_declares_twice :
  let s := mkSession sample.fresh [] [] [inl 0; inl 1]
             [inl "file to copy"; inl "again"; inl "x"]
             (λ _ text, text) "help" in
  (promptParams "cp {{f}} {{f}}.bak" s).1
  = Return ([Param.mk "f" "file to copy" true EmptyString;
             Param.mk "f" "again" false "x"], None).
Proof. vm_compute. reflexivity. Qed.

Lemma markExisting_isDefined l (existing : gmap string bool) (n : string) :
  parser.isDefined (markExisting l existing) n = true
  ↔ n ∈ aliasNames l ∨ parser.isDefined existing n = true.
Proof.
  unfold aliasNames. revert existing.
  induction l as [|a rest IH]; intros existing; simpl.
  - rewrite elem_of_nil. tauto.
  - rewrite IH, elem_of_cons. unfold parser.isDefined at 1.
    destruct (decide (Alias.Name a = n)) as [->|Hne].
    + rewrite lookup_insert_eq. intuition auto.
    + rewrite lookup_insert_ne by done. fold (parser.isDefined existing n).
      intuition congruence.
Qed.

Lemma countNew_none (imported : list Alias.t) (existing : gmap string bool)
    (newCount : nat) (duplicates : list string) :
  (countNew imported existing newCount duplicates).1 = 0 →
  ∀ a, a ∈ imported → parser.isDefined existing (Alias.Name a) = true.
Proof.
  assert (∀ imported n d, n ≤ (countNew imported existing n d).1) as Hmono.
  { clear. induction imported as [|a rest IH]; intros n d; simpl; [done |].
    destruct (parser.isDefined existing (Alias.Name a)); [apply IH |].
    specialize (IH (S n) d). lia. }
  revert newCount duplicates.
  induction imported as [|a rest IH]; intros n d Hzero b Hb.
  - by apply elem_of_nil in Hb.
  - simpl in Hzero.
    destruct (parser.isDefined existing (Alias.Name a)) eqn:Ha.
    + apply elem_of_cons in Hb as [-> | Hb]; [done | by eapply IH].
    + pose proof (Hmono rest (S n) d). lia.
Qed.

Lemma GetAllAliases_stored w l :
  stored w l → config.GetAllAliases w = (Ok (l, None), w).
Proof.
  intros (Hl & cfg & Hcfg & <-). unfold config.GetAllAliases.
  rewrite (bind_Ok _ _ _ _ _ (ensureLoaded_loaded w Hl)).
  unfold os.bind, get, os.ret. by rewrite Hcfg.
Qed.

Lemma aliasNames_prefix (l l' : list Alias.t) (n : string) :
  l `prefix_of` l' → n ∈ aliasNames l → n ∈ aliasNames l'.
Proof.
  intros [k ->]. unfold aliasNames. rewrite fmap_app, elem_of_app. tauto.
Qed.

(** The third loop of [mergeConfig] appends to the stored list, and
    only aliases whose names are not stored yet. *)
Lemma addNew_spec (imported : list Alias.t) (existing : gmap string bool) :
  ∀ s (cur : list Alias.t) (added : nat),
    stored (world s) cur →
    (∀ n, parser.isDefined existing n = true → n ∈ aliasNames cur) →
    ∃ added' s' cur',
      addNew imported existing added s = (Return added', s')
      ∧ stored (world s') cur'
      ∧ cur `prefix_of` cur'
      ∧ (∀ n, n ∈ aliasNames cur' →
              n ∈ aliasNames cur ∨ n ∈ aliasNames imported)
      ∧ (∀ n, n ∈ aliasNames imported → n ∈ aliasNames cur')
      ∧ (NoDup (aliasNames cur) → NoDup (aliasNames cur')).
Proof.
  induction imported as [|a rest IH]; intros s cur added Hst Hex.
  - exists added, s, cur. simpl. split; [done |]. split; [done |].
    split; [done |]. split; [auto |]. split; [| done].
    intros n Hn. by apply elem_of_nil in Hn.
  - assert (∀ s1 cur1 added1,
              stored (world s1) cur1 → cur `prefix_of` cur1 →
              (∀ n, n ∈ aliasNames cur1 →
                    n ∈ aliasNames cur ∨ n = Alias.Name a) →
              Alias.Name a ∈ aliasNames cur1 →
              (NoDup (aliasNames cur) → NoDup (aliasNames cur1)) →
              ∃ added' s' cur',
                addNew rest existing added1 s1 = (Return added', s')
                ∧ stored (world s') cur'
                ∧ cur `prefix_of` cur'
                ∧ (∀ n, n ∈ aliasNames cur' →
                        n ∈ aliasNames cur ∨ n ∈ aliasNames (a :: rest))
                ∧ (∀ n, n ∈ aliasNames (a :: rest) → n ∈ aliasNames cur')
                ∧ (NoDup (aliasNames cur) → NoDup (aliasNames cur'))) as Hgo.
    { intros s1 cur1 added1 Hst1 Hpre1 Hsub1 Ha1 Hnd1.
      destruct (IH s1 cur1 added1 Hst1) as
        (added' & s' & cur' & HA & Hst' & Hpre' & Hsub' & Hall' & Hnd').
      { intros n Hn. eapply aliasNames_prefix; [exact Hpre1 | by apply Hex]. }
      exists added', s', cur'. split; [done |]. split; [done |].
      split; [by etrans |]. unfold aliasNames in *.
      split; [| split].
      - intros n Hn. rewrite fmap_cons, elem_of_cons.
        destruct (Hsub' n Hn) as [Hn1 | Hn1]; [| tauto].
        destruct (Hsub1 n Hn1); tauto.
      - intros n. rewrite fmap_cons, elem_of_cons. intros [-> | Hn].
        + by apply (aliasNames_prefix cur1 cur').
        + by apply Hall'.
      - intros Hnd. by apply Hnd', Hnd1. }
    cbn [addNew].
    destruct (parser.isDefined existing (Alias.Name a)) eqn:Hdef; simpl.
    + apply (Hgo s cur added); try done; [auto | by apply Hex].
    + destruct (decide (Alias.Name a ∈ aliasNames cur)) as [Hin | Hfree].
      * pose proof (AddAlias_refused a (world s) cur Hst Hin) as HA.
        rewrite (bind_Return _ _ _ _ _ (lift_Ok _ _ _ _ HA)).
        rewrite set_world_same.
        match goal with |- context [Print ?t] =>
          destruct (Print_onlyPrints t s) as (s1 & HP & H1)
        end.
        rewrite (bind_Return _ _ _ _ _ HP).
        apply (Hgo s1 cur); try done; [| auto].
        rewrite H1. by apply stored_add_stdout.
      * destruct (AddAlias_stored a (world s) cur Hst Hfree)
          as (err & w' & HA & Hst').
        rewrite (bind_Return _ _ _ _ _ (lift_Ok _ _ _ _ HA)).
        assert (∀ n, n ∈ aliasNames (cur ++ [a]) →
                     n ∈ aliasNames cur ∨ n = Alias.Name a) as Hsub.
        { intros n. unfold aliasNames. rewrite fmap_app, elem_of_app.
          simpl. rewrite list_elem_of_singleton. tauto. }
        assert (Alias.Name a ∈ aliasNames (cur ++ [a])) as Hnew.
        { unfold aliasNames. rewrite fmap_app, elem_of_app. right. left. }
        assert (NoDup (aliasNames cur) → NoDup (aliasNames (cur ++ [a])))
          as Hnd.
        { intros Hnd. unfold aliasNames in *. rewrite fmap_app.
          apply NoDup_app. split; [done |]. split; [| apply NoDup_singleton].
          intros n Hn Hn'%list_elem_of_singleton. by subst n. }
        destruct err as [e|].
        -- match goal with |- context [Print ?t] =>
             destruct (Print_onlyPrints t (set_world w' s)) as (s1 & HP & H1)
           end.
           rewrite (bind_Return _ _ _ _ _ HP).
           apply (Hgo s1 (cur ++ [a])); try done.
           ++ rewrite H1. by apply stored_add_stdout.
           ++ by apply prefix_app_r.
        -- apply (Hgo _ (cur ++ [a])); try done. by apply prefix_app_r.
Qed.

Lemma onlyPrints_stored s s' (lines : list string) (l : list Alias.t) :
  onlyPrints s s' lines →
  (stored (world s') l ↔ stored (world s) l) ∧ selects s' = selects s.
Proof.
  unfold onlyPrints. intros ->. split; [| by destruct s].
  unfold stored.
  destruct (printLines_fields lines (world s)) as (_ & _ & Hg & Hl & _).
  destruct s; simpl in *. by rewrite Hg, Hl.
Qed.

Lemma colorPrint_onlyPrints (attrs : list Attr) (text : string) s :
  ∃ s', colorPrint attrs text s = (Return tt, s')
        ∧ onlyPrints s s' [render s attrs text].
Proof. eexists. split; [reflexivity |]. done. Qed.

(** [mergeConfig] only ever appends to the stored list: what was stored
    stays, in its place; every name it adds is a name of the imported
    configuration; names that were unique stay unique.  It adds
    nothing unless the selection is answered with an item after the first
    ("Yes, add them"), and after such an answer every imported name is
    stored (when no imported name is new the question is not asked, and
    every imported name is stored already). *)
Theorem mergeConfig_adds_new_only (newConfig : Config.t) s (l : list Alias.t) :
  stored (world s) l →
  ∃ (err : option tty.error) s' (l' : list Alias.t),
    mergeConfig newConfig s = (Return err, s')
    ∧ stored (world s') l'
    ∧ l `prefix_of` l'
    ∧ (∀ n, n ∈ aliasNames l' →
            n ∈ aliasNames l ∨ n ∈ aliasNames (Config.Aliases newConfig))
    ∧ (NoDup (aliasNames l) → NoDup (aliasNames l'))
    ∧ match selects s with
      | inl (S _) :: _ =>
          ∀ n, n ∈ aliasNames (Config.Aliases newConfig) → n ∈ aliasNames l'
      | _ => l' = l
      end.
Proof.
  intros Hst. unfold mergeConfig.
  rewrite (bind_Return _ _ _ _ _
             (lift_Ok _ _ _ _ (GetAllAliases_stored _ _ Hst))).
  rewrite set_world_same. cbn beta iota zeta.
  set (existing := markExisting l ∅).
  assert (∀ n, parser.isDefined existing n = true → n ∈ aliasNames l) as Hex.
  { intros n [Hn | Hn]%markExisting_isDefined; [done |].
    unfold parser.isDefined in Hn. by rewrite lookup_empty in Hn. }
  destruct (countNew (Config.Aliases newConfig) existing 0 [])
    as [newCount duplicates] eqn:Hcount.
  match goal with |- context [tty.bind (Print ?t)] =>
    destruct (Print_onlyPrints t s) as (s1 & HP1 & H1)
  end.
  rewrite (bind_Return _ _ _ _ _ HP1).
  assert (∃ s2 lines,
            (if 0 <? length duplicates
             then Print ("Already exist (will skip): "
                         +:+ formatSlice duplicates +:+ newline)
             else tty.ret ()) s1 = (Return tt, s2)
            ∧ onlyPrints s1 s2 lines) as (s2 & lines2 & HP2 & H2).
  { destruct (0 <? length duplicates).
    - match goal with |- context [Print ?t s1] =>
        destruct (Print_onlyPrints t s1) as (s2 & HP & H2)
      end.
      by exists s2, [("Already exist (will skip): "
                      +:+ formatSlice duplicates +:+ newline)%string].
    - exists s1, []. split; [done | apply onlyPrints_refl]. }
  rewrite (bind_Return _ _ _ _ _ HP2).
  destruct (Println_onlyPrints EmptyString s2) as (s3 & HP3 & H3).
  rewrite (bind_Return _ _ _ _ _ HP3).
  pose proof (onlyPrints_trans _ _ _ _ _ (onlyPrints_trans _ _ _ _ _ H1 H2) H3)
    as H13.
  destruct (onlyPrints_stored _ _ _ l H13) as [Hst3 Hsel3].
  apply Hst3 in Hst. clear HP1 HP2 HP3 H1 H2 H3 Hst3 s1 s2.
  destruct (newCount =? 0) eqn:Hzero.
  - apply Nat.eqb_eq in Hzero. subst newCount.
    match goal with |- context [tty.bind (Println ?t)] =>
      destruct (Println_onlyPrints t s3) as (s4 & HP4 & H4)
    end.
    rewrite (bind_Return _ _ _ _ _ HP4).
    exists None, s4, l. split; [done |].
    split; [by apply (onlyPrints_stored _ _ _ l H4) |].
    split; [done |]. split; [auto |]. split; [done |].
    assert (∀ n, n ∈ aliasNames (Config.Aliases newConfig) → n ∈ aliasNames l)
      as Hall.
    { intros n (a & -> & Ha)%list_elem_of_fmap. apply Hex.
      eapply countNew_none; [| exact Ha]. by rewrite Hcount. }
    by destruct (selects s) as [|[[|idx]|e] sel'].
  - rewrite <- Hsel3. clear Hsel3 H13 Hzero Hcount.
    unfold tty.bind at 1, selectRun.
    set (label := ("Add " +:+ formatInt newCount +:+ " new alias(es)?")%string).
    destruct (selects s3) as [|answer sel'].
    { exists (Some (ErrPrompt ErrEOF)), (mkSession (world s3) (stderr s3)
               (asked s3 ++ [label]) [] (inputs s3) (render s3) (helpText s3)), l.
      split; [done |]. split; [done |]. split; [done |].
      split; [auto |]. by split. }
    set (s4 := mkSession (world s3) (stderr s3) (asked s3 ++ [label]) sel'
                 (inputs s3) (render s3) (helpText s3)).
    assert (∃ s5, (Println "Cancelled." >>> tty.ret None) s4
                  = (Return (@None tty.error), s5)
                  ∧ stored (world s5) l) as (s5 & Hcancel & Hst5).
    { destruct (Println_onlyPrints "Cancelled." s4) as (s5 & HP & H5).
      exists s5. rewrite (bind_Return _ _ _ _ _ HP). split; [done |].
      by apply (onlyPrints_stored _ _ _ l H5). }
    destruct answer as [[|idx]|e]; cbn beta iota.
    + exists None, s5, l. change (0 =? 0) with true. cbn iota.
      split; [done |]. split; [done |]. split; [done |].
      split; [auto |]. by split.
    + change (S idx =? 0) with false. cbn iota.
      destruct (addNew_spec (Config.Aliases newConfig) existing s4 l 0 Hst Hex)
        as (added & s6 & l' & HA & Hst6 & Hpre & Hsub & Hall & Hnd).
      rewrite (bind_Return _ _ _ _ _ HA).
      match goal with |- context [colorPrint ?attrs ?t] =>
        destruct (colorPrint_onlyPrints attrs t s6) as (s7 & HP & H7)
      end.
      rewrite (bind_Return _ _ _ _ _ HP).
      exists None, s7, l'. split; [done |].
      split; [by apply (onlyPrints_stored _ _ _ l' H7) |]. done.
    + destruct e as [| |msg].
      * exists None, s5, l. split; [done |]. split; [done |].
        split; [done |]. split; [auto |]. by split.
      * exists (Some (ErrPrompt ErrEOF)), s4, l. split; [done |].
        split; [done |]. split; [done |]. split; [auto |]. by split.
      * exists (Some (ErrPrompt (ErrOther msg))), s4, l. split; [done |].
        split; [done |]. split; [done |]. split; [auto |]. by split.
Qed.

Lemma mergeConfig_adds_new_only_witness :
  let s := mkSession sample.ready [] [] [inl 1] [] (λ _ text, text) "help" in
  let newConfig := Config.mk 1 (Config.Settings sample.cfg)
                     [sample.gp; sample.gs] in
  ∃ (err : option tty.error) s' (l' : list Alias.t),
    mergeConfig newConfig s = (Return err, s')
    ∧ stored (world s') l'
    ∧ Config.Aliases sample.cfg `prefix_of` l'
    ∧ (∀ n, n ∈ aliasNames l' →
            n ∈ aliasNames (Config.Aliases sample.cfg)
            ∨ n ∈ aliasNames (Config.Aliases newConfig))
    ∧ (NoDup (aliasNames (Config.Aliases sample.cfg)) → NoDup (aliasNames l'))
    ∧ match selects s with
      | inl (S _) :: _ =>
          ∀ n, n ∈ aliasNames (Config.Aliases newConfig) → n ∈ aliasNames l'
      | _ => l' = Config.Aliases sample.cfg
      end.
Proof.
  intros s newConfig.
  apply (mergeConfig_adds_new_only newConfig s (Config.Aliases sample.cfg)).
  split; [reflexivity |]. exists sample.cfg. split; reflexivity.
Defined.

(** [al import] of a file holding [gp] and [gs] into the configuration
    that holds [gc] and [gp], confirmed: [gs] is appended, [gp] is
    reported as existing. *)
Example al_import_merge :
  let s := mkSession sample.ready [] [] [inl 1] [] (λ _ text, text) "help" in
  let newConfig := Config.mk 1 (Config.Settings sample.cfg)
                     [sample.gp; sample.gs] in
  let '(out, s') := mergeConfig newConfig s in
  out = Return None
  ∧ Config.Aliases <$> globalConfig (world s')
    = Some [sample.gc; sample.gp; sample.gs]
  ∧ stdout (world s')
    = ["New aliases to add: 1" +:+ newline;
       "Already exist (will skip): [gp]" +:+ newline;
       newline;
       "Added 1 new alias(es)!" +:+ newline].
Proof. vm_compute. done. Qed.

End OtherCommands.
